(** * Gemini Animator: the frame editor and the generation job, verified

    A shallow embedding of [src/components/ImageEditor.tsx] (parameter
    store, undo/redo history, drag commits, live preview, export) and of the
    [AnimatorDashboard] component (prompt composition, [generateVideo]).

    Conventions of the embedding.
    - A JavaScript string is the list of its UTF-16 code units.
    - The editor parameters are whole numbers (every slider delivers
      [parseInt] of a range input, the rotation steps by 90): they are [Z].
    - The other numbers are embedded as the numbers the source's expressions
      denote, rationals where the arithmetic is rational and reals where a
      square root is taken; the rounding of IEEE doubles is not part of the
      embedding.
    - A React component's state is a record; an event handler is a function
      from the state its closure was rendered with to the state after the
      batched setters have run.  Handlers run one at a time, each on the
      state left by the previous one.
    - An [async] function is a computation over the job state that logs its
      effects; what the backend and the network answer is a parameter of the
      run. *)

From Stdlib Require Import Ascii String DecimalString DecimalZ.
From Stdlib Require Import QArith Qround Qabs.
From Stdlib Require Import Reals Lra.
From Stdlib Require Import ZArith NArith List Sorted Bool Lia.
Import ListNotations.

Local Open Scope Z_scope.

(** ** JavaScript strings and numbers *)

Module JS.

Definition char16 := N.
Definition jsstring := list char16.

(** A string literal of the source (the literals used are ASCII). *)
Definition lit (s : string) : jsstring :=
  List.map N_of_ascii (list_ascii_of_string s).

Definition jsstring_eq_dec : forall a b : jsstring, {a = b} + {a <> b} :=
  list_eq_dec N.eq_dec.

(** [a === b] on strings. *)
Definition str_eqb (a b : jsstring) : bool :=
  if jsstring_eq_dec a b then true else false.

(** [Number::toString] of a whole number: the decimal digits, with a
    leading minus sign below zero. *)
Definition Number_toString (z : Z) : jsstring :=
  lit (NilZero.string_of_int (Z.to_int z)).

Definition Boolean_toString (b : bool) : jsstring :=
  if b then lit "true" else lit "false".

(** Truthiness of a [string | null | undefined]. *)
Definition truthy (s : option jsstring) : bool :=
  match s with
  | Some (_ :: _) => true
  | _ => false
  end.

(** [s.startsWith(pat)] at the head of [s]. *)
Fixpoint starts_with (pat s : jsstring) : bool :=
  match pat, s with
  | [], _ => true
  | _ :: _, [] => false
  | p :: pat', c :: s' => N.eqb p c && starts_with pat' s'
  end.

(** [s.includes(pat)]. *)
Fixpoint includes (s pat : jsstring) : bool :=
  starts_with pat s ||
  match s with
  | [] => false
  | _ :: s' => includes s' pat
  end.

(** The code units [String.prototype.trim] strips: WhiteSpace and
    LineTerminator of ECMA-262. *)
Definition is_white_space (c : char16) : bool :=
  let n := Z.of_N c in
  ((9 <=? n) && (n <=? 13))
  || (n =? 32) || (n =? 160) || (n =? 5760)
  || ((8192 <=? n) && (n <=? 8202))
  || (n =? 8232) || (n =? 8233) || (n =? 8239) || (n =? 8287)
  || (n =? 12288) || (n =? 65279).

Fixpoint trimStart (s : jsstring) : jsstring :=
  match s with
  | [] => []
  | c :: s' => if is_white_space c then trimStart s' else s
  end.

Definition trimEnd (s : jsstring) : jsstring :=
  rev (trimStart (rev s)).

Definition trim (s : jsstring) : jsstring :=
  trimEnd (trimStart s).

(** The code unit of the double quote, and a quoted property name followed
    by its colon, as [JSON.stringify] writes it. *)
Definition dquote : jsstring := [34%N].

Definition json_key (k : string) : jsstring :=
  dquote ++ lit k ++ dquote ++ lit ":".

(** A code unit that may appear inside a printed number or boolean: none of
    them is the comma or the closing brace that ends a JSON member. *)
Definition inside_value (c : char16) : Prop := c <> 44%N /\ c <> 125%N.

(** [xs.join(sep)]. *)
Fixpoint join (sep : jsstring) (xs : list jsstring) : jsstring :=
  match xs with
  | [] => []
  | [x] => x
  | x :: rest => x ++ sep ++ join sep rest
  end.

End JS.
Import JS.

(** ** The frame editor: parameters and history *)

Module Editor.

(** [interface EditorParams]. *)
Record EditorParams := mkParams {
  brightness : Z;
  contrast : Z;
  saturation : Z;
  hue : Z;
  vignette : Z;
  grayscale : bool;
  sepia : bool;
  rotation : Z;
  rotateX : Z;
  rotateY : Z;
  perspective : Z;
  cameraShake : Z
}.

(** [Partial<EditorParams>]: every key may be absent. *)
Record PartialParams := mkPartial {
  p_brightness : option Z;
  p_contrast : option Z;
  p_saturation : option Z;
  p_hue : option Z;
  p_vignette : option Z;
  p_grayscale : option bool;
  p_sepia : option bool;
  p_rotation : option Z;
  p_rotateX : option Z;
  p_rotateY : option Z;
  p_perspective : option Z;
  p_cameraShake : option Z
}.

Definition noChange : PartialParams :=
  mkPartial None None None None None None None None None None None None.

(** The argument of [useState<EditorParams>]. *)
Definition defaultParams : EditorParams :=
  {| brightness := 100; contrast := 100; saturation := 100; hue := 0;
     vignette := 0; grayscale := false; sepia := false; rotation := 0;
     rotateX := 0; rotateY := 0; perspective := 1000; cameraShake := 0 |}.

Definition over {A} (new : option A) (old : A) : A :=
  match new with Some v => v | None => old end.

(** The object spread [{ ...prev, ...newParams }]. *)
Definition merge (prev : EditorParams) (newParams : PartialParams) : EditorParams :=
  {| brightness := over (p_brightness newParams) (brightness prev);
     contrast := over (p_contrast newParams) (contrast prev);
     saturation := over (p_saturation newParams) (saturation prev);
     hue := over (p_hue newParams) (hue prev);
     vignette := over (p_vignette newParams) (vignette prev);
     grayscale := over (p_grayscale newParams) (grayscale prev);
     sepia := over (p_sepia newParams) (sepia prev);
     rotation := over (p_rotation newParams) (rotation prev);
     rotateX := over (p_rotateX newParams) (rotateX prev);
     rotateY := over (p_rotateY newParams) (rotateY prev);
     perspective := over (p_perspective newParams) (perspective prev);
     cameraShake := over (p_cameraShake newParams) (cameraShake prev) |}.

(** Merging a partial into the parameters, as the contract of the update
    words it and key by key: a key the partial holds takes the partial's
    value, every other key keeps the value it had. *)
Definition keyAfter {A} (update : option A) (before after : A) : Prop :=
  match update with
  | Some v => after = v
  | None => after = before
  end.

Definition Merged (before : EditorParams) (partial : PartialParams)
    (after : EditorParams) : Prop :=
  keyAfter (p_brightness partial) (brightness before) (brightness after) /\
  keyAfter (p_contrast partial) (contrast before) (contrast after) /\
  keyAfter (p_saturation partial) (saturation before) (saturation after) /\
  keyAfter (p_hue partial) (hue before) (hue after) /\
  keyAfter (p_vignette partial) (vignette before) (vignette after) /\
  keyAfter (p_grayscale partial) (grayscale before) (grayscale after) /\
  keyAfter (p_sepia partial) (sepia before) (sepia after) /\
  keyAfter (p_rotation partial) (rotation before) (rotation after) /\
  keyAfter (p_rotateX partial) (rotateX before) (rotateX after) /\
  keyAfter (p_rotateY partial) (rotateY before) (rotateY after) /\
  keyAfter (p_perspective partial) (perspective before) (perspective after) /\
  keyAfter (p_cameraShake partial) (cameraShake before) (cameraShake after).

(** The component state the history handlers read and write: [params], the
    undo stack [history] (the spec's past, newest last), the redo stack
    [future] (next first), the [isDragging] flag and the [dragStartParams]
    ref. *)
Record State := mkState {
  params : EditorParams;
  history : list EditorParams;
  future : list EditorParams;
  isDragging : bool;
  dragStartParams : option EditorParams
}.

Definition initialState : State :=
  mkState defaultParams [] [] false None.

Definition setParams (f : EditorParams -> EditorParams) (st : State) : State :=
  mkState (f (params st)) (history st) (future st) (isDragging st) (dragStartParams st).

Definition setHistory (f : list EditorParams -> list EditorParams) (st : State) : State :=
  mkState (params st) (f (history st)) (future st) (isDragging st) (dragStartParams st).

Definition setFuture (f : list EditorParams -> list EditorParams) (st : State) : State :=
  mkState (params st) (history st) (f (future st)) (isDragging st) (dragStartParams st).

Definition setIsDragging (b : bool) (st : State) : State :=
  mkState (params st) (history st) (future st) b (dragStartParams st).

Definition setDragStart (d : option EditorParams) (st : State) : State :=
  mkState (params st) (history st) (future st) (isDragging st) d.

(** [updateParams(newParams, commit)].  The closure's [params] is the
    [params] of the state the handler was rendered with. *)
Definition updateParams (newParams : PartialParams) (commit : bool) (st : State) : State :=
  let st1 :=
    if commit
    then setFuture (fun _ => []) (setHistory (fun prev => prev ++ [params st]) st)
    else st in
  setParams (fun prev => merge prev newParams) st1.

(** [prev.slice(0, -1)]. *)
Definition slice_0_m1 {A} (l : list A) : list A := removelast l.

(** [prev.slice(1)]. *)
Definition slice_1 {A} (l : list A) : list A := tl l.

(** [undo]; [history[history.length - 1]] is [undefined] only on the empty
    stack, which the guard has excluded. *)
Definition undo (st : State) : State :=
  if (length (history st) =? 0)%nat then st
  else
    match nth_error (history st) (length (history st) - 1) with
    | Some previous =>
        setParams (fun _ => previous)
          (setHistory slice_0_m1
             (setFuture (fun prev => params st :: prev) st))
    | None => st
    end.

(** [redo]; [future[0]]. *)
Definition redo (st : State) : State :=
  if (length (future st) =? 0)%nat then st
  else
    match nth_error (future st) 0 with
    | Some next =>
        setParams (fun _ => next)
          (setFuture slice_1
             (setHistory (fun prev => prev ++ [params st]) st))
    | None => st
    end.

(** [handleRotateZ]; JavaScript's [%] on whole numbers is [Z.rem]. *)
Definition handleRotateZ (st : State) : State :=
  updateParams
    (mkPartial None None None None None None None
       (Some (Z.rem (rotation (params st) + 90) 360)) None None None None)
    true st.

(** [resetTransforms]. *)
Definition resetTransforms (st : State) : State :=
  updateParams
    (mkPartial None None None None None None None
       (Some 0) (Some 0) (Some 0) (Some 1000) None)
    true st.

(** [JSON.stringify] of an [EditorParams] object.  Every such object is
    built by spreading over the initial one, so its keys are always
    enumerated in the order of the interface. *)
Definition JSON_stringify (p : EditorParams) : jsstring :=
  lit "{" ++ json_key "brightness" ++ Number_toString (brightness p) ++
  lit "," ++ json_key "contrast" ++ Number_toString (contrast p) ++
  lit "," ++ json_key "saturation" ++ Number_toString (saturation p) ++
  lit "," ++ json_key "hue" ++ Number_toString (hue p) ++
  lit "," ++ json_key "vignette" ++ Number_toString (vignette p) ++
  lit "," ++ json_key "grayscale" ++ Boolean_toString (grayscale p) ++
  lit "," ++ json_key "sepia" ++ Boolean_toString (sepia p) ++
  lit "," ++ json_key "rotation" ++ Number_toString (rotation p) ++
  lit "," ++ json_key "rotateX" ++ Number_toString (rotateX p) ++
  lit "," ++ json_key "rotateY" ++ Number_toString (rotateY p) ++
  lit "," ++ json_key "perspective" ++ Number_toString (perspective p) ++
  lit "," ++ json_key "cameraShake" ++ Number_toString (cameraShake p) ++
  lit "}".

(** [handleSliderStart]; [{ ...params }] is a copy of the snapshot. *)
Definition handleSliderStart (st : State) : State :=
  setDragStart (Some (params st)) (setIsDragging true st).

(** [handleSliderEnd]. *)
Definition handleSliderEnd (st : State) : State :=
  let st1 := setIsDragging false st in
  match dragStartParams st with
  | Some start =>
      let hasChanged := negb (str_eqb (JSON_stringify start) (JSON_stringify (params st))) in
      if hasChanged
      then setFuture (fun _ => []) (setHistory (fun prev => prev ++ [start]) st1)
      else st1
  | None => st1
  end.

(** The slider's [onChange]: an update that does not commit. *)
Definition sliderChange (newParams : PartialParams) (st : State) : State :=
  updateParams newParams false st.

(** A drag: pointer down, the slider's change events, pointer up. *)
Definition dragSession (changes : list PartialParams) (st : State) : State :=
  handleSliderEnd
    (fold_left (fun s c => sliderChange c s) changes (handleSliderStart st)).

(** Running a list of committed edits, oldest first. *)
Definition commitAll (edits : list PartialParams) (st : State) : State :=
  fold_left (fun s e => updateParams e true s) edits st.

(** The live parameters after a list of partial updates. *)
Definition mergeAll (changes : list PartialParams) (p : EditorParams) : EditorParams :=
  fold_left merge changes p.

(** Structural equality of snapshots is decidable. *)
Definition params_eq_dec (p q : EditorParams) : {p = q} + {p <> q}.
Proof. repeat decide equality. Defined.

(** The snapshots of a state in the order of the edits that made them: the
    undo stack, the live parameters, the redo stack. *)
Definition timeline (st : State) : list EditorParams :=
  history st ++ params st :: future st.

(** The live parameters sit in the timeline at the depth of the undo stack. *)
Definition cursor (st : State) : nat := List.length (history st).

End Editor.

(** ** The frame editor: export sizing ([handleSave])

    The arithmetic of [handleSave] runs on JavaScript numbers; it is embedded
    over the rationals, the values the source's expressions denote.  (On
    canvas sides below 2^31 the doubles of the source give the same sizes:
    the products are exact, and a quotient by 9 or 16 that is not whole lies
    at least 1/16 away from a whole number, far more than a double is off.)
    The sizes of a canvas are whole: assigning a number to [canvas.width]
    keeps its integral part. *)

Module Save.

Local Open Scope Q_scope.

(** The [aspectRatio] prop: ['16:9' | '9:16']. *)
Inductive AspectRatio := Ratio_16_9 | Ratio_9_16.

Record Canvas := mkCanvas { width : Z; height : Z }.

(** The integral part of a number (rounding toward zero). *)
Definition truncate (q : Q) : Z := Z.quot (Qnum q) (Zpos (Qden q)).

(** [a % b]: the remainder takes the sign of the dividend. *)
Definition js_rem (a b : Q) : Q := a - b * inject_Z (truncate (a / b)).

(** [aspectRatio === '16:9' ? [16, 9] : [9, 16]]. *)
Definition ratios (aspectRatio : AspectRatio) : Q * Q :=
  match aspectRatio with
  | Ratio_16_9 => (16, 9)
  | Ratio_9_16 => (9, 16)
  end.

(** [(params.rotation / 90) % 2 !== 0]. *)
Definition isVertical (rotation : Z) : bool :=
  negb (Qeq_bool (js_rem (inject_Z rotation / 90) 2) 0).

Definition baseW (canvas : Canvas) (rotation : Z) : Q :=
  inject_Z (if isVertical rotation then height canvas else width canvas).

Definition baseH (canvas : Canvas) (rotation : Z) : Q :=
  inject_Z (if isVertical rotation then width canvas else height canvas).

(** The numbers [finalWidth] and [finalHeight] at the end of the fitting
    step of [handleSave]. *)
Definition finalSize (canvas : Canvas) (rotation : Z) (aspectRatio : AspectRatio) : Q * Q :=
  let '(wRatio, hRatio) := ratios aspectRatio in
  let bW := baseW canvas rotation in
  let bH := baseH canvas rotation in
  let finalWidth := bW in
  let finalHeight := (bW * hRatio) / wRatio in
  if Qlt_le_dec bH finalHeight
  then ((bH * wRatio) / hRatio, bH)
  else (finalWidth, finalHeight).

(** [finalCanvas] once [finalCanvas.width = finalWidth] and
    [finalCanvas.height = finalHeight] have run: the raster that
    [toDataURL] encodes. *)
Definition handleSave (canvas : Canvas) (rotation : Z) (aspectRatio : AspectRatio) : Canvas :=
  let '(finalWidth, finalHeight) := finalSize canvas rotation aspectRatio in
  mkCanvas (truncate finalWidth) (truncate finalHeight).

(** The two terms of the requested ratio, as whole numbers. *)
Definition wRatioOf (aspectRatio : AspectRatio) : Z :=
  match aspectRatio with Ratio_16_9 => 16 | Ratio_9_16 => 9 end.

Definition hRatioOf (aspectRatio : AspectRatio) : Z :=
  match aspectRatio with Ratio_16_9 => 9 | Ratio_9_16 => 16 end.

(** The rotation-adjusted source dimensions, in the words of the
    specification: a quarter turn or three swap width and height. *)
Definition rotatedWidth (canvas : Canvas) (rotation : Z) : Z :=
  if orb (rotation =? 90)%Z (rotation =? 270)%Z then height canvas else width canvas.

Definition rotatedHeight (canvas : Canvas) (rotation : Z) : Z :=
  if orb (rotation =? 90)%Z (rotation =? 270)%Z then width canvas else height canvas.

End Save.

(** ** The frame editor: live preview ([applyChanges])

    What [img.onload] puts on the canvas, as data: the filter string, and
    the gradient of the vignette when there is one.  The geometry of the
    gradient takes a square root; it is embedded over the reals. *)

Module Preview.

Import Editor.

Local Open Scope R_scope.

(** A colour stop [addColorStop(offset, `rgba(${color}, ${opacity})`)],
    kept as its offset, its three colour channels and its opacity. *)
Record ColorStop := mkStop { offset : R; color : jsstring; opacity : R }.

(** [createRadialGradient(x0, y0, r0, x1, y1, r1)] with its stops, in the
    order they were added. *)
Record RadialGradient := mkGradient {
  x0 : R; y0 : R; r0 : R;
  x1 : R; y1 : R; r1 : R;
  stops : list ColorStop
}.

Record Frame := mkFrame {
  canvasWidth : Z;
  canvasHeight : Z;
  filter : jsstring;               (* [ctx.filter] while the image is drawn *)
  overlay : option RadialGradient; (* the [fillRect] of the vignette *)
  transform : jsstring;            (* [canvas.style.transform] *)
  containerPerspective : jsstring  (* [containerRef.current.style.perspective] *)
}.

(** The string [filters]. *)
Definition filters (p : EditorParams) : jsstring :=
  let filters :=
    lit "brightness(" ++ Number_toString (brightness p) ++
    lit "%) contrast(" ++ Number_toString (contrast p) ++
    lit "%) saturate(" ++ Number_toString (saturation p) ++
    lit "%) hue-rotate(" ++ Number_toString (hue p) ++ lit "deg)" in
  let filters := if grayscale p then filters ++ lit " grayscale(100%)" else filters in
  let filters := if sepia p then filters ++ lit " sepia(100%)" else filters in
  filters.

(** The gradient built under [if (params.vignette !== 0)]. *)
Definition vignetteGradient (imgWidth imgHeight : Z) (p : EditorParams) : RadialGradient :=
  let centerX := IZR imgWidth / 2 in
  let centerY := IZR imgHeight / 2 in
  let outerRadius := sqrt (centerX ^ 2 + centerY ^ 2) in
  let color := if (vignette p >? 0)%Z then lit "0, 0, 0" else lit "255, 255, 255" in
  let opacity := IZR (Z.abs (vignette p)) / 100 in
  mkGradient centerX centerY 0 centerX centerY outerRadius
    [mkStop 0.4 color 0; mkStop 1 color opacity].

(** One function of a CSS filter list, [name(argument)]. *)
Definition filterFunction (name : string) (argument : jsstring) : jsstring :=
  lit name ++ lit "(" ++ argument ++ lit ")".

(** The two colours of the vignette, as the channels of [rgba]. *)
Definition black : jsstring := lit "0, 0, 0".
Definition white : jsstring := lit "255, 255, 255".

(** [img.onload] in [applyChanges], for an image of the given size. *)
Definition applyChanges (imgWidth imgHeight : Z) (p : EditorParams) : Frame :=
  {| canvasWidth := imgWidth;
     canvasHeight := imgHeight;
     filter := filters p;
     overlay :=
       if negb (vignette p =? 0)%Z
       then Some (vignetteGradient imgWidth imgHeight p)
       else None;
     transform :=
       lit "rotateX(" ++ Number_toString (rotateX p) ++
       lit "deg) rotateY(" ++ Number_toString (rotateY p) ++
       lit "deg) rotateZ(" ++ Number_toString (rotation p) ++ lit "deg)";
     containerPerspective := Number_toString (perspective p) ++ lit "px" |}.

End Preview.

(** ** The dashboard: prompt composition and the generation job *)

Module Dashboard.

Local Open Scope Z_scope.

Definition LOADING_MESSAGES : list jsstring :=
  [ lit "Analyzing your frames...";
    lit "Synthesizing background textures...";
    lit "Applying temporal coherence...";
    lit "Gemini is dreaming up your video...";
    lit "Optimizing cinematic motion...";
    lit "Finalizing rendering pass..." ].

(** The [id] and [keyword] of [ADVANCED_CAM_ANGLES]. *)
Definition ADVANCED_CAM_ANGLES : list (jsstring * jsstring) :=
  [ (lit "wide", lit "captured from a sprawling wide-angle perspective");
    (lit "closeup", lit "framed in an intimate close-up shot with extreme detail");
    (lit "birdseye", lit "from a high-altitude bird's eye view looking straight down");
    (lit "lowangle", lit "filmed from a dramatic low-angle perspective looking upward");
    (lit "pov", lit "from a first-person point-of-view perspective") ].

(** The [id] and [name] of [ADVANCED_MOTION]. *)
Definition ADVANCED_MOTION : list (jsstring * jsstring) :=
  [ (lit "pan", lit "Smooth Pan");
    (lit "tilt", lit "Vertical Tilt");
    (lit "zoomin", lit "Zoom In");
    (lit "zoomout", lit "Zoom Out");
    (lit "orbit", lit "360 Orbit");
    (lit "dolly", lit "Dolly Push") ].

(** The [id] and [name] of [ADVANCED_ATMOSPHERE]. *)
Definition ADVANCED_ATMOSPHERE : list (jsstring * jsstring) :=
  [ (lit "volumetric", lit "Volumetric");
    (lit "neon", lit "Neon Glow");
    (lit "fog", lit "Ethereal Fog");
    (lit "rain", lit "Heavy Rain");
    (lit "golden", lit "Golden Hour");
    (lit "monochrome", lit "Film Noir") ].

(** [table.find(x => x.id === id)?.field]. *)
Definition find_by_id (table : list (jsstring * jsstring)) (id : jsstring) : option jsstring :=
  option_map snd (List.find (fun row => str_eqb (fst row) id) table).

(** A value spliced into a template literal: [undefined] prints its name. *)
Definition interpolate (v : option jsstring) : jsstring :=
  match v with
  | Some s => s
  | None => lit "undefined"
  end.

(** An array element under [join]: [undefined] contributes nothing. *)
Definition join_item (v : option jsstring) : jsstring :=
  match v with
  | Some s => s
  | None => []
  end.

(** What the composer reads: the state of the Director's Suite. *)
Record PromptInputs := mkPromptInputs {
  prompt : jsstring;
  isAdvancedMode : bool;
  camAngle : jsstring;
  motionType : jsstring;
  atmosphere : list jsstring;
  speed : Q;
  motionBlur : bool;
  stabilization : bool
}.

Definition slowClause : jsstring :=
  lit " The animation should be very slow, deliberate, and serene.".

Definition fastClause : jsstring :=
  lit " The animation should be fast-paced, high-energy, and dynamic.".

(** [speedInstruction] as the two tests leave it; the speed is the rational
    the number stands for. *)
Definition speedInstruction (speed : Q) : jsstring :=
  if Qle_bool speed 0.6 then slowClause
  else if Qle_bool 1.4 speed then fastClause
  else [].

(** The text appended under [if (isAdvancedMode)]. *)
Definition advancedClause (camAngle motionType : jsstring) (atmosphere : list jsstring) : jsstring :=
  let angleKeyword := find_by_id ADVANCED_CAM_ANGLES camAngle in
  let motion := find_by_id ADVANCED_MOTION motionType in
  let atmosphereStr :=
    if (0 <? List.length atmosphere)%nat
    then lit " with " ++
         join (lit ", ")
           (List.map (fun a => join_item (find_by_id ADVANCED_ATMOSPHERE a)) atmosphere) ++
         lit " atmospheric effects"
    else [] in
  lit ". Scene " ++ interpolate angleKeyword ++
  lit ". The animation uses a " ++ interpolate motion ++
  lit " movement style" ++ atmosphereStr ++ lit ".".

(** [final] just before [final.trim()]. *)
Definition untrimmedPrompt (i : PromptInputs) : jsstring :=
  let final := prompt i in
  let final :=
    if isAdvancedMode i
    then final ++ advancedClause (camAngle i) (motionType i) (atmosphere i)
    else final in
  let final := final ++ (lit " " ++ speedInstruction (speed i)) in
  let final :=
    if motionBlur i then final ++ lit " Apply realistic cinematic motion blur." else final in
  let final :=
    if stabilization i
    then final ++ lit " Ensure perfectly stabilized, jitter-free camera movement."
    else final in
  final.

(** The two parts of [final] the speed has no say in: what stands before
    the speed clause and what stands after it. *)
Definition beforeSpeed (i : PromptInputs) : jsstring :=
  if isAdvancedMode i
  then prompt i ++ advancedClause (camAngle i) (motionType i) (atmosphere i)
  else prompt i.

Definition afterSpeed (i : PromptInputs) : jsstring :=
  (if motionBlur i then lit " Apply realistic cinematic motion blur." else []) ++
  (if stabilization i
   then lit " Ensure perfectly stabilized, jitter-free camera movement."
   else []).

(** The same inputs at another speed. *)
Definition withSpeed (q : Q) (i : PromptInputs) : PromptInputs :=
  mkPromptInputs (prompt i) (isAdvancedMode i) (camAngle i) (motionType i)
                 (atmosphere i) q (motionBlur i) (stabilization i).

(** The memoised [enginePrompt]. *)
Definition enginePrompt (i : PromptInputs) : jsstring :=
  trim (untrimmedPrompt i).

(** *** The generation job *)

(** What the field [error] of a job state holds at run time.  The
    interface declares a string; the [catch] block of [generateVideo] stores
    [err.message] there, read off a value typed [any], so the field holds a
    string or, when the message is of another type, that other value. *)
Inductive ErrorValue :=
| ErrorText (s : jsstring)
| ErrorForeign.

(** The interface [GenerationState] of [types.ts] (the declarations of that
    file stand at the end of [components/ImageEditor.tsx], l.528-534), field
    for field: [isGenerating: boolean], [status: string], [progress: number],
    and the optional [error] and [videoUrl], [None] when absent.  [error] is
    declared [string]; at run time it holds an [ErrorValue]. *)
Record GenerationState := mkGen {
  isGenerating : bool;
  status : jsstring;
  progress : Z;
  videoUrl : option jsstring;
  error : option ErrorValue
}.

(** The type [Resolution] of [types.ts] (l.518 of the same file):
    ['720p' | '1080p'].  [AspectRatio], declared on the line before it, is
    [Save.AspectRatio]. *)
Inductive Resolution := Res720p | Res1080p.

(** The argument of [useState<GenerationState>]. *)
Definition initialGenState : GenerationState :=
  mkGen false [] 0 None None.

(** What the component reads of an operation handle: [operation.done] and
    [operation.response?.generatedVideos?.[0]?.video?.uri]. *)
Record VideoOperation := mkOp {
  done : bool;
  uri : option jsstring
}.

(** What [err.message] is, for the [catch] block that reads it off a value
    typed [any]: [undefined] or [null]; a string; or a value of any other
    type.  Of such a value the block calls the method [includes]:
    [includesAnswer] is whether what the call returns is truthy, and [None]
    when the call throws, as it does for a number, a boolean or a plain
    object, which have no such method.  A value that has one (an array, say)
    is an object, hence truthy. *)
Inductive MessageValue :=
| NoMessage
| TextMessage (s : jsstring)
| ForeignMessage (includesAnswer : option bool).

(** A thrown value ([catch (err: any)]), as far as the handlers look at it:
    [null] or [undefined], or any other value, with what reading its
    property [message] gives ([undefined] on a primitive). *)
Inductive JsError :=
| ThrownNullish
| Thrown (message : MessageValue).

(** An [Error] whose message is the given string, or which has none. *)
Definition mkError (message : option jsstring) : JsError :=
  match message with
  | Some s => Thrown (TextMessage s)
  | None => Thrown NoMessage
  end.

(** The [TypeError] the engine raises when a property of [null] or
    [undefined] is read, or when what is called is not a function.  Its
    message is the engine's own wording; no code of the component reads it,
    and it stands here as the name of the error. *)
Definition engineTypeError : JsError := Thrown (TextMessage (lit "TypeError")).

(** How an awaited call ends. *)
Inductive reply (A : Type) :=
| Returns (a : A)
| Throws (e : JsError).
Arguments Returns {A} a.
Arguments Throws {A} e.

(** [s.split(',')[1]]. *)
Fixpoint until_comma (s : jsstring) : jsstring :=
  match s with
  | [] => []
  | c :: s' => if N.eqb c 44 then [] else c :: until_comma s'
  end.

Fixpoint split_comma_1 (s : jsstring) : option jsstring :=
  match s with
  | [] => None
  | c :: s' => if N.eqb c 44 then Some (until_comma s') else split_comma_1 s'
  end.

Record ImagePayload := mkImage {
  imageBytes : option jsstring;
  mimeType : jsstring
}.

(** The argument of [ai.models.generateVideos]. *)
Record VideoRequest := mkRequest {
  model : jsstring;
  req_prompt : jsstring;
  image : ImagePayload;
  numberOfVideos : Z;
  req_resolution : Resolution;
  req_aspectRatio : Save.AspectRatio;
  lastFrame : option ImagePayload
}.

(** The backend and the network during one run of [generateVideo]: the
    answer to the submission (an exception of the client's constructor
    counts as a failed submission), the answers to the successive polls, and
    the outcome of fetching the asset, reading its blob and wrapping it in an
    object URL.  A call that resolves to [null] or [undefined] instead of an
    operation handle counts as a failed call: the read of [operation.done]
    that follows throws a [TypeError] inside the [try] block, and the
    [catch] block receives it as it receives a rejection. *)
Record World := mkWorld {
  generateVideos_reply : VideoRequest -> reply VideoOperation;
  getVideosOperation_replies : list (reply VideoOperation);
  fetch_reply : jsstring -> reply jsstring
}.

(** What a run does that is visible outside the function, in order, with
    the answers it got. *)
Inductive effect :=
| Alert (msg : jsstring)
| SetGenState (g : GenerationState)
| GenerateVideos (req : VideoRequest) (r : reply VideoOperation)
| Sleep (ms : Z)
| GetVideosOperation (r : option (reply VideoOperation))
| Fetch (url : jsstring) (r : reply jsstring)
| ConsoleError (e : JsError)
| OnResetKey.

(** How a computation ends: with a value, with an exception, or suspended
    at an [await] whose answer the world does not hold yet. *)
Inductive outcome (A : Type) :=
| Done (a : A)
| Raised (e : JsError)
| Awaiting.
Arguments Done {A} a.
Arguments Raised {A} e.
Arguments Awaiting {A}.

(** Computations over the job state that log their effects. *)
Definition M (A : Type) : Type :=
  GenerationState -> outcome A * GenerationState * list effect.

Definition ret {A} (a : A) : M A := fun s => (Done a, s, []).

Definition bind {A B} (m : M A) (k : A -> M B) : M B :=
  fun s =>
    match m s with
    | (Done a, s1, log1) =>
        let '(o, s2, log2) := k a s1 in (o, s2, log1 ++ log2)
    | (Raised e, s1, log1) => (Raised e, s1, log1)
    | (Awaiting, s1, log1) => (Awaiting, s1, log1)
    end.

Notation "x <- m ;; k" := (bind m (fun x => k))
  (at level 61, m at next level, right associativity).
Notation "m ;; k" := (bind m (fun _ => k))
  (at level 61, right associativity).

Definition emit (e : effect) : M unit := fun s => (Done tt, s, [e]).

(** [setGenState(update)], with the functional form of the setter. *)
Definition setGenState (update : GenerationState -> GenerationState) : M unit :=
  fun s => (Done tt, update s, [SetGenState (update s)]).

Definition raise {A} (e : JsError) : M A := fun s => (Raised e, s, []).

Definition suspend {A} : M A := fun s => (Awaiting, s, []).

(** [await] of a call that has ended. *)
Definition await {A} (r : reply A) : M A :=
  match r with
  | Returns a => ret a
  | Throws e => raise e
  end.

(** [try { body } catch (err) { handler }]. *)
Definition try_catch {A} (body : M A) (handler : JsError -> M A) : M A :=
  fun s =>
    match body s with
    | (Raised e, s1, log1) =>
        let '(o, s2, log2) := handler e s1 in (o, s2, log1 ++ log2)
    | r => r
    end.

(** [LOADING_MESSAGES[messageIndex]]. *)
Definition loadingMessage (messageIndex : Z) : jsstring :=
  nth (Z.to_nat messageIndex) LOADING_MESSAGES [].

(** The updater of a poll tick. *)
Definition tick (messageIndex : Z) (prev : GenerationState) : GenerationState :=
  mkGen (isGenerating prev) (loadingMessage messageIndex)
        (Z.min (progress prev + 15) 95) (videoUrl prev) (error prev).

(** [while (!operation.done) { ... }], by recursion on the answers the
    polls will get.  When they run out the run stays suspended at the
    [await] of the poll it has just issued. *)
Fixpoint pollLoop (replies : list (reply VideoOperation))
    (operation : VideoOperation) (messageIndex : Z) : M VideoOperation :=
  if done operation then ret operation
  else
    emit (Sleep 10000) ;;
    let messageIndex := Z.rem (messageIndex + 1) (Z.of_nat (List.length LOADING_MESSAGES)) in
    setGenState (tick messageIndex) ;;
    match replies with
    | [] => emit (GetVideosOperation None) ;; suspend
    | r :: replies' =>
        emit (GetVideosOperation (Some r)) ;;
        operation <- await r ;;
        pollLoop replies' operation messageIndex
    end.

(** What [generateVideo] reads of the component and of the environment. *)
Record JobInputs := mkJobInputs {
  startImage : option jsstring;
  endImage : option jsstring;
  job_prompt : jsstring;          (* [enginePrompt] *)
  resolution : Resolution;
  aspectRatio : Save.AspectRatio;
  API_KEY : jsstring              (* [process.env.API_KEY] *)
}.

Definition pngPayload (dataUrl : jsstring) : ImagePayload :=
  mkImage (split_comma_1 dataUrl) (lit "image/png").

Definition buildRequest (i : JobInputs) (start : jsstring) : VideoRequest :=
  {| model := lit "veo-3.1-fast-generate-preview";
     req_prompt := job_prompt i;
     image := pngPayload start;
     numberOfVideos := 1;
     req_resolution := resolution i;
     req_aspectRatio := aspectRatio i;
     lastFrame :=
       match endImage i with
       | Some (c :: e) => Some (pngPayload (c :: e))
       | _ => None
       end |}.

Definition credentialSignature : jsstring := lit "Requested entity was not found.".

(** [message?.includes("Requested entity was not found.")], as the [if]
    reads it: [None] when the call throws.  The optional chain skips the
    call on [undefined] and [null] only. *)
Definition includesSignature (message : MessageValue) : option bool :=
  match message with
  | NoMessage => Some false
  | TextMessage s => Some (includes s credentialSignature)
  | ForeignMessage includesAnswer => includesAnswer
  end.

(** [err.message?.includes("Requested entity was not found.")]: [None] when
    the expression throws, which the read of [err.message] does on [null]
    and [undefined]. *)
Definition readsSignature (err : JsError) : option bool :=
  match err with
  | ThrownNullish => None
  | Thrown message => includesSignature message
  end.

(** Whether the [catch] block finds the credential signature in
    [err.message]; it finds nothing when the expression throws. *)
Definition isCredentialError (e : JsError) : bool :=
  match readsSignature e with
  | Some found => found
  | None => false
  end.

(** [message || "An unexpected error occurred."]. *)
Definition surfacedMessage (message : MessageValue) : ErrorValue :=
  match message with
  | TextMessage (c :: m) => ErrorText (c :: m)
  | ForeignMessage _ => ErrorForeign
  | _ => ErrorText (lit "An unexpected error occurred.")
  end.

(** The body of the [try] block. *)
Definition tryBlock (w : World) (i : JobInputs) (start : jsstring) : M unit :=
  let req := buildRequest i start in
  let r := generateVideos_reply w req in
  emit (GenerateVideos req r) ;;
  operation <- await r ;;
  operation <- pollLoop (getVideosOperation_replies w) operation 0 ;;
  let downloadLink := uri operation in
  match downloadLink with
  | Some (c :: l) =>
      let url := (c :: l) ++ lit "&key=" ++ API_KEY i in
      let r := fetch_reply w url in
      emit (Fetch url r) ;;
      videoUrl <- await r ;;
      setGenState (fun _ => mkGen false (lit "Generation complete!") 100 (Some videoUrl) None)
  | _ => ret tt
  end.

(** The [catch] block.  It has no handler of its own: when the read of
    [err.message] or the call of [includes] throws, the [TypeError] leaves
    [generateVideo] and the statements after it are not run. *)
Definition catchBlock (err : JsError) : M unit :=
  emit (ConsoleError err) ;;
  match err with
  | ThrownNullish => raise engineTypeError
  | Thrown message =>
      match includesSignature message with
      | None => raise engineTypeError
      | Some found =>
          (if found then emit OnResetKey else ret tt) ;;
          setGenState
            (fun _ => mkGen false (lit "Error") 0 None (Some (surfacedMessage message)))
      end
  end.

(** [generateVideo]. *)
Definition generateVideo (w : World) (i : JobInputs) : M unit :=
  match startImage i with
  | Some (c :: s) =>
      setGenState (fun _ => mkGen true (nth 0 LOADING_MESSAGES []) 0 None None) ;;
      try_catch (tryBlock w i (c :: s)) catchBlock
  | _ =>
      emit (Alert (lit "Please upload at least one starting image."))
  end.

(** *** Reading a log *)

(** The job states a log sets, in order. *)
Fixpoint states (log : list effect) : list GenerationState :=
  match log with
  | [] => []
  | SetGenState g :: log' => g :: states log'
  | _ :: log' => states log'
  end.

(** The operation handle an effect shows the run, if it shows one. *)
Definition observes (ev : effect) : option VideoOperation :=
  match ev with
  | GenerateVideos _ (Returns op) => Some op
  | GetVideosOperation (Some (Returns op)) => Some op
  | _ => None
  end.

(** The operation handles the backend returned, in order. *)
Fixpoint observed (log : list effect) : list VideoOperation :=
  match log with
  | [] => []
  | ev :: log' =>
      match observes ev with
      | Some op => op :: observed log'
      | None => observed log'
      end
  end.

(** The error an effect raises in the run, if it raises one: a failed
    submission, a failed poll or a failed fetch. *)
Definition raises (ev : effect) : option JsError :=
  match ev with
  | GenerateVideos _ (Throws e) => Some e
  | GetVideosOperation (Some (Throws e)) => Some e
  | Fetch _ (Throws e) => Some e
  | _ => None
  end.

Fixpoint raised (log : list effect) : list JsError :=
  match log with
  | [] => []
  | ev :: log' =>
      match raises ev with
      | Some e => e :: raised log'
      | None => raised log'
      end
  end.

(** How many times a log calls [onResetKey]. *)
Fixpoint resets (log : list effect) : nat :=
  match log with
  | [] => 0
  | OnResetKey :: log' => S (resets log')
  | _ :: log' => resets log'
  end.

(** A call to the backend or to the network. *)
Definition isBackendCall (ev : effect) : bool :=
  match ev with
  | GenerateVideos _ _ | GetVideosOperation _ | Fetch _ _ => true
  | _ => false
  end.

(** A handle that reports completion and carries a link to the asset. *)
Definition completedWithAsset (op : VideoOperation) : bool :=
  done op && truthy (uri op).

(** The states of a job that is still being generated. *)
Definition inFlight (gs : list GenerationState) : list GenerationState :=
  List.filter isGenerating gs.

(** The job state the [catch] block sets when it runs to its end. *)
Definition failedState (message : MessageValue) : GenerationState :=
  mkGen false (lit "Error") 0 None (Some (surfacedMessage message)).

(** How the [catch] block ends on the thrown value [e], and the job state
    it leaves from the state [s]: the failed state, or [s] itself when the
    block throws. *)
Definition catchOutcome (e : JsError) : outcome unit :=
  match readsSignature e with
  | Some _ => Done tt
  | None => Raised engineTypeError
  end.

Definition catchState (e : JsError) (s : GenerationState) : GenerationState :=
  match e with
  | ThrownNullish => s
  | Thrown message =>
      match includesSignature message with
      | Some _ => failedState message
      | None => s
      end
  end.

(** The successor of a message index in the poll loop. *)
Definition nextIndex (messageIndex : Z) : Z :=
  Z.rem (messageIndex + 1) (Z.of_nat (List.length LOADING_MESSAGES)).

(** The effects of one turn of the poll loop, up to the answer. *)
Definition tickEffects (messageIndex : Z) (s : GenerationState)
    (r : option (reply VideoOperation)) : list effect :=
  [ Sleep 10000; SetGenState (tick (nextIndex messageIndex) s); GetVideosOperation r ].

(** The job state set on submission and the one set on success. *)
Definition submitted : GenerationState :=
  mkGen true (nth 0 LOADING_MESSAGES []) 0 None None.

Definition succeeded (videoUrl : jsstring) : GenerationState :=
  mkGen false (lit "Generation complete!") 100 (Some videoUrl) None.

(** The effects of the [catch] block: the error is logged; then, unless
    the block throws, the key is reset if the signature is found, and the
    failed state is set. *)
Definition catchEffects (e : JsError) : list effect :=
  ConsoleError e ::
  match e with
  | ThrownNullish => []
  | Thrown message =>
      match includesSignature message with
      | Some found =>
          (if found then [OnResetKey] else []) ++ [SetGenState (failedState message)]
      | None => []
      end
  end.

(** The URL the asset is fetched from. *)
Definition assetUrl (i : JobInputs) (downloadLink : jsstring) : jsstring :=
  downloadLink ++ lit "&key=" ++ API_KEY i.

(** Whether a log has shown the run a completed handle with an asset, and
    whether a log sets progress 100 only once it has: [seen] tells whether
    such a handle was shown before the log starts. *)
Definition sawAsset (log : list effect) : bool :=
  existsb completedWithAsset (observed log).

Fixpoint fullOnlyAfterAsset (seen : bool) (log : list effect) : bool :=
  match log with
  | [] => true
  | ev :: log' =>
      (match ev with
       | SetGenState g => if progress g =? 100 then seen else true
       | _ => true
       end)
      && fullOnlyAfterAsset (seen || sawAsset [ev]) log'
  end.

(** *** The runs of [generateVideo], by shape

    The effects of the polling part of a run, from the submitted state:
    the states it sets climb without passing 95, are all of a job in flight
    with neither video nor error, [sp] is the last of them, and
    [onResetKey] is not called. *)
Definition PollingLog (lp : list effect) (sp : GenerationState) : Prop :=
  Sorted Z.le (List.map progress (submitted :: states lp)) /\
  Forall (fun g => isGenerating g = true /\ videoUrl g = None /\
                   error g = None /\ progress g <= 95) (states lp) /\
  sp = last (states lp) submitted /\
  resets lp = 0%nat.

Definition notDone (op : VideoOperation) : Prop := done op = false.

(** The polling part ended on the handle [op']: the submission returned it
    already completed, or the last poll did after handles that were not. *)
Definition CompletedOn (op0 : VideoOperation) (lp : list effect) (op' : VideoOperation) : Prop :=
  done op' = true /\
  ((lp = [] /\ op' = op0) \/
   (done op0 = false /\
    exists pre, lp = pre ++ [GetVideosOperation (Some (Returns op'))] /\
                Forall notDone (observed pre))).

Inductive JobRun (w : World) (i : JobInputs) (start : jsstring) :
    outcome unit * GenerationState * list effect -> Prop :=
| SubmissionFails e :
    generateVideos_reply w (buildRequest i start) = Throws e ->
    JobRun w i start
      (catchOutcome e, catchState e submitted,
       SetGenState submitted ::
       GenerateVideos (buildRequest i start) (Throws e) :: catchEffects e)
| PollFails op0 lp sp e :
    generateVideos_reply w (buildRequest i start) = Returns op0 ->
    PollingLog lp sp ->
    raised lp = [e] -> Forall notDone (op0 :: observed lp) ->
    JobRun w i start
      (catchOutcome e, catchState e sp,
       SetGenState submitted ::
       GenerateVideos (buildRequest i start) (Returns op0) :: lp ++ catchEffects e)
| StillPolling op0 lp sp :
    generateVideos_reply w (buildRequest i start) = Returns op0 ->
    PollingLog lp sp ->
    raised lp = [] -> Forall notDone (op0 :: observed lp) ->
    JobRun w i start
      (Awaiting, sp,
       SetGenState submitted ::
       GenerateVideos (buildRequest i start) (Returns op0) :: lp)
| CompletesWithoutLink op0 lp sp op' :
    generateVideos_reply w (buildRequest i start) = Returns op0 ->
    PollingLog lp sp ->
    raised lp = [] -> CompletedOn op0 lp op' ->
    truthy (uri op') = false ->
    JobRun w i start
      (Done tt, sp,
       SetGenState submitted ::
       GenerateVideos (buildRequest i start) (Returns op0) :: lp)
| FetchFails op0 lp sp op' link e :
    generateVideos_reply w (buildRequest i start) = Returns op0 ->
    PollingLog lp sp ->
    raised lp = [] -> CompletedOn op0 lp op' ->
    uri op' = Some link -> truthy (Some link) = true ->
    fetch_reply w (assetUrl i link) = Throws e ->
    JobRun w i start
      (catchOutcome e, catchState e sp,
       SetGenState submitted ::
       GenerateVideos (buildRequest i start) (Returns op0) ::
       lp ++ Fetch (assetUrl i link) (Throws e) :: catchEffects e)
| Succeeds op0 lp sp op' link url :
    generateVideos_reply w (buildRequest i start) = Returns op0 ->
    PollingLog lp sp ->
    raised lp = [] -> CompletedOn op0 lp op' ->
    uri op' = Some link -> truthy (Some link) = true ->
    fetch_reply w (assetUrl i link) = Returns url ->
    JobRun w i start
      (Done tt, succeeded url,
       SetGenState submitted ::
       GenerateVideos (buildRequest i start) (Returns op0) ::
       lp ++ [Fetch (assetUrl i link) (Returns url); SetGenState (succeeded url)]).

(** *** Sample runs *)

Definition sampleInputs : JobInputs :=
  mkJobInputs (Some (lit "data:image/png;base64,AAAA")) None (lit "Test")
              Res720p Save.Ratio_16_9 (lit "k").

Definition noImageInputs : JobInputs :=
  mkJobInputs None None (lit "Test") Res720p Save.Ratio_16_9 (lit "k").

Definition pendingOp : VideoOperation := mkOp false None.
Definition finishedOp : VideoOperation := mkOp true (Some (lit "https://v/1?alt=media")).
Definition finishedWithoutLink : VideoOperation := mkOp true None.

(** Two polls, the second one finding the video. *)
Definition worldSuccess : World :=
  mkWorld (fun _ => Returns pendingOp)
          [Returns pendingOp; Returns finishedOp]
          (fun _ => Returns (lit "blob:video")).

(** Two polls, the second one finding the operation done with no video. *)
Definition worldWithoutLink : World :=
  mkWorld (fun _ => Returns pendingOp)
          [Returns pendingOp; Returns finishedWithoutLink]
          (fun _ => Returns (lit "blob:video")).

Definition credentialError : JsError :=
  mkError (Some (lit "404 NOT_FOUND: Requested entity was not found.")).

(** The first poll fails on the credential. *)
Definition worldCredentialError : World :=
  mkWorld (fun _ => Returns pendingOp)
          [Throws credentialError]
          (fun _ => Returns (lit "blob:video")).

(** The submission fails with an error whose message is empty. *)
Definition emptyError : JsError := mkError (Some []).

Definition worldEmptyError : World :=
  mkWorld (fun _ => Throws emptyError) [] (fun _ => Returns (lit "blob:video")).

(** The submission is rejected with [null]. *)
Definition worldNullRejection : World :=
  mkWorld (fun _ => Throws ThrownNullish) [] (fun _ => Returns (lit "blob:video")).

(** The first poll fails with an error whose message is a number. *)
Definition numericMessageError : JsError := Thrown (ForeignMessage None).

Definition worldNumericMessage : World :=
  mkWorld (fun _ => Returns pendingOp)
          [Throws numericMessageError]
          (fun _ => Returns (lit "blob:video")).

(** The job state a run leaves, and the effects of the run. *)
Definition stateAfter (w : World) (i : JobInputs) (s : GenerationState) : GenerationState :=
  snd (fst (generateVideo w i s)).

Definition effectsOf (w : World) (i : JobInputs) (s : GenerationState) : list effect :=
  snd (generateVideo w i s).

End Dashboard.

(** ** The frame editor: the events of the user interface *)

Module EditorEvents.

Import Editor.

(** What [handleKeyDown] reads of a [KeyboardEvent]. *)
Record KeyboardEvent := mkKey {
  ctrlKey : bool;
  metaKey : bool;
  shiftKey : bool;
  key : jsstring
}.

(** [handleKeyDown]. *)
Definition handleKeyDown (e : KeyboardEvent) (st : State) : State :=
  if (ctrlKey e || metaKey e) && str_eqb (key e) (lit "z")
  then (if shiftKey e then redo st else undo st)
  else if (ctrlKey e || metaKey e) && str_eqb (key e) (lit "y")
  then redo st
  else st.

(** The nine range inputs of the side panel. *)
Inductive Slider :=
| TiltX | TiltY | Depth
| Brightness | Contrast | Saturation | Hue
| Shake | Vignette.

(** The object literal a slider's [onChange] passes to [updateParams],
    [v] being [parseInt(e.target.value)]. *)
Definition sliderUpdate (sl : Slider) (v : Z) : PartialParams :=
  match sl with
  | TiltX => mkPartial None None None None None None None None (Some v) None None None
  | TiltY => mkPartial None None None None None None None None None (Some v) None None
  | Depth => mkPartial None None None None None None None None None None (Some v) None
  | Brightness => mkPartial (Some v) None None None None None None None None None None None
  | Contrast => mkPartial None (Some v) None None None None None None None None None None
  | Saturation => mkPartial None None (Some v) None None None None None None None None None
  | Hue => mkPartial None None None (Some v) None None None None None None None None
  | Shake => mkPartial None None None None None None None None None None None (Some v)
  | Vignette => mkPartial None None None None (Some v) None None None None None None None
  end.

(** The two filter buttons: [updateParams({ grayscale: !params.grayscale }, true)]
    and its sepia twin. *)
Definition toggleGrayscale (st : State) : State :=
  updateParams
    (mkPartial None None None None None (Some (negb (grayscale (params st))))
               None None None None None None)
    true st.

Definition toggleSepia (st : State) : State :=
  updateParams
    (mkPartial None None None None None None (Some (negb (sepia (params st))))
               None None None None None)
    true st.

(** Everything the user can do to the editor's parameters and history. *)
Inductive Action :=
| ClickUndo
| ClickRedo
| KeyDown (e : KeyboardEvent)
| ClickRotate
| ClickResetView
| PointerDown
| Change (sl : Slider) (v : Z)
| PointerUp
| ClickGrayscale
| ClickSepia.

Definition step (a : Action) (st : State) : State :=
  match a with
  | ClickUndo => undo st
  | ClickRedo => redo st
  | KeyDown e => handleKeyDown e st
  | ClickRotate => handleRotateZ st
  | ClickResetView => resetTransforms st
  | PointerDown => handleSliderStart st
  | Change sl v => sliderChange (sliderUpdate sl v) st
  | PointerUp => handleSliderEnd st
  | ClickGrayscale => toggleGrayscale st
  | ClickSepia => toggleSepia st
  end.

(** The editor after a list of actions, oldest first. *)
Definition run (actions : list Action) (st : State) : State :=
  fold_left (fun s a => step a s) actions st.

(** A snapshot whose planar rotation is one of the four quarter turns. *)
Definition quarterTurn (p : EditorParams) : Prop :=
  In (rotation p) [0; 90; 180; 270].

(** Every snapshot the state holds is on a quarter turn. *)
Definition quarterTurns (st : State) : Prop :=
  Forall quarterTurn (timeline st) /\
  match dragStartParams st with
  | Some start => quarterTurn start
  | None => True
  end.

End EditorEvents.

(** ** The frame editor: camera shake

    One frame of [animateShake]; the two calls of [Math.random] are
    parameters of the frame. *)

Module CameraShake.

Local Open Scope Q_scope.

(** [params.cameraShake / 20]. *)
Definition intensity (cameraShake : Z) : Q := inject_Z cameraShake / 20.

(** [(Math.random() - 0.5) * intensity]. *)
Definition offset (cameraShake : Z) (random : Q) : Q :=
  (random - 0.5) * intensity cameraShake.

(** What the effect of [params.cameraShake] does to the canvas margins (in
    pixels) on a frame: nothing moves at a shake of 0 or less, where the
    margins are reset and no frame is requested. *)
Definition margins (cameraShake : Z) (randomX randomY : Q) : Q * Q :=
  if (cameraShake <=? 0)%Z then (0, 0)
  else (offset cameraShake randomX, offset cameraShake randomY).

(** Whether the effect requests animation frames. *)
Definition animates (cameraShake : Z) : bool := negb (cameraShake <=? 0)%Z.

End CameraShake.

(** ** The frame editor: drawing the export

    What [handleSave] draws on [finalCanvas]: the context is translated to
    the centre of the computed size and rotated by the planar rotation, and
    the preview canvas is drawn with its centre at the origin.  Lengths are
    reals here, the rotation being an angle. *)

From Stdlib Require Qreals.

Module SaveDraw.

Import Save.

Local Open Scope R_scope.

(** The transform of a 2D context after [translate(tx, ty)] and
    [rotate(angle)]. *)
Record Transform := mkTransform { tx : R; ty : R; angle : R }.

(** Where the context puts the point [(u, v)] of its user space. *)
Definition toDevice (t : Transform) (u v : R) : R * R :=
  (tx t + u * cos (angle t) - v * sin (angle t),
   ty t + u * sin (angle t) + v * cos (angle t)).

Record Drawing := mkDrawing {
  target : Canvas;        (* [finalCanvas] *)
  transform : Transform;  (* at the time of [drawImage] *)
  dx : R;                 (* [drawImage(canvas, dx, dy)] *)
  dy : R;
  source : Canvas         (* the preview canvas *)
}.

(** The drawing of [handleSave]. *)
Definition draw (canvas : Canvas) (rotation : Z) (aspectRatio : AspectRatio) : Drawing :=
  let finalWidth := fst (finalSize canvas rotation aspectRatio) in
  let finalHeight := snd (finalSize canvas rotation aspectRatio) in
  {| target := handleSave canvas rotation aspectRatio;
     transform :=
       mkTransform (Q2R finalWidth / 2) (Q2R finalHeight / 2)
                   (IZR rotation * PI / 180);
     dx := - IZR (width canvas) / 2;
     dy := - IZR (height canvas) / 2;
     source := canvas |}.

(** A point of the target that the drawn image covers. *)
Definition painted (d : Drawing) (x y : R) : Prop :=
  exists u v : R,
    dx d <= u <= dx d + IZR (width (source d)) /\
    dy d <= v <= dy d + IZR (height (source d)) /\
    toDevice (transform d) u v = (x, y).

End SaveDraw.

(** ** Reading numbers back out of a text *)

Module Text.

(** A code unit of a printed whole number: the minus sign or a digit. *)
Definition numeric (c : char16) : Prop :=
  c = 45%N \/ (48 <= c <= 57)%N.

(** The tail of the filter string: the two optional filters. *)
Definition optionalFilters (grayscale sepia : bool) : jsstring :=
  (if grayscale then lit " grayscale(100%)" else []) ++
  (if sepia then lit " sepia(100%)" else []).

End Text.

(** ** The dashboard: the Director's Suite *)

Module Director.

Import Dashboard.

(** [prev.includes(id)] on an array of strings. *)
Definition array_includes (xs : list jsstring) (id : jsstring) : bool :=
  existsb (fun a => str_eqb a id) xs.

(** The updater of [toggleAtmosphere(id)]. *)
Definition toggleAtmosphere (id : jsstring) (prev : list jsstring) : list jsstring :=
  if array_includes prev id
  then List.filter (fun a => negb (str_eqb a id)) prev
  else prev ++ [id].

(** The state [suggestParameters] and [applyPreset] write: the inputs of the
    prompt composer, and beside them the active preset, the director's
    vision, the two audio selections and the busy flag. *)
Record Suite := mkSuite {
  inputs : PromptInputs;
  activePreset : jsstring;
  directorVision : option jsstring;
  selectedBgMusicId : jsstring;
  selectedSfxId : jsstring;
  isSuggesting : bool
}.

(** A value [JSON.parse] returns of which properties can be read, as far as
    [suggestParameters] reads it; a key that is absent is [None] (on a
    number, a string or a boolean every key is).  The keys that are present
    hold values of the types the [responseSchema] of the request declares: a
    string, an array of strings for [atmosphere], a number for [speed]. *)
Record Suggestion := mkSuggestion {
  cameraAngle : option jsstring;
  sg_motionType : option jsstring;
  sg_atmosphere : option (list jsstring);
  sg_prompt : option jsstring;
  sg_directorVision : option jsstring;
  suggestedAudio : option jsstring;
  suggestedSfx : option jsstring;
  sg_speed : option Q
}.

(** What [JSON.parse] returns: [null] (the text "null" parses to it), of
    which no property can be read, or any other value. *)
Inductive Parsed :=
| ParsedNull
| ParsedValue (res : Suggestion).

(** The model and the parser during one run of [suggestParameters]: how
    [generateContent] ends, with [response.text] when it returns, and what
    [JSON.parse] makes of a text. *)
Record Analyst := mkAnalyst {
  generateContent_reply : reply (option jsstring);
  JSON_parse : jsstring -> reply Parsed
}.

(** [response.text || '{}']. *)
Definition parseSource (text : option jsstring) : jsstring :=
  match text with
  | Some (c :: t) => c :: t
  | _ => lit "{}"
  end.

(** [if (v) set(v)] for a string. *)
Definition orKeep (v : option jsstring) (old : jsstring) : jsstring :=
  match v with
  | Some (c :: s) => c :: s
  | _ => old
  end.

(** [if (res.speed) setSpeed(res.speed)]: zero is falsy. *)
Definition speedOrKeep (v : option Q) (old : Q) : Q :=
  match v with
  | Some q => if Qeq_bool q 0 then old else q
  | None => old
  end.

(** The setters between [JSON.parse] and the end of the [try] block. *)
Definition applySuggestion (res : Suggestion) (s : Suite) : Suite :=
  let i := inputs s in
  {| inputs :=
       {| prompt := orKeep (sg_prompt res) (prompt i);
          isAdvancedMode := true;
          camAngle := orKeep (cameraAngle res) (camAngle i);
          motionType := orKeep (sg_motionType res) (motionType i);
          atmosphere :=
            match sg_atmosphere res with
            | Some xs => xs
            | None => atmosphere i
            end;
          speed := speedOrKeep (sg_speed res) (speed i);
          motionBlur := motionBlur i;
          stabilization := stabilization i |};
     activePreset := lit "custom";
     directorVision :=
       match sg_directorVision res with
       | Some (c :: v) => Some (c :: v)
       | _ => directorVision s
       end;
     selectedBgMusicId := orKeep (suggestedAudio res) (selectedBgMusicId s);
     selectedSfxId := orKeep (suggestedSfx res) (selectedSfxId s);
     isSuggesting := isSuggesting s |}.

Definition setIsSuggesting (b : bool) (s : Suite) : Suite :=
  mkSuite (inputs s) (activePreset s) (directorVision s)
          (selectedBgMusicId s) (selectedSfxId s) b.

Definition setDirectorVision (v : option jsstring) (s : Suite) : Suite :=
  mkSuite (inputs s) (activePreset s) v
          (selectedBgMusicId s) (selectedSfxId s) (isSuggesting s).

(** The same inputs with the advanced mode set. *)
Definition withAdvancedMode (b : bool) (i : PromptInputs) : PromptInputs :=
  mkPromptInputs (prompt i) b (camAngle i) (motionType i)
                 (atmosphere i) (speed i) (motionBlur i) (stabilization i).

Definition setIsAdvancedMode (b : bool) (s : Suite) : Suite :=
  mkSuite (withAdvancedMode b (inputs s)) (activePreset s) (directorVision s)
          (selectedBgMusicId s) (selectedSfxId s) (isSuggesting s).

(** What a run of [suggestParameters] leaves: the suite, whether the model
    was called, and the error written to the console if there was one. *)
Record Suggested := mkSuggested {
  suite : Suite;
  modelCalled : bool;
  consoleError : option JsError
}.

(** [suggestParameters].  On [null] the first setter after [JSON.parse],
    [setIsAdvancedMode(true)], has run when the read of [res.cameraAngle]
    throws; the [catch] block logs that [TypeError], and the rest of the
    [try] block, [setActivePreset('custom')] included, is skipped. *)
Definition suggestParameters (w : Analyst) (startImage : option jsstring) (s : Suite) : Suggested :=
  if negb (truthy startImage) then mkSuggested s false None
  else
    let s1 := setDirectorVision None (setIsSuggesting true s) in
    let tried :=
      match generateContent_reply w with
      | Throws e => (s1, Some e)
      | Returns text =>
          match JSON_parse w (parseSource text) with
          | Throws e => (s1, Some e)
          | Returns ParsedNull => (setIsAdvancedMode true s1, Some engineTypeError)
          | Returns (ParsedValue res) => (applySuggestion res s1, None)
          end
      end in
    mkSuggested (setIsSuggesting false (fst tried)) true (snd tried).

(** Whether the answer of the model parsed to [null]. *)
Definition parsedNull (w : Analyst) : bool :=
  match generateContent_reply w with
  | Returns text =>
      match JSON_parse w (parseSource text) with
      | Returns ParsedNull => true
      | _ => false
      end
  | Throws _ => false
  end.

(** [applyPreset(preset)], for a preset with the given [id] and [prompt]. *)
Definition applyPreset (id presetPrompt : jsstring) (s : Suite) : Suite :=
  let i := inputs s in
  {| inputs :=
       mkPromptInputs presetPrompt (isAdvancedMode i) (camAngle i) (motionType i)
                      (atmosphere i) (speed i) (motionBlur i) (stabilization i);
     activePreset := id;
     directorVision := None;
     selectedBgMusicId := selectedBgMusicId s;
     selectedSfxId := selectedSfxId s;
     isSuggesting := isSuggesting s |}.

(** The [disabled] attribute of the Generate button. *)
Definition generateDisabled (g : GenerationState) (startImage : option jsstring) : bool :=
  isGenerating g || negb (truthy startImage).

(** Text with nothing but white space in it. *)
Definition blank (s : jsstring) : Prop := forallb is_white_space s = true.

(** What the stabilization and motion-blur clauses say, without the space
    that joins them to what precedes. *)
Definition stabilizationSentence : jsstring :=
  lit "Ensure perfectly stabilized, jitter-free camera movement.".

Definition motionBlurSentence : jsstring :=
  lit "Apply realistic cinematic motion blur.".

End Director.

(** ** The application shell: the selected API key *)

Module App.

(** [window.aistudio], when the host provides it: what
    [hasSelectedApiKey()] resolves to, and whether [openSelectKey()]
    resolves (it may as well reject, or stay pending). *)
Record AiStudio := mkAiStudio {
  hasSelectedApiKey : bool;
  openSelectKey_resolves : bool
}.

(** The state [apiKeySelected]: [null] until the first check. *)
Definition KeyState := option bool.

(** [checkApiKey], run once on mount. *)
Definition checkApiKey (aistudio : option AiStudio) (st : KeyState) : KeyState :=
  match aistudio with
  | Some host => Some (hasSelectedApiKey host)
  | None => Some true
  end.

Definition handleKeySelected (st : KeyState) : KeyState := Some true.

Definition handleResetKey (st : KeyState) : KeyState := Some false.

(** [handleOpenSelect] of the modal, with [onKeySelected] bound to
    [handleKeySelected]. *)
Definition handleOpenSelect (aistudio : option AiStudio) (st : KeyState) : KeyState :=
  match aistudio with
  | Some host => if openSelectKey_resolves host then handleKeySelected st else st
  | None => st
  end.

(** What [App] renders. *)
Inductive View :=
| Initializing
| DashboardView (apiKeyModal : bool).

Definition render (st : KeyState) : View :=
  match st with
  | None => Initializing
  | Some selected => DashboardView (negb selected)
  end.

(** The shell after a run of [generateVideo] in the dashboard, whose
    [onResetKey] is [handleResetKey]. *)
Definition afterJob (log : list Dashboard.effect) (st : KeyState) : KeyState :=
  fold_left
    (fun s ev => match ev with Dashboard.OnResetKey => handleResetKey s | _ => s end)
    log st.

End App.

(** ** The generation job: the order of its effects *)

Module JobLog.

Import Dashboard.

(** The effects of the poll loop from message index [m] and job state [s]:
    turn after turn a wait of ten seconds, the tick of the job state, and
    the poll with its answer. *)
Inductive TickLog : Z -> GenerationState -> list effect -> Prop :=
| TickLog_end m s : TickLog m s []
| TickLog_turn m s r log :
    TickLog (nextIndex m) (tick (nextIndex m) s) log ->
    TickLog m s (tickEffects m s r ++ log).

(** What the [catch] block does with the thrown value [e]: it logs it and
    throws in its turn, when reading the message of [e] throws; or it logs
    it, resets the key if it finds the signature, and sets the failed
    state. *)
Inductive CatchLog (e : JsError) : list effect -> Prop :=
| CatchLog_throws :
    readsSignature e = None ->
    CatchLog e [ConsoleError e]
| CatchLog_fails message found :
    e = Thrown message ->
    includesSignature message = Some found ->
    CatchLog e (ConsoleError e ::
                (if found then [OnResetKey] else []) ++
                [SetGenState (failedState message)]).

(** What a run does once the poll loop is over: nothing, the fetch of the
    asset and the final state, or the [catch] block (after the fetch when it
    is the fetch that failed). *)
Inductive Epilogue : list effect -> Prop :=
| Epilogue_none : Epilogue []
| Epilogue_failed e log : CatchLog e log -> Epilogue log
| Epilogue_fetched url videoUrl :
    Epilogue [Fetch url (Returns videoUrl); SetGenState (succeeded videoUrl)]
| Epilogue_fetch_failed url e log :
    CatchLog e log -> Epilogue (Fetch url (Throws e) :: log).

(** The first image of a data URL: what stands before the comma and what
    stands after it. *)
Definition dataUrl (header payload : jsstring) : jsstring :=
  header ++ lit "," ++ payload.

Definition commaFree (s : jsstring) : Prop := ~ In 44%N s.

End JobLog.

(** ** The frame editor: the two history buttons *)

Module EditorButtons.

Import Editor.

(** [disabled={history.length === 0}] and [disabled={future.length === 0}]. *)
Definition undoDisabled (st : State) : bool := (List.length (history st) =? 0)%nat.

Definition redoDisabled (st : State) : bool := (List.length (future st) =? 0)%nat.

End EditorButtons.

(** * Properties *)

(** ** History: undo, redo and commits *)

Section History.

Import Editor.

Lemma app_same_length {A} (l1 l2 r1 r2 : list A) :
  l1 ++ r1 = l2 ++ r2 -> List.length l1 = List.length l2 -> l1 = l2 /\ r1 = r2.
Proof.
  revert l2; induction l1 as [|a l1 IH]; intros [|b l2]; simpl; try discriminate.
  - auto.
  - intros E L. injection E as -> E. injection L as L.
    destruct (IH _ E L) as [-> ->]. auto.
Qed.

Lemma state_from_timeline (s t : State) :
  timeline s = timeline t ->
  cursor s = cursor t ->
  isDragging s = isDragging t ->
  dragStartParams s = dragStartParams t ->
  s = t.
Proof.
  destruct s as [p h f b d], t as [p' h' f' b' d'].
  unfold timeline, cursor; simpl.
  intros Ht Hc -> ->.
  destruct (app_same_length _ _ _ _ Ht Hc) as [-> E].
  now injection E as -> ->.
Qed.

(** Undo on a non-empty stack, redo on a non-empty stack, spelled out. *)
Lemma undo_snoc p h x f b d :
  undo (mkState p (h ++ [x]) f b d) = mkState x h (p :: f) b d.
Proof.
  unfold undo; simpl.
  rewrite length_app; simpl.
  replace (List.length h + 1)%nat with (S (List.length h)) by lia; simpl.
  rewrite Nat.sub_0_r, nth_error_app2 by lia.
  rewrite Nat.sub_diag; simpl.
  unfold setParams, setHistory, setFuture, slice_0_m1; simpl.
  now rewrite removelast_last.
Qed.

Lemma undo_nil p f b d :
  undo (mkState p [] f b d) = mkState p [] f b d.
Proof. reflexivity. Qed.

Lemma redo_cons p h x f b d :
  redo (mkState p h (x :: f) b d) = mkState x (h ++ [p]) f b d.
Proof. reflexivity. Qed.

Lemma redo_nil p h b d :
  redo (mkState p h [] b d) = mkState p h [] b d.
Proof. reflexivity. Qed.

Lemma snoc_cases {A} (l : list A) :
  l = [] \/ exists h x, l = h ++ [x].
Proof.
  destruct l as [|a l]; [now left | right].
  destruct (@exists_last _ (a :: l)) as (h & x & E); [discriminate|].
  now exists h, x.
Qed.

(** An undo or a redo moves the cursor and leaves the timeline alone. *)
Lemma undo_timeline st : timeline (undo st) = timeline st.
Proof.
  destruct st as [p h f b d].
  destruct (snoc_cases h) as [-> | (h' & x & ->)]; [reflexivity|].
  rewrite undo_snoc; unfold timeline; simpl.
  now rewrite <- app_assoc.
Qed.

Lemma undo_cursor st : cursor (undo st) = pred (cursor st).
Proof.
  destruct st as [p h f b d].
  destruct (snoc_cases h) as [-> | (h' & x & ->)]; [reflexivity|].
  rewrite undo_snoc; unfold cursor; simpl.
  rewrite length_app; simpl; lia.
Qed.

Lemma undo_drag st :
  isDragging (undo st) = isDragging st /\
  dragStartParams (undo st) = dragStartParams st.
Proof.
  destruct st as [p h f b d].
  destruct (snoc_cases h) as [-> | (h' & x & ->)]; [now split|].
  now rewrite undo_snoc.
Qed.

Lemma redo_timeline st : timeline (redo st) = timeline st.
Proof.
  destruct st as [p h [|x f] b d]; [reflexivity|].
  rewrite redo_cons; unfold timeline; simpl.
  now rewrite <- app_assoc.
Qed.

Lemma redo_cursor st :
  cursor (redo st) = (cursor st + Nat.min 1 (List.length (future st)))%nat.
Proof.
  destruct st as [p h [|x f] b d]; unfold cursor; simpl; [lia|].
  rewrite length_app; simpl; lia.
Qed.

Lemma redo_future_length st :
  List.length (future (redo st)) = pred (List.length (future st)).
Proof. now destruct st as [p h [|x f] b d]. Qed.

Lemma redo_drag st :
  isDragging (redo st) = isDragging st /\
  dragStartParams (redo st) = dragStartParams st.
Proof. now destruct st as [p h [|x f] b d]. Qed.

Lemma iter_undo_timeline k st : timeline (Nat.iter k undo st) = timeline st.
Proof. induction k; simpl; [reflexivity|]. now rewrite undo_timeline. Qed.

Lemma iter_undo_cursor k st : cursor (Nat.iter k undo st) = (cursor st - k)%nat.
Proof. induction k; simpl; [lia|]. rewrite undo_cursor, IHk. lia. Qed.

Lemma iter_undo_drag k st :
  isDragging (Nat.iter k undo st) = isDragging st /\
  dragStartParams (Nat.iter k undo st) = dragStartParams st.
Proof.
  induction k; simpl; [now split|].
  destruct (undo_drag (Nat.iter k undo st)) as [-> ->]. exact IHk.
Qed.

Lemma iter_redo_timeline k st : timeline (Nat.iter k redo st) = timeline st.
Proof. induction k; simpl; [reflexivity|]. now rewrite redo_timeline. Qed.

Lemma iter_redo_future_length k st :
  List.length (future (Nat.iter k redo st)) = (List.length (future st) - k)%nat.
Proof. induction k; simpl; [lia|]. rewrite redo_future_length, IHk. lia. Qed.

Lemma iter_redo_cursor k st :
  cursor (Nat.iter k redo st) = (cursor st + Nat.min k (List.length (future st)))%nat.
Proof.
  induction k; simpl Nat.iter; [lia|].
  rewrite redo_cursor, IHk, iter_redo_future_length. lia.
Qed.

Lemma iter_redo_drag k st :
  isDragging (Nat.iter k redo st) = isDragging st /\
  dragStartParams (Nat.iter k redo st) = dragStartParams st.
Proof.
  induction k; simpl; [now split|].
  destruct (redo_drag (Nat.iter k redo st)) as [-> ->]. exact IHk.
Qed.

(** The length of the timeline ties the redo stack to the cursor. *)
Lemma timeline_length st :
  List.length (timeline st) = S (cursor st + List.length (future st)).
Proof. unfold timeline, cursor. rewrite length_app; simpl; lia. Qed.

(** Committed edits grow the undo stack by one each, keep the oldest
    snapshot where it is and leave no redo stack. *)
Lemma commitAll_cursor edits st :
  cursor (commitAll edits st) = (cursor st + List.length edits)%nat.
Proof.
  unfold commitAll. revert st; induction edits as [|e edits IH]; intro st; simpl; [lia|].
  rewrite IH. unfold cursor, updateParams; simpl. rewrite length_app; simpl; lia.
Qed.

Lemma commitAll_future edits st :
  future st = [] -> future (commitAll edits st) = [].
Proof.
  unfold commitAll. revert st; induction edits as [|e edits IH]; intros st H; simpl; [exact H|].
  now apply IH.
Qed.

Lemma commitAll_oldest edits st d :
  hd d (timeline (commitAll edits st)) = hd d (timeline st).
Proof.
  unfold commitAll. revert st; induction edits as [|e edits IH]; intro st; simpl; [reflexivity|].
  rewrite IH. unfold timeline, updateParams; simpl.
  now destruct (history st).
Qed.

Lemma commitAll_drag edits st :
  isDragging (commitAll edits st) = isDragging st /\
  dragStartParams (commitAll edits st) = dragStartParams st.
Proof.
  unfold commitAll. revert st; induction edits as [|e edits IH]; intro st; simpl; [now split|].
  destruct (IH (updateParams e true st)) as [-> ->]. now split.
Qed.

(** The rotate button keeps the rotation on the four quarter turns. *)
Lemma handleRotateZ_quarter_turns (st : State) :
  In (rotation (params st)) [0; 90; 180; 270] ->
  In (rotation (params (handleRotateZ st))) [0; 90; 180; 270].
Proof.
  unfold handleRotateZ, updateParams; cbn.
  intros [<- | [<- | [<- | [<- | []]]]]; cbn; auto.
Qed.

(** C1. From the initial state with the default parameters, after any [n]
    committed edits, [n] undos bring the default snapshot back as the live
    parameters (with the undo stack emptied and the [n] later snapshots on the
    redo stack), and [n] redos after them restore the state the last edit
    had left, stacks included.  On an empty undo stack [undo] returns the
    state it was given, and so does [redo] on an empty redo stack. *)
Theorem undo_redo_round_trip :
  forall edits : list PartialParams,
    let n := List.length edits in
    let st := commitAll edits initialState in
    (params (Nat.iter n undo st) = defaultParams /\
     history (Nat.iter n undo st) = [] /\
     List.length (future (Nat.iter n undo st)) = n) /\
    Nat.iter n redo (Nat.iter n undo st) = st /\
    (forall p f b d, undo (mkState p [] f b d) = mkState p [] f b d) /\
    (forall p h b d, redo (mkState p h [] b d) = mkState p h [] b d).
Proof.
  intros edits n st.
  assert (Hc : cursor st = n)
    by (unfold st; now rewrite commitAll_cursor).
  assert (Hf : future st = [])
    by (unfold st; now apply commitAll_future).
  set (u := Nat.iter n undo st).
  assert (Hu : history u = []).
  { apply length_zero_iff_nil. change (cursor u = 0%nat).
    unfold u; rewrite iter_undo_cursor; lia. }
  assert (Hul : List.length (future u) = n).
  { pose proof (timeline_length u) as L.
    unfold u in L at 1; rewrite iter_undo_timeline, timeline_length in L.
    rewrite Hf in L; simpl in L.
    unfold cursor in L at 2; rewrite Hu in L; simpl in L. lia. }
  repeat split.
  - transitivity (hd defaultParams (timeline u)).
    + unfold timeline; now rewrite Hu.
    + unfold u; rewrite iter_undo_timeline.
      unfold st; now rewrite commitAll_oldest.
  - exact Hu.
  - exact Hul.
  - apply state_from_timeline.
    + now rewrite iter_redo_timeline; unfold u; rewrite iter_undo_timeline.
    + rewrite iter_redo_cursor, Hul. unfold cursor at 1; rewrite Hu; simpl. lia.
    + destruct (iter_redo_drag n u) as [-> _]. unfold u.
      now destruct (iter_undo_drag n st) as [-> _].
    + destruct (iter_redo_drag n u) as [_ ->]. unfold u.
      now destruct (iter_undo_drag n st) as [_ ->].
Qed.

(** The object spread gives each key the partial's value when the partial
    holds the key, and the previous value otherwise. *)
Lemma merge_Merged (prev : EditorParams) (newParams : PartialParams) :
  Merged prev newParams (merge prev newParams).
Proof.
  unfold Merged, keyAfter, merge, over; cbn.
  repeat split;
    match goal with
    | |- match ?update with _ => _ end => destruct update; reflexivity
    end.
Qed.

(** The parameters that satisfy [Merged] are determined by it. *)
Lemma Merged_unique (prev : EditorParams) (newParams : PartialParams)
    (a b : EditorParams) :
  Merged prev newParams a -> Merged prev newParams b -> a = b.
Proof.
  unfold Merged, keyAfter.
  destruct a, b; cbn.
  intros (A1 & A2 & A3 & A4 & A5 & A6 & A7 & A8 & A9 & A10 & A11 & A12)
         (B1 & B2 & B3 & B4 & B5 & B6 & B7 & B8 & B9 & B10 & B11 & B12).
  f_equal.
  - destruct (p_brightness newParams); congruence.
  - destruct (p_contrast newParams); congruence.
  - destruct (p_saturation newParams); congruence.
  - destruct (p_hue newParams); congruence.
  - destruct (p_vignette newParams); congruence.
  - destruct (p_grayscale newParams); congruence.
  - destruct (p_sepia newParams); congruence.
  - destruct (p_rotation newParams); congruence.
  - destruct (p_rotateX newParams); congruence.
  - destruct (p_rotateY newParams); congruence.
  - destruct (p_perspective newParams); congruence.
  - destruct (p_cameraShake newParams); congruence.
Qed.

(** C3. A committing update appends the live snapshot, as it was before the
    merge, to the undo stack, empties the redo stack and merges the partial
    into the live parameters; an update that does not commit merges the
    partial and keeps both stacks.  Merging is meant key by key: in the new
    live parameters a key the partial holds has the partial's value and
    every other key has the value it had; so the empty partial changes no
    key.  Neither update touches the drag flag or the snapshot taken at the
    start of a drag.  In particular a commit made after any number of undos
    leaves nothing to redo. *)
Theorem updateParams_contract :
  forall (st : State) (newParams : PartialParams),
    (params (updateParams newParams true st) = merge (params st) newParams /\
     history (updateParams newParams true st) = history st ++ [params st] /\
     future (updateParams newParams true st) = []) /\
    (params (updateParams newParams false st) = merge (params st) newParams /\
     history (updateParams newParams false st) = history st /\
     future (updateParams newParams false st) = future st) /\
    (forall k : nat,
        future (updateParams newParams true (Nat.iter k undo st)) = []) /\
    (forall commit : bool,
        Merged (params st) newParams (params (updateParams newParams commit st)) /\
        (forall after : EditorParams,
            Merged (params st) newParams after ->
            params (updateParams newParams commit st) = after) /\
        params (updateParams noChange commit st) = params st /\
        isDragging (updateParams newParams commit st) = isDragging st /\
        dragStartParams (updateParams newParams commit st) = dragStartParams st).
Proof.
  intros st newParams.
  assert (P : forall commit np,
             params (updateParams np commit st) = merge (params st) np)
    by (now intros [|] np).
  split; [now repeat split|]. split; [now repeat split|].
  split; [reflexivity|].
  intro commit. rewrite !P.
  split; [apply merge_Merged|]. split.
  - intros after M. exact (Merged_unique _ _ _ _ (merge_Merged _ _) M).
  - split; [now destruct (params st)|].
    now destruct commit.
Qed.

(** Raising the brightness of the default parameters to 150 with a commit:
    the brightness is 150, the contrast keeps its 100, and the default
    parameters are the one snapshot to undo to. *)
Lemma updateParams_contract_witness :
  let partial := mkPartial (Some 150%Z) None None None None None None None None
                           None None None in
  brightness (params (updateParams partial true initialState)) = 150%Z /\
  contrast (params (updateParams partial true initialState)) = 100%Z /\
  history (updateParams partial true initialState) = [defaultParams].
Proof.
  intro partial.
  destruct (updateParams_contract initialState partial)
    as ((_ & H & _) & _ & _ & M).
  destruct (M true) as ((B & C & _) & _).
  split; [exact B | split; [exact C | exact H]].
Defined.

End History.

(** ** Drag sessions *)

Section Stringify.

Import Editor.

Lemma lit_inj (a b : string) : lit a = lit b -> a = b.
Proof.
  unfold lit. intro H.
  rewrite <- (string_of_list_ascii_of_string a), <- (string_of_list_ascii_of_string b).
  f_equal.
  revert H. generalize (list_ascii_of_string a) (list_ascii_of_string b).
  induction l as [|x l IH]; intros [|y l']; simpl; try discriminate; [reflexivity|].
  intros [= Hxy Hl]. f_equal; [|now apply IH].
  now rewrite <- (ascii_N_embedding x), <- (ascii_N_embedding y), Hxy.
Qed.

Lemma Number_toString_inj (a b : Z) :
  Number_toString a = Number_toString b -> a = b.
Proof.
  unfold Number_toString. intro H. apply lit_inj in H.
  assert (nn : forall z, Z.to_int z <> Decimal.Pos Decimal.Nil /\
                         Z.to_int z <> Decimal.Neg Decimal.Nil).
  { intros [|p|p]; simpl; split; try discriminate;
      intros [= E]; now apply (DecimalPos.Unsigned.to_uint_nonnil p). }
  apply DecimalZ.to_int_inj.
  assert (E : Some (Z.to_int a) = Some (Z.to_int b)).
  { rewrite <- (NilZero.isi (Z.to_int a)), <- (NilZero.isi (Z.to_int b));
      try apply nn. now rewrite H. }
  now injection E.
Qed.

Lemma Boolean_toString_inj (a b : bool) :
  Boolean_toString a = Boolean_toString b -> a = b.
Proof. destruct a, b; simpl; intro H; try reflexivity; discriminate. Qed.

Lemma digits_inside (d : Decimal.uint) :
  Forall inside_value (lit (NilEmpty.string_of_uint d)).
Proof.
  induction d; simpl; constructor; try assumption; split; discriminate.
Qed.

Lemma Number_toString_inside (z : Z) : Forall inside_value (Number_toString z).
Proof.
  unfold Number_toString.
  assert (U : forall d, Forall inside_value (lit (NilZero.string_of_uint d))).
  { intros d. destruct d; try apply digits_inside.
    repeat constructor; discriminate. }
  destruct (Z.to_int z); simpl; [apply U|].
  constructor; [split; discriminate | apply U].
Qed.

Lemma Boolean_toString_inside (b : bool) : Forall inside_value (Boolean_toString b).
Proof. destruct b; repeat constructor; discriminate. Qed.

(** Two texts that agree, each a value followed by the same terminator,
    agree on the value and on what follows. *)
Lemma split_at_terminator (c : char16) (a a' r r' : jsstring) :
  Forall (fun x => x <> c) a -> Forall (fun x => x <> c) a' ->
  a ++ c :: r = a' ++ c :: r' -> a = a' /\ r = r'.
Proof.
  intros Ha. revert a'. induction Ha as [|x a Hx Ha IH]; intros a' Ha' E.
  - destruct Ha' as [|y a' Hy _]; simpl in E.
    + now injection E.
    + injection E as E _. now destruct Hy.
  - destruct Ha' as [|y a' Hy Ha']; simpl in E.
    + injection E as E _. now destruct Hx.
    + injection E as -> E. destruct (IH _ Ha' E) as [-> ->]. now split.
Qed.

Lemma inside_not_comma a : Forall inside_value a -> Forall (fun x => x <> 44%N) a.
Proof. apply Forall_impl. now intros c [H _]. Qed.

Lemma inside_not_brace a : Forall inside_value a -> Forall (fun x => x <> 125%N) a.
Proof. apply Forall_impl. now intros c [_ H]. Qed.

Lemma number_member (a b : Z) (r r' : jsstring) :
  Number_toString a ++ lit "," ++ r = Number_toString b ++ lit "," ++ r' ->
  a = b /\ r = r'.
Proof.
  intro E. apply (split_at_terminator 44%N) in E;
    try (apply inside_not_comma, Number_toString_inside).
  destruct E as [E ->]. split; [now apply Number_toString_inj | reflexivity].
Qed.

Lemma boolean_member (a b : bool) (r r' : jsstring) :
  Boolean_toString a ++ lit "," ++ r = Boolean_toString b ++ lit "," ++ r' ->
  a = b /\ r = r'.
Proof.
  intro E. apply (split_at_terminator 44%N) in E;
    try (apply inside_not_comma, Boolean_toString_inside).
  destruct E as [E ->]. split; [now apply Boolean_toString_inj | reflexivity].
Qed.

Lemma number_last_member (a b : Z) :
  Number_toString a ++ lit "}" = Number_toString b ++ lit "}" -> a = b.
Proof.
  intro E. apply (split_at_terminator 125%N) in E;
    try (apply inside_not_brace, Number_toString_inside).
  now apply Number_toString_inj.
Qed.

Ltac next_number E :=
  apply app_inv_head in E; apply number_member in E;
  let e := fresh "e" in destruct E as [e E].

Ltac next_boolean E :=
  apply app_inv_head in E; apply boolean_member in E;
  let e := fresh "e" in destruct E as [e E].

(** Comparing the [JSON.stringify] texts of two snapshots compares the
    snapshots. *)
Lemma JSON_stringify_inj (p q : EditorParams) :
  JSON_stringify p = JSON_stringify q -> p = q.
Proof.
  destruct p, q; unfold JSON_stringify.
  cbn [brightness contrast saturation hue vignette grayscale sepia rotation
       rotateX rotateY perspective cameraShake].
  intro E.
  apply app_inv_head in E.
  do 5 next_number E. do 2 next_boolean E. do 4 next_number E.
  apply app_inv_head in E. apply number_last_member in E.
  congruence.
Qed.

End Stringify.

Section Drag.

Import Editor.

Lemma hasChanged_spec (a b : EditorParams) :
  negb (str_eqb (JSON_stringify a) (JSON_stringify b)) =
  if params_eq_dec a b then false else true.
Proof.
  unfold str_eqb.
  destruct (jsstring_eq_dec (JSON_stringify a) (JSON_stringify b)) as [E|N];
    destruct (params_eq_dec a b) as [E'|N']; simpl; try reflexivity.
  - now apply JSON_stringify_inj in E.
  - now subst.
Qed.

(** Slider changes touch the live parameters only. *)
Lemma sliderChanges_state (changes : list PartialParams) (s : State) :
  fold_left (fun s c => sliderChange c s) changes s =
  mkState (mergeAll changes (params s)) (history s) (future s)
          (isDragging s) (dragStartParams s).
Proof.
  unfold mergeAll.
  revert s; induction changes as [|c changes IH]; intro s; simpl.
  - now destruct s.
  - now rewrite IH.
Qed.

(** Pointer up after a pointer down that recorded [start]. *)
Lemma handleSliderEnd_started p h f b start :
  handleSliderEnd (mkState p h f b (Some start)) =
  if params_eq_dec start p
  then mkState p h f false (Some start)
  else mkState p (h ++ [start]) [] false (Some start).
Proof.
  unfold handleSliderEnd.
  cbn [dragStartParams params].
  rewrite hasChanged_spec.
  now destruct (params_eq_dec start p).
Qed.

(** C4. In a drag session (pointer down, any number of slider changes,
    pointer up) the stacks are, after every one of the changes, those the
    session started with.  The pointer-up handler then compares the snapshot
    taken at pointer down with the live parameters: when they differ it
    appends that one snapshot to the undo stack and empties the redo stack,
    and when they are equal it leaves both stacks as they were; it never
    touches the live parameters. *)
Theorem drag_session_single_commit :
  forall (st : State) (changes : list PartialParams),
    (forall k : nat,
        let during :=
          fold_left (fun s c => sliderChange c s) (firstn k changes) (handleSliderStart st) in
        history during = history st /\ future during = future st) /\
    let final := dragSession changes st in
    let moved := mergeAll changes (params st) in
    params final = moved /\
    history final =
      (if params_eq_dec (params st) moved then history st else history st ++ [params st]) /\
    future final =
      (if params_eq_dec (params st) moved then future st else []).
Proof.
  intros st changes. split.
  - intros k during. unfold during. now rewrite sliderChanges_state.
  - unfold dragSession. rewrite sliderChanges_state.
    cbn [handleSliderStart setDragStart setIsDragging params history future
         isDragging dragStartParams].
    rewrite handleSliderEnd_started.
    now destruct (params_eq_dec (params st) (mergeAll changes (params st))).
Qed.

End Drag.

(** ** Export sizing *)

Section ExportSizing.

Import Save.

Local Open Scope Z_scope.

Lemma truncate_inject (z : Z) : truncate (inject_Z z) = z.
Proof. unfold truncate; simpl. apply Z.quot_1_r. Qed.

Lemma truncate_scaled (a b c : Z) :
  0 <= a -> 0 <= b -> 0 < c ->
  truncate ((inject_Z a * inject_Z b) / inject_Z c) = a * b / c.
Proof.
  intros Ha Hb Hc. unfold truncate.
  destruct c as [|c|c]; try lia.
  cbn. rewrite Z.mul_1_r.
  apply Z.quot_div_nonneg; nia.
Qed.

(** On the four rotations the editor produces, the parity test of
    [handleSave] singles out the quarter turn and the three-quarter turn. *)
Lemma isVertical_quarter_turns (rotation : Z) :
  In rotation [0; 90; 180; 270] ->
  isVertical rotation = orb (rotation =? 90) (rotation =? 270).
Proof.
  simpl. intros [<- | [<- | [<- | [<- | []]]]]; vm_compute; reflexivity.
Qed.

Lemma ratios_whole (a : AspectRatio) :
  ratios a = (inject_Z (wRatioOf a), inject_Z (hRatioOf a)).
Proof. now destruct a. Qed.

Lemma ratio_terms_positive (a : AspectRatio) :
  0 < wRatioOf a <= 16 /\ 0 < hRatioOf a <= 16.
Proof. destruct a; simpl; lia. Qed.

(** The fitting step on whole numbers: what [finalSize] amounts to. *)
Lemma handleSave_whole (canvas : Canvas) (rotation : Z) (a : AspectRatio) :
  0 < width canvas -> 0 < height canvas ->
  In rotation [0; 90; 180; 270] ->
  let bw := rotatedWidth canvas rotation in
  let bh := rotatedHeight canvas rotation in
  handleSave canvas rotation a =
    if bh * wRatioOf a <? bw * hRatioOf a
    then mkCanvas (bh * wRatioOf a / hRatioOf a) bh
    else mkCanvas bw (bw * hRatioOf a / wRatioOf a).
Proof.
  intros Hw Hh Hr bw bh.
  assert (Hbw : 0 < bw) by (unfold bw, rotatedWidth; destruct (_ || _); assumption).
  assert (Hbh : 0 < bh) by (unfold bh, rotatedHeight; destruct (_ || _); assumption).
  destruct (ratio_terms_positive a) as [HwR HhR].
  unfold handleSave, finalSize, baseW, baseH.
  rewrite ratios_whole, (isVertical_quarter_turns _ Hr).
  fold (rotatedWidth canvas rotation) (rotatedHeight canvas rotation).
  fold bw bh.
  destruct (Qlt_le_dec _ _) as [L | L].
  - assert (L' : bh * wRatioOf a < bw * hRatioOf a).
    { revert L. unfold Qlt, Qdiv, Qmult, Qinv; simpl.
      destruct (wRatioOf a) as [|q|q] eqn:E; try lia; simpl. nia. }
    apply Z.ltb_lt in L'; rewrite L'.
    rewrite truncate_scaled, truncate_inject by lia. reflexivity.
  - assert (L' : ~ bh * wRatioOf a < bw * hRatioOf a).
    { revert L. unfold Qle, Qdiv, Qmult, Qinv; simpl.
      destruct (wRatioOf a) as [|q|q] eqn:E; try lia; simpl. nia. }
    apply Z.ltb_nlt in L'; rewrite L'.
    rewrite truncate_scaled, truncate_inject by lia. reflexivity.
Qed.

(** The numbers of the fitting step are in the requested ratio exactly. *)
Lemma finalSize_exact_ratio (canvas : Canvas) (rotation : Z) (a : AspectRatio) :
  (fst (finalSize canvas rotation a) * inject_Z (hRatioOf a) ==
   snd (finalSize canvas rotation a) * inject_Z (wRatioOf a))%Q.
Proof.
  unfold finalSize.
  destruct a; cbn [ratios wRatioOf hRatioOf];
    destruct (Qlt_le_dec _ _); cbn [fst snd]; field.
Qed.

(** C2. For a source of positive width and height, each of the four
    rotations and both aspect ratios: the numbers the fitting step computes
    are exactly in the requested ratio; the exported raster has their
    integral parts as its sides, so that its sides are in the requested ratio
    up to the rounding of one side to a whole pixel
    ([|width * hRatio - height * wRatio| < max wRatio hRatio]); neither side
    exceeds the matching side of the source as the rotation presents it; and
    the width is the source's unless the height so obtained would exceed the
    source's, in which case the height is the source's. *)
Theorem export_fits_inside :
  forall (canvas : Canvas) (rotation : Z) (a : AspectRatio),
    0 < width canvas -> 0 < height canvas ->
    In rotation [0; 90; 180; 270] ->
    let out := handleSave canvas rotation a in
    let bw := rotatedWidth canvas rotation in
    let bh := rotatedHeight canvas rotation in
    let wR := wRatioOf a in
    let hR := hRatioOf a in
    (fst (finalSize canvas rotation a) * inject_Z hR ==
     snd (finalSize canvas rotation a) * inject_Z wR)%Q /\
    width out = truncate (fst (finalSize canvas rotation a)) /\
    height out = truncate (snd (finalSize canvas rotation a)) /\
    Z.abs (width out * hR - height out * wR) < Z.max wR hR /\
    0 <= width out <= bw /\
    0 <= height out <= bh /\
    (if Qle_bool (inject_Z bw * inject_Z hR / inject_Z wR) (inject_Z bh)
     then width out = bw
     else height out = bh /\ width out < bw).
Proof.
  intros canvas rotation a Hw Hh Hr out bw bh wR hR.
  assert (Hbw : 0 < bw) by (unfold bw, rotatedWidth; destruct (_ || _); assumption).
  assert (Hbh : 0 < bh) by (unfold bh, rotatedHeight; destruct (_ || _); assumption).
  destruct (ratio_terms_positive a) as [HwR HhR]. fold wR hR in HwR, HhR.
  split; [apply finalSize_exact_ratio|].
  split; [unfold out, handleSave; now destruct (finalSize canvas rotation a)|].
  split; [unfold out, handleSave; now destruct (finalSize canvas rotation a)|].
  assert (Hfit : Qle_bool (inject_Z bw * inject_Z hR / inject_Z wR) (inject_Z bh)
                 = negb (bh * wR <? bw * hR)).
  { unfold Qle_bool, Qdiv, Qmult, Qinv; simpl.
    destruct wR as [|q|q] eqn:E; try lia; simpl.
    destruct (Z.ltb_spec (bh * Z.pos q) (bw * hR)); simpl;
      [apply Z.leb_gt | apply Z.leb_le]; nia. }
  rewrite Hfit.
  unfold out. rewrite (handleSave_whole canvas rotation a Hw Hh Hr).
  fold bw bh wR hR.
  destruct (Z.ltb_spec (bh * wR) (bw * hR)) as [L | L]; cbn [width height negb].
  - pose proof (Z.mul_div_le (bh * wR) hR ltac:(lia)) as D1.
    pose proof (Z.mul_succ_div_gt (bh * wR) hR ltac:(lia)) as D2.
    repeat split; try lia; nia.
  - pose proof (Z.mul_div_le (bw * hR) wR ltac:(lia)) as D1.
    pose proof (Z.mul_succ_div_gt (bw * hR) wR ltac:(lia)) as D2.
    repeat split; try lia; nia.
Qed.

(** A 1920 by 1080 source, turned a quarter, exported at 16:9. *)
Lemma export_fits_inside_witness :
  let canvas := mkCanvas 1920 1080 in
  handleSave canvas 90 Ratio_16_9 = mkCanvas 1080 607 /\
  width (handleSave canvas 90 Ratio_16_9) <= 1080 /\
  height (handleSave canvas 90 Ratio_16_9) <= 1920.
Proof.
  intro canvas.
  pose proof (export_fits_inside canvas 90 Ratio_16_9
                ltac:(reflexivity) ltac:(reflexivity)
                ltac:(simpl; auto)) as H.
  cbv zeta in H.
  destruct H as (_ & _ & _ & _ & [_ Hwd] & [_ Hht] & _).
  split; [reflexivity | split; [exact Hwd | exact Hht]].
Defined.

End ExportSizing.

(** ** Prompt composition *)

Section PromptComposer.

Import Dashboard.

Lemma trimEnd_snoc_space (t : jsstring) (c : char16) :
  is_white_space c = true -> trimEnd (t ++ [c]) = trimEnd t.
Proof.
  intro Hc. unfold trimEnd. rewrite rev_app_distr; simpl. now rewrite Hc.
Qed.

(** White space appended to a text is trimmed away with the rest. *)
Lemma trim_snoc_space (s : jsstring) (c : char16) :
  is_white_space c = true -> trim (s ++ [c]) = trim s.
Proof.
  intro Hc. unfold trim.
  induction s as [|a s IH]; simpl.
  - now rewrite Hc.
  - destruct (is_white_space a); [exact IH|].
    now rewrite app_comm_cons, trimEnd_snoc_space.
Qed.

Lemma speedInstruction_slow (q : Q) :
  (q <= 0.6)%Q -> speedInstruction q = slowClause.
Proof.
  intro H. unfold speedInstruction.
  now apply Qle_bool_iff in H; rewrite H.
Qed.

Lemma speedInstruction_fast (q : Q) :
  (1.4 <= q)%Q -> speedInstruction q = fastClause.
Proof.
  intro H. unfold speedInstruction.
  destruct (Qle_bool q 0.6) eqn:E.
  - apply Qle_bool_iff in E.
    exfalso. apply (Qle_not_lt _ _ (Qle_trans _ _ _ H E)). reflexivity.
  - now apply Qle_bool_iff in H; rewrite H.
Qed.

Lemma speedInstruction_neutral (q : Q) :
  (0.6 < q)%Q -> (q < 1.4)%Q -> speedInstruction q = [].
Proof.
  intros L U. unfold speedInstruction.
  destruct (Qle_bool q 0.6) eqn:E.
  - apply Qle_bool_iff in E. now apply Qle_not_lt in E.
  - destruct (Qle_bool 1.4 q) eqn:F; [|reflexivity].
    apply Qle_bool_iff in F. now apply Qle_not_lt in F.
Qed.

Lemma untrimmedPrompt_parts (i : PromptInputs) :
  untrimmedPrompt i =
  beforeSpeed i ++ lit " " ++ speedInstruction (speed i) ++ afterSpeed i.
Proof.
  unfold untrimmedPrompt, beforeSpeed, afterSpeed.
  destruct (isAdvancedMode i), (motionBlur i), (stabilization i);
    repeat rewrite <- app_assoc; repeat rewrite app_nil_r; reflexivity.
Qed.

(** C5. The text handed to [trim] is the part before the speed clause, a
    space, the speed clause and the part after it, and neither part changes
    with the speed.  The speed clause is the slow one at a speed of at most
    0.6 and at no other, the fast one at a speed of at least 1.4 and at no
    other, and empty strictly between the two.  With advanced mode off, speed
    1.0 and both the motion-blur and the stabilization flags off, the
    composed prompt is the trimmed base text. *)
Theorem enginePrompt_speed_clause :
  forall i : PromptInputs,
    (enginePrompt i =
       trim (beforeSpeed i ++ lit " " ++ speedInstruction (speed i) ++ afterSpeed i) /\
     forall q : Q,
       beforeSpeed (withSpeed q i) = beforeSpeed i /\
       afterSpeed (withSpeed q i) = afterSpeed i) /\
    ((speed i <= 0.6)%Q <-> speedInstruction (speed i) = slowClause) /\
    ((1.4 <= speed i)%Q <-> speedInstruction (speed i) = fastClause) /\
    ((0.6 < speed i)%Q /\ (speed i < 1.4)%Q <-> speedInstruction (speed i) = []) /\
    (isAdvancedMode i = false -> (speed i == 1.0)%Q ->
     motionBlur i = false -> stabilization i = false ->
     enginePrompt i = trim (prompt i)).
Proof.
  intro i.
  assert (ne1 : slowClause <> fastClause) by (vm_compute; discriminate).
  assert (ne2 : slowClause <> []) by (vm_compute; discriminate).
  assert (ne3 : fastClause <> []) by (vm_compute; discriminate).
  assert (cases : ((speed i <= 0.6)%Q /\ speedInstruction (speed i) = slowClause) \/
                  ((1.4 <= speed i)%Q /\ speedInstruction (speed i) = fastClause) \/
                  (((0.6 < speed i)%Q /\ (speed i < 1.4)%Q) /\ speedInstruction (speed i) = [])).
  { destruct (Qlt_le_dec 0.6 (speed i)) as [L|L].
    - destruct (Qlt_le_dec (speed i) 1.4) as [U|U].
      + right; right. split; [now split | now apply speedInstruction_neutral].
      + right; left. split; [assumption | now apply speedInstruction_fast].
    - left. split; [assumption | now apply speedInstruction_slow]. }
  assert (gap : forall q : Q, (q <= 0.6)%Q -> (1.4 <= q)%Q -> False).
  { intros q A B. apply (Qle_not_lt _ _ (Qle_trans _ _ _ B A)). reflexivity. }
  split; [split|].
  - unfold enginePrompt. now rewrite untrimmedPrompt_parts.
  - intro q. split; reflexivity.
  - split; [|split; [|split]].
    + split; [apply speedInstruction_slow|].
      intro E. destruct cases as [[H _] | [[_ H] | [_ H]]]; [assumption | |];
        rewrite E in H; now exfalso.
    + split; [apply speedInstruction_fast|].
      intro E. destruct cases as [[_ H] | [[H _] | [_ H]]]; [|assumption|];
        rewrite E in H; exfalso; [now apply ne1 | now apply ne3].
    + split; [intros [L U]; now apply speedInstruction_neutral|].
      intro E. destruct cases as [[_ H] | [[_ H] | [H _]]]; [| |assumption];
        rewrite E in H; exfalso; [now apply ne2 | now apply ne3].
    + intros Hadv Hs Hblur Hstab.
      unfold enginePrompt. rewrite untrimmedPrompt_parts.
      unfold beforeSpeed, afterSpeed. rewrite Hadv, Hblur, Hstab.
      rewrite speedInstruction_neutral.
      * change (lit " " ++ [] ++ [] ++ []) with [32%N].
        now apply trim_snoc_space.
      * rewrite Hs. reflexivity.
      * rewrite Hs. reflexivity.
Qed.

(** The spec's example: base text "Test", nothing else switched on. *)
Lemma enginePrompt_speed_clause_witness :
  let i := mkPromptInputs (lit "Test") false (lit "wide") (lit "pan") [] 1.0 false false in
  enginePrompt i = lit "Test".
Proof.
  intro i.
  destruct (enginePrompt_speed_clause i) as (_ & _ & _ & _ & H).
  rewrite H; reflexivity.
Defined.

End PromptComposer.

(** ** Live preview *)

Section LivePreview.

Import Editor Preview.

Local Open Scope R_scope.

(** The radius of the vignette is half the diagonal of the image. *)
Lemma outerRadius_half_diagonal (w h : Z) :
  sqrt ((IZR w / 2) ^ 2 + (IZR h / 2) ^ 2) = sqrt (IZR w ^ 2 + IZR h ^ 2) / 2.
Proof.
  replace ((IZR w / 2) ^ 2 + (IZR h / 2) ^ 2)
    with ((IZR w ^ 2 + IZR h ^ 2) / (2 * 2)) by field.
  rewrite sqrt_div_alt by lra.
  now rewrite sqrt_square by lra.
Qed.

(** C9. The filter string of the preview lists, separated by spaces and in
    this order, brightness, contrast, saturate and hue-rotate with the
    snapshot's values, then grayscale when the flag is set, then sepia when
    the flag is set.  There is a vignette overlay exactly when the vignette
    value is not 0; its gradient starts at radius 0 and ends at half the
    image's diagonal, both circles centred on the middle of the image; its
    colour is black for a positive value and white for a negative one; and
    its stops are opacity 0 at offset 0.4 and opacity [|vignette| / 100] at
    offset 1. *)
Theorem preview_filter_chain_and_vignette :
  forall (imgWidth imgHeight : Z) (p : EditorParams),
    let frame := applyChanges imgWidth imgHeight p in
    filter frame =
      join (lit " ")
        ([ filterFunction "brightness" (Number_toString (brightness p) ++ lit "%");
           filterFunction "contrast" (Number_toString (contrast p) ++ lit "%");
           filterFunction "saturate" (Number_toString (saturation p) ++ lit "%");
           filterFunction "hue-rotate" (Number_toString (hue p) ++ lit "deg") ]
         ++ (if grayscale p then [filterFunction "grayscale" (lit "100%")] else [])
         ++ (if sepia p then [filterFunction "sepia" (lit "100%")] else [])) /\
    overlay frame =
      (if (vignette p =? 0)%Z then None
       else
         let colour := if (0 <? vignette p)%Z then black else white in
         Some {| x0 := IZR imgWidth / 2; y0 := IZR imgHeight / 2; r0 := 0;
                 x1 := IZR imgWidth / 2; y1 := IZR imgHeight / 2;
                 r1 := sqrt (IZR imgWidth ^ 2 + IZR imgHeight ^ 2) / 2;
                 stops := [ mkStop (4 / 10) colour 0;
                            mkStop 1 colour (IZR (Z.abs (vignette p)) / 100) ] |}).
Proof.
  intros imgWidth imgHeight p frame. split.
  - unfold frame, applyChanges, filters, filterFunction; cbn [filter].
    generalize (Number_toString (brightness p)) (Number_toString (contrast p))
               (Number_toString (saturation p)) (Number_toString (hue p)).
    intros b c s h.
    destruct (grayscale p), (sepia p); cbn [join app];
      repeat rewrite <- app_assoc; reflexivity.
  - unfold frame, applyChanges; cbn [overlay].
    destruct (vignette p =? 0)%Z; cbn [negb]; [reflexivity|].
    unfold vignetteGradient.
    rewrite outerRadius_half_diagonal.
    rewrite Z.gtb_ltb.
    replace 0.4 with (4 / 10) by lra.
    reflexivity.
Qed.

End LivePreview.

(** ** The generation job *)

Section GenerationJob.

Import Dashboard.

Local Open Scope Z_scope.

(** *** Logs *)

Lemma states_app l1 l2 : states (l1 ++ l2) = states l1 ++ states l2.
Proof. induction l1 as [|[] l1 IH]; simpl; congruence. Qed.

Lemma observed_app l1 l2 : observed (l1 ++ l2) = observed l1 ++ observed l2.
Proof.
  induction l1 as [|ev l1 IH]; simpl; [reflexivity|].
  destruct (observes ev); simpl; congruence.
Qed.

Lemma raised_app l1 l2 : raised (l1 ++ l2) = raised l1 ++ raised l2.
Proof.
  induction l1 as [|ev l1 IH]; simpl; [reflexivity|].
  destruct (raises ev); simpl; congruence.
Qed.

Lemma resets_app l1 l2 : resets (l1 ++ l2) = (resets l1 + resets l2)%nat.
Proof. induction l1 as [|[] l1 IH]; simpl; congruence. Qed.

(** *** The poll loop, one turn at a time *)

Lemma pollLoop_done replies op m s :
  done op = true -> pollLoop replies op m s = (Done op, s, []).
Proof. intro D. destruct replies; simpl; now rewrite D. Qed.

Lemma pollLoop_unanswered op m s :
  done op = false ->
  pollLoop [] op m s =
  (Awaiting, tick (nextIndex m) s, tickEffects m s None).
Proof. intro D. simpl. now rewrite D. Qed.

Lemma pollLoop_throws e replies op m s :
  done op = false ->
  pollLoop (Throws e :: replies) op m s =
  (Raised e, tick (nextIndex m) s, tickEffects m s (Some (Throws e))).
Proof. intro D. simpl. now rewrite D. Qed.

Lemma pollLoop_returns op1 replies op m s :
  done op = false ->
  pollLoop (Returns op1 :: replies) op m s =
  let '(o, s2, log2) := pollLoop replies op1 (nextIndex m) (tick (nextIndex m) s) in
  (o, s2, tickEffects m s (Some (Returns op1)) ++ log2).
Proof.
  intro D. cbn [pollLoop]. rewrite D.
  unfold bind, emit, setGenState, await, ret. fold (nextIndex m).
  destruct (pollLoop replies op1 (nextIndex m) (tick (nextIndex m) s)) as [[o s2] log2].
  reflexivity.
Qed.

Lemma last_cons_default {A} (a d : A) (l : list A) : last (a :: l) d = last l a.
Proof.
  revert a d; induction l as [|b l IH]; intros a d; [reflexivity|].
  change (last (a :: b :: l) d) with (last (b :: l) d).
  now rewrite !IH.
Qed.

Lemma tick_progress m s :
  progress (tick m s) <= 95 /\ (progress s <= 95 -> progress s <= progress (tick m s)).
Proof. unfold tick; simpl. lia. Qed.

(** What a run of the poll loop does, from a job state whose progress is at
    most 95: the states it sets climb from there without passing 95 and
    change nothing but status and progress; it leaves the last of them; it
    never calls [onResetKey]; it returns only a handle that reports
    completion, seen last, after handles that did not; and it raises only
    the error of a poll, seen last. *)
Lemma pollLoop_facts (replies : list (reply VideoOperation)) :
  forall (op : VideoOperation) (m : Z) (s : GenerationState),
    progress s <= 95 ->
    let '(o, s', log) := pollLoop replies op m s in
    Sorted Z.le (List.map progress (s :: states log)) /\
    Forall (fun g => isGenerating g = isGenerating s /\ videoUrl g = videoUrl s /\
                     error g = error s /\ progress g <= 95) (states log) /\
    s' = last (states log) s /\
    resets log = 0%nat /\
    match o with
    | Done op' =>
        done op' = true /\ raised log = [] /\
        ((log = [] /\ op' = op) \/
         (done op = false /\
          exists pre, log = pre ++ [GetVideosOperation (Some (Returns op'))] /\
                      Forall (fun x => done x = false) (observed pre)))
    | Raised e =>
        raised log = [e] /\ Forall (fun x => done x = false) (op :: observed log)
    | Awaiting =>
        raised log = [] /\ Forall (fun x => done x = false) (op :: observed log)
    end.
Proof.
  induction replies as [|[op1|e] replies IH]; intros op m s Hs;
    destruct (done op) eqn:D.
  - rewrite pollLoop_done by assumption; simpl.
    repeat split; auto; repeat constructor.
  - rewrite pollLoop_unanswered by assumption.
    destruct (tick_progress (nextIndex m) s) as [T1 T2].
    unfold tickEffects; simpl.
    repeat split; auto; repeat constructor; auto.
  - rewrite pollLoop_done by assumption; simpl.
    repeat split; auto; repeat constructor.
  - rewrite pollLoop_returns by assumption.
    destruct (tick_progress (nextIndex m) s) as [T1 T2].
    specialize (IH op1 (nextIndex m) (tick (nextIndex m) s) T1).
    destruct (pollLoop replies op1 (nextIndex m) (tick (nextIndex m) s)) as [[o s2] log2].
    destruct IH as (S1 & F1 & L1 & R1 & O1).
    unfold tickEffects.
    cbn [app states List.map resets raised raises observed observes].
    split; [|split; [|split; [|split]]].
    + constructor; [exact S1|]. constructor. now apply T2.
    + constructor; [now repeat split|].
      revert F1. apply Forall_impl. intros g (G1 & G2 & G3 & G4). now repeat split.
    + rewrite last_cons_default. exact L1.
    + exact R1.
    + destruct o as [op'|e|].
      * destruct O1 as (Dn & Rz & Hlog). split; [exact Dn|]. split; [exact Rz|].
        right. split; [reflexivity|].
        destruct Hlog as [[-> ->] | (D1 & pre & -> & Hpre)].
        -- exists [Sleep 10000; SetGenState (tick (nextIndex m) s)].
           split; [reflexivity | constructor].
        -- exists ([Sleep 10000; SetGenState (tick (nextIndex m) s);
                    GetVideosOperation (Some (Returns op1))] ++ pre).
           split; [reflexivity|]. simpl. now constructor.
      * destruct O1 as (Rz & Hobs). split; [exact Rz|].
        constructor; [exact D | exact Hobs].
      * destruct O1 as (Rz & Hobs). split; [exact Rz|].
        constructor; [exact D | exact Hobs].
  - rewrite pollLoop_done by assumption; simpl.
    repeat split; auto; repeat constructor.
  - rewrite pollLoop_throws by assumption.
    destruct (tick_progress (nextIndex m) s) as [T1 T2].
    unfold tickEffects; simpl.
    repeat split; auto; repeat constructor; auto.
Qed.

(** *** Every run has one of the six shapes *)

Lemma catchBlock_run (e : JsError) (s : GenerationState) :
  catchBlock e s = (catchOutcome e, catchState e s, catchEffects e).
Proof.
  unfold catchBlock, catchOutcome, catchState, catchEffects, readsSignature.
  destruct e as [|message]; [reflexivity|].
  destruct (includesSignature message) as [[|]|]; reflexivity.
Qed.

Lemma generateVideo_run (w : World) (i : JobInputs) (s : GenerationState)
    (c : char16) (start : jsstring) :
  startImage i = Some (c :: start) ->
  JobRun w i (c :: start) (generateVideo w i s).
Proof.
  intro Hstart. unfold generateVideo. rewrite Hstart.
  unfold bind at 1. unfold setGenState at 1. fold submitted.
  unfold try_catch, tryBlock.
  unfold bind at 1. unfold emit at 1.
  destruct (generateVideos_reply w (buildRequest i (c :: start))) as [op0|e] eqn:Hsub.
  2:{ cbn [await raise bind]. rewrite catchBlock_run. cbn [app].
      now apply SubmissionFails. }
  unfold bind at 1. cbn [await ret].
  unfold bind at 1.
  pose proof (pollLoop_facts (getVideosOperation_replies w) op0 0 submitted
                ltac:(cbn; lia)) as F.
  destruct (pollLoop (getVideosOperation_replies w) op0 0 submitted) as [[o sp] lp].
  destruct F as (S1 & F1 & L1 & R1 & O1).
  assert (PL : PollingLog lp sp) by (now repeat split).
  destruct o as [op'|e|].
  - destruct O1 as (Dn & Rz & Hlog).
    assert (CO : CompletedOn op0 lp op') by (now split).
    destruct (uri op') as [[|c' link]|] eqn:Huri.
    + cbn [ret app]. rewrite app_nil_r.
      apply (CompletesWithoutLink w i (c :: start) op0 lp sp op'); auto.
      now rewrite Huri.
    + fold (assetUrl i (c' :: link)).
      unfold bind at 1. unfold emit at 1.
      destruct (fetch_reply w (assetUrl i (c' :: link))) as [url|e] eqn:Hfetch.
      * unfold bind at 1. cbn [await ret]. unfold setGenState. fold (succeeded url).
        cbn [app].
        now apply (Succeeds w i (c :: start) op0 lp sp op' (c' :: link) url).
      * cbn [await raise bind]. rewrite catchBlock_run. cbn [app].
        try rewrite <- app_assoc. cbn [app].
        now apply (FetchFails w i (c :: start) op0 lp sp op' (c' :: link) e).
    + cbn [ret app]. rewrite app_nil_r.
      apply (CompletesWithoutLink w i (c :: start) op0 lp sp op'); auto.
      now rewrite Huri.
  - destruct O1 as (Rz & Hobs).
    rewrite catchBlock_run. cbn [app].
    now apply (PollFails w i (c :: start) op0 lp sp e).
  - destruct O1 as (Rz & Hobs). cbn [app].
    now apply (StillPolling w i (c :: start) op0 lp sp).
Qed.

(** *** Reading the logs of the six shapes *)

Ltac catch_cases e :=
  unfold catchEffects, catchOutcome, catchState, isCredentialError, readsSignature;
  let message := fresh "message" in
  destruct e as [|message]; [|destruct (includesSignature message) as [[|]|]].

(** The [catch] block, by cases: it throws, having logged the error and
    done nothing else; or it runs to its end and sets the failed state. *)
Lemma catchBlock_cases (e : JsError) (s : GenerationState) :
  (readsSignature e = None /\
   catchOutcome e = Raised engineTypeError /\ catchState e s = s /\
   catchEffects e = [ConsoleError e]) \/
  (exists message found,
     e = Thrown message /\ includesSignature message = Some found /\
     catchOutcome e = Done tt /\ catchState e s = failedState message /\
     catchEffects e =
       ConsoleError e :: (if found then [OnResetKey] else []) ++
                         [SetGenState (failedState message)]).
Proof.
  unfold catchEffects, catchOutcome, catchState, readsSignature.
  destruct e as [|message]; [now left|].
  destruct (includesSignature message) as [found|] eqn:E; [right | now left].
  now exists message, found.
Qed.

(** When the [catch] block returns, it has set the failed state. *)
Lemma catchBlock_returns (e : JsError) (s : GenerationState) :
  catchOutcome e = Done tt -> isGenerating (catchState e s) = false.
Proof. catch_cases e; intro H; try discriminate; reflexivity. Qed.

Lemma catchEffects_inFlight e : inFlight (states (catchEffects e)) = [].
Proof. catch_cases e; reflexivity. Qed.

Lemma catchEffects_observed e : observed (catchEffects e) = [].
Proof. catch_cases e; reflexivity. Qed.

Lemma catchEffects_raised e : raised (catchEffects e) = [].
Proof. catch_cases e; reflexivity. Qed.

Lemma catchEffects_resets e :
  resets (catchEffects e) = if isCredentialError e then 1%nat else 0%nat.
Proof. catch_cases e; reflexivity. Qed.

Lemma inFlight_app l1 l2 : inFlight (l1 ++ l2) = inFlight l1 ++ inFlight l2.
Proof. apply filter_app. Qed.

Lemma inFlight_all (l : list GenerationState) :
  Forall (fun g => isGenerating g = true) l -> inFlight l = l.
Proof.
  induction 1 as [|g l Hg _ IH]; simpl; [reflexivity|].
  now rewrite Hg, IH.
Qed.

Lemma PollingLog_inFlight lp sp : PollingLog lp sp -> inFlight (states lp) = states lp.
Proof.
  intros (_ & F & _). apply inFlight_all.
  revert F. apply Forall_impl. now intros g (G & _).
Qed.

Lemma PollingLog_below_full lp sp :
  PollingLog lp sp -> Forall (fun g => progress g < 100) (states lp).
Proof.
  intros (_ & F & _). revert F. apply Forall_impl. intros g (_ & _ & _ & G). lia.
Qed.

Lemma last_in_or_default {A} (l : list A) (d : A) : last l d = d \/ In (last l d) l.
Proof.
  revert d; induction l as [|a l IH]; intro d; [now left | right].
  rewrite last_cons_default.
  destruct (IH a) as [E | I]; [left; now rewrite E | now right].
Qed.

(** The state the polling part leaves is that of a job in flight. *)
Lemma PollingLog_state lp sp :
  PollingLog lp sp ->
  isGenerating sp = true /\ videoUrl sp = None /\ error sp = None /\ progress sp <= 95.
Proof.
  intros (_ & F & -> & _).
  destruct (last_in_or_default (states lp) submitted) as [-> | Hin].
  - cbn. repeat split; lia.
  - rewrite Forall_forall in F. exact (F _ Hin).
Qed.

Lemma CompletedOn_observed op0 lp op' :
  CompletedOn op0 lp op' ->
  Forall (fun x => notDone x \/ x = op') (op0 :: observed lp).
Proof.
  intros (_ & [[-> ->] | (D0 & pre & -> & Hpre)]).
  - constructor; [now right | constructor].
  - constructor; [now left|].
    rewrite observed_app; simpl. apply Forall_app. split.
    + revert Hpre. apply Forall_impl. now left.
    + constructor; [now right | constructor].
Qed.

Lemma CompletedOn_last_effect op0 lp op' req :
  CompletedOn op0 lp op' ->
  exists pre ev,
    GenerateVideos req (Returns op0) :: lp = pre ++ [ev] /\ observes ev = Some op'.
Proof.
  intros (_ & [[-> ->] | (D0 & pre & -> & _)]).
  - now exists [], (GenerateVideos req (Returns op0)).
  - now exists (GenerateVideos req (Returns op0) :: pre),
               (GetVideosOperation (Some (Returns op'))).
Qed.

Lemma CompletedOn_sawAsset op0 lp op' req :
  CompletedOn op0 lp op' -> truthy (uri op') = true ->
  sawAsset (GenerateVideos req (Returns op0) :: lp) = true.
Proof.
  intros CO Hu.
  destruct (CompletedOn_last_effect op0 lp op' req CO) as (pre & ev & -> & Hev).
  destruct CO as (Dn & _).
  unfold sawAsset. rewrite observed_app; simpl. rewrite Hev.
  rewrite existsb_app; simpl.
  unfold completedWithAsset at 2. rewrite Dn, Hu; simpl.
  now rewrite orb_true_r.
Qed.

(** *** Progress 100 only after an asset was seen *)

Lemma sawAsset_app l1 l2 : sawAsset (l1 ++ l2) = sawAsset l1 || sawAsset l2.
Proof. unfold sawAsset. now rewrite observed_app, existsb_app. Qed.

Lemma fullOnlyAfterAsset_app seen l1 l2 :
  fullOnlyAfterAsset seen (l1 ++ l2) =
  fullOnlyAfterAsset seen l1 && fullOnlyAfterAsset (seen || sawAsset l1) l2.
Proof.
  revert seen; induction l1 as [|ev l1 IH]; intro seen; simpl.
  - now rewrite orb_false_r.
  - rewrite IH, andb_assoc. do 2 f_equal.
    change (ev :: l1) with ([ev] ++ l1).
    now rewrite sawAsset_app, orb_assoc.
Qed.

Lemma fullOnlyAfterAsset_below seen log :
  Forall (fun g => progress g < 100) (states log) ->
  fullOnlyAfterAsset seen log = true.
Proof.
  revert seen; induction log as [|ev log IH]; intros seen F; [reflexivity|].
  destruct ev; cbn [fullOnlyAfterAsset states] in *; try (now apply IH).
  inversion F as [|g0 l Hg F']; subst.
  destruct (Z.eqb_spec (progress g) 100); [lia|].
  now apply IH.
Qed.

Lemma fullOnlyAfterAsset_sound log :
  forall seen, fullOnlyAfterAsset seen log = true ->
  forall pre g post,
    log = pre ++ SetGenState g :: post -> progress g = 100 ->
    seen = true \/ sawAsset pre = true.
Proof.
  induction log as [|ev log IH]; intros seen H pre g post E Hg.
  - now destruct pre.
  - cbn [fullOnlyAfterAsset] in H. apply andb_prop in H. destruct H as [H1 H2].
    destruct pre as [|ev' pre]; cbn [app] in E; injection E as -> E.
    + left. rewrite Hg in H1. exact H1.
    + destruct (IH _ H2 pre g post E Hg) as [Hs | Hs].
      * apply orb_prop in Hs. destruct Hs as [Hs | Hs]; [now left | right].
        change (ev' :: pre) with ([ev'] ++ pre).
        now rewrite sawAsset_app, Hs.
      * right. change (ev' :: pre) with ([ev'] ++ pre).
        now rewrite sawAsset_app, Hs, orb_true_r.
Qed.

Lemma PollingLog_nil : PollingLog [] submitted.
Proof. repeat split; repeat constructor. Qed.

Lemma catchEffects_full seen e : fullOnlyAfterAsset seen (catchEffects e) = true.
Proof. catch_cases e; reflexivity. Qed.

(** *** The claims about the job *)

Ltac job_shapes w i s :=
  let R := fresh "R" in
  let c := fresh "c" in
  let start := fresh "start" in
  let Hstart := fresh "Hstart" in
  let Heq := fresh "Heq" in
  unfold effectsOf, stateAfter in *;
  destruct (startImage i) as [[|c start]|] eqn:Hstart;
  [ unfold generateVideo in *; rewrite Hstart in *
  | pose proof (generateVideo_run w i s c start Hstart) as R;
    destruct (generateVideo w i s) as [[? ?] ?];
    inversion R as
      [ e Hsub Heq
      | op0 lp sp e Hsub PL Hraised Hnd Heq
      | op0 lp sp Hsub PL Hraised Hnd Heq
      | op0 lp sp op' Hsub PL Hraised CO Hlink Heq
      | op0 lp sp op' link e Hsub PL Hraised CO Huri Hlink Hfetch Heq
      | op0 lp sp op' link url Hsub PL Hraised CO Huri Hlink Hfetch Heq ];
    subst; clear R
  | unfold generateVideo in *; rewrite Hstart in * ];
  cbn [fst snd] in *.

(** C7. Without a starting image ([null], or the empty string) a submission
    does one thing, the alert: it returns, the job state is the one it found
    (so a job that was idle stays idle), no state is set, and the backend and
    the network are not called. *)
Theorem generateVideo_requires_start_image :
  forall (w : World) (i : JobInputs) (s : GenerationState),
    truthy (startImage i) = false ->
    generateVideo w i s =
      (Done tt, s, [Alert (lit "Please upload at least one starting image.")]) /\
    stateAfter w i s = s /\
    states (effectsOf w i s) = [] /\
    List.filter isBackendCall (effectsOf w i s) = [].
Proof.
  intros w i s H. unfold stateAfter, effectsOf, generateVideo.
  destruct (startImage i) as [[|c start]|]; try discriminate; now repeat split.
Qed.

(** C6. In every run, whatever the backend answers: the progress values of
    the states set while the job is in flight (the submitted state and the
    poll ticks) never decrease from one to the next; each of them is below
    100 (at most 95); and a state with progress 100 is set only after the
    run has been shown a handle that reports completion and carries a link to
    the asset. *)
Theorem progress_monotone_and_capped :
  forall (w : World) (i : JobInputs) (s : GenerationState),
    let log := effectsOf w i s in
    Sorted Z.le (List.map progress (inFlight (states log))) /\
    Forall (fun g => progress g <= 95 /\ progress g < 100) (inFlight (states log)) /\
    (forall pre g post,
        log = pre ++ SetGenState g :: post ->
        progress g = 100 ->
        exists op, In op (observed pre) /\ done op = true /\ truthy (uri op) = true).
Proof.
  intros w i s log.
  assert (shape :
    Sorted Z.le (List.map progress (inFlight (states log))) /\
    Forall (fun g => progress g <= 95 /\ progress g < 100) (inFlight (states log)) /\
    fullOnlyAfterAsset false log = true).
  { assert (polling : forall lp sp tail,
              PollingLog lp sp -> inFlight tail = [] ->
              Sorted Z.le (List.map progress (inFlight (submitted :: states lp ++ tail))) /\
              Forall (fun g => progress g <= 95 /\ progress g < 100)
                     (inFlight (submitted :: states lp ++ tail))).
    { intros lp sp tail PL Ht.
      change (submitted :: states lp ++ tail) with ([submitted] ++ states lp ++ tail).
      rewrite !inFlight_app, Ht, app_nil_r, (PollingLog_inFlight lp sp PL).
      destruct PL as (S1 & F1 & _). split; [exact S1|].
      constructor; [cbn; lia|].
      revert F1. apply Forall_impl. intros g (_ & _ & _ & G). lia. }
    subst log. job_shapes w i s.
    - now repeat split; try constructor.
    - cbn [states].
      destruct (polling [] submitted (states (catchEffects e)) PollingLog_nil
                  (catchEffects_inFlight e)) as [P1 P2].
      split; [exact P1 | split; [exact P2|]].
      cbn [fullOnlyAfterAsset progress submitted Z.eqb andb].
      apply catchEffects_full.
    - cbn [states]. rewrite states_app.
      destruct (polling lp sp (states (catchEffects e)) PL
                  (catchEffects_inFlight e)) as [P1 P2].
      split; [exact P1 | split; [exact P2|]].
      cbn [fullOnlyAfterAsset progress submitted Z.eqb andb].
      rewrite fullOnlyAfterAsset_app,
        (fullOnlyAfterAsset_below _ lp (PollingLog_below_full _ _ PL)).
      apply catchEffects_full.
    - cbn [states].
      destruct (polling lp _ [] PL eq_refl) as [P1 P2]. rewrite app_nil_r in P1, P2.
      split; [exact P1 | split; [exact P2|]].
      cbn [fullOnlyAfterAsset progress submitted Z.eqb andb].
      apply fullOnlyAfterAsset_below, (PollingLog_below_full _ _ PL).
    - cbn [states].
      destruct (polling lp _ [] PL eq_refl) as [P1 P2]. rewrite app_nil_r in P1, P2.
      split; [exact P1 | split; [exact P2|]].
      cbn [fullOnlyAfterAsset progress submitted Z.eqb andb].
      apply fullOnlyAfterAsset_below, (PollingLog_below_full _ _ PL).
    - cbn [states]. rewrite states_app. cbn [states].
      destruct (polling lp sp (states (catchEffects e)) PL
                  (catchEffects_inFlight e)) as [P1 P2].
      split; [exact P1 | split; [exact P2|]].
      cbn [fullOnlyAfterAsset progress submitted Z.eqb andb].
      rewrite fullOnlyAfterAsset_app,
        (fullOnlyAfterAsset_below _ lp (PollingLog_below_full _ _ PL)).
      cbn [fullOnlyAfterAsset andb].
      apply catchEffects_full.
    - cbn [states]. rewrite states_app. cbn [states].
      destruct (polling lp sp [succeeded url] PL eq_refl) as [P1 P2].
      split; [exact P1 | split; [exact P2|]].
      assert (Hu : truthy (uri op') = true) by (now rewrite Huri).
      pose proof (CompletedOn_sawAsset op0 lp op' (buildRequest i (c :: start)) CO Hu) as SA.
      change (GenerateVideos (buildRequest i (c :: start)) (Returns op0) :: lp)
        with ([GenerateVideos (buildRequest i (c :: start)) (Returns op0)] ++ lp) in SA.
      rewrite sawAsset_app in SA.
      cbn [fullOnlyAfterAsset progress submitted Z.eqb andb orb].
      rewrite fullOnlyAfterAsset_app,
        (fullOnlyAfterAsset_below _ lp (PollingLog_below_full _ _ PL)).
      change (sawAsset [SetGenState submitted]) with false.
      cbn [orb]. rewrite SA. reflexivity.
    - now repeat split; try constructor. }
  destruct shape as (A & B & C).
  split; [exact A | split; [exact B|]].
  intros pre g post E Hg.
  destruct (fullOnlyAfterAsset_sound log false C pre g post E Hg) as [F | SA];
    [discriminate|].
  unfold sawAsset in SA. apply existsb_exists in SA.
  destruct SA as (op & Hin & Hop).
  unfold completedWithAsset in Hop. apply andb_prop in Hop.
  exists op. now repeat split.
Qed.

Ltac read_log_step :=
  cbn [states observed raised resets observes raises app];
  rewrite ?states_app, ?observed_app, ?raised_app, ?resets_app,
          ?catchEffects_observed, ?catchEffects_raised, ?catchEffects_resets.

Ltac read_log :=
  read_log_step; read_log_step;
  cbn [states observed raised resets observes raises app].

(** Nothing switched on, no starting image: the job stays idle. *)
Lemma generateVideo_requires_start_image_witness :
  generateVideo worldSuccess noImageInputs initialGenState =
    (Done tt, initialGenState,
     [Alert (lit "Please upload at least one starting image.")]).
Proof.
  exact (proj1 (generateVideo_requires_start_image
                  worldSuccess noImageInputs initialGenState eq_refl)).
Defined.

(** In the run that succeeds after two polls, the last effect sets progress
    100, and a completed handle with its link was seen before it. *)
Lemma progress_monotone_and_capped_witness :
  let log := effectsOf worldSuccess sampleInputs initialGenState in
  List.map progress (states log) = [0; 15; 30; 100] /\
  exists op, In op (observed (removelast log)) /\
             done op = true /\ truthy (uri op) = true.
Proof.
  intro log. split; [reflexivity|].
  apply (proj2 (proj2 (progress_monotone_and_capped
                         worldSuccess sampleInputs initialGenState))
           (removelast log) (succeeded (lit "blob:video")) []);
    reflexivity.
Defined.

(** How a run ends, as far as errors go: it raised none and the key was
    left alone; or it raised one, and the [catch] block ended the run. *)
Lemma generateVideo_raised (w : World) (i : JobInputs) (s : GenerationState) :
  let log := effectsOf w i s in
  (raised log = [] /\ resets log = 0%nat) \/
  (exists e sp,
     raised log = [e] /\
     isGenerating sp = true /\ error sp = None /\
     fst (fst (generateVideo w i s)) = catchOutcome e /\
     stateAfter w i s = catchState e sp /\
     resets log = (if isCredentialError e then 1%nat else 0%nat) /\
     exists pre, log = pre ++ catchEffects e).
Proof.
  intro log. subst log. job_shapes w i s.
  - now left.
  - right. exists e, submitted. read_log.
    repeat split; try reflexivity.
    now exists [SetGenState submitted;
                GenerateVideos (buildRequest i (c :: start)) (Throws e)].
  - right. exists e, sp. read_log.
    destruct (PollingLog_state _ _ PL) as (G1 & _ & G3 & _).
    destruct PL as (_ & _ & _ & ->). rewrite Hraised.
    repeat split; try assumption; try reflexivity.
    exists (SetGenState submitted ::
            GenerateVideos (buildRequest i (c :: start)) (Returns op0) :: lp).
    reflexivity.
  - left. read_log. destruct PL as (_ & _ & _ & ->). now split.
  - left. read_log. destruct PL as (_ & _ & _ & ->). now split.
  - right. exists e, sp. read_log.
    destruct (PollingLog_state _ _ PL) as (G1 & _ & G3 & _).
    destruct PL as (_ & _ & _ & ->). rewrite Hraised.
    repeat split; try assumption; try reflexivity.
    exists (SetGenState submitted ::
            GenerateVideos (buildRequest i (c :: start)) (Returns op0) ::
            lp ++ [Fetch (assetUrl i link) (Throws e)]).
    cbn [app]. now rewrite <- app_assoc.
  - left. read_log. destruct PL as (_ & _ & _ & ->).
    rewrite Hraised. now split.
  - now left.
Qed.

(** C8, as the code has it.  A run raises at most one error (from the
    submission, a poll or the fetch), and calls [onResetKey] as many times
    as the [catch] block found "Requested entity was not found." in the
    message of an error it raised: once or never.  When the value raised is
    not [null] or [undefined] and its message is a string or is absent, the
    function returns and the job is left failed (not generating, status
    "Error", progress 0, no video) with that message as its error when it is
    a non-empty string, and with the text "An unexpected error occurred."
    when the message is empty or absent; and [onResetKey] is called once
    when the message is a string that contains the signature, and not at all
    otherwise. *)
Theorem failure_sets_error_and_resets_key :
  forall (w : World) (i : JobInputs) (s : GenerationState),
    let log := effectsOf w i s in
    (List.length (raised log) <= 1)%nat /\
    resets log = List.length (List.filter isCredentialError (raised log)) /\
    (forall (e : JsError) (message : option jsstring),
        In e (raised log) ->
        e = mkError message ->
        fst (fst (generateVideo w i s)) = Done tt /\
        stateAfter w i s =
          mkGen false (lit "Error") 0 None
            (Some (ErrorText
                     match message with
                     | Some (c :: m) => c :: m
                     | _ => lit "An unexpected error occurred."
                     end)) /\
        resets log =
          match message with
          | Some m => if includes m credentialSignature then 1%nat else 0%nat
          | None => 0%nat
          end).
Proof.
  intros w i s log.
  destruct (generateVideo_raised w i s)
    as [[Hr Hk] | (e & sp & Hr & _ & _ & Ho & Hs & Hk & _)];
    fold log in Hr, Hk; rewrite Hr, Hk.
  - split; [simpl; lia|]. split; [reflexivity|]. intros e message [].
  - cbn [List.length List.filter].
    split; [lia|]. split; [now destruct (isCredentialError e)|].
    intros e' message [<- | []] ->. rewrite Ho, Hs.
    destruct message as [[|c m]|]; repeat split.
Qed.

(** A poll that fails on the credential: the job fails with the message of
    the error, and the key is reset once. *)
Lemma failure_sets_error_and_resets_key_witness :
  stateAfter worldCredentialError sampleInputs initialGenState =
    mkGen false (lit "Error") 0 None
          (Some (ErrorText (lit "404 NOT_FOUND: Requested entity was not found."))) /\
  resets (effectsOf worldCredentialError sampleInputs initialGenState) = 1%nat.
Proof.
  destruct (proj2 (proj2 (failure_sets_error_and_resets_key
                            worldCredentialError sampleInputs initialGenState))
              credentialError
              (Some (lit "404 NOT_FOUND: Requested entity was not found."))
              (or_introl eq_refl) eq_refl)
    as (_ & Hs & Hk).
  split; [exact Hs | exact Hk].
Defined.

(** C8, counterexample.  The submission raises an error whose message is
    the empty string: the job's error is not that message but the fixed
    text. *)
Lemma raw_message_not_surfaced_when_empty :
  In emptyError (raised (effectsOf worldEmptyError sampleInputs initialGenState)) /\
  emptyError = Thrown (TextMessage []) /\
  error (stateAfter worldEmptyError sampleInputs initialGenState) <>
    Some (ErrorText []) /\
  error (stateAfter worldEmptyError sampleInputs initialGenState) =
    Some (ErrorText (lit "An unexpected error occurred.")).
Proof.
  split; [now left|]. split; [reflexivity|]. split; [discriminate | reflexivity].
Qed.

(** C10. When a run is shown a handle that reports completion and carries
    no link to a video, the function returns, that handle is the last thing
    the run does (nothing is set, fetched or reported after it), and the job
    is left as the last tick (or, with no tick, the submission) set it:
    generating, with progress at most 95, with neither a video nor an
    error. *)
Theorem completion_without_link_stalls :
  forall (w : World) (i : JobInputs) (s : GenerationState) (op : VideoOperation),
    In op (observed (effectsOf w i s)) ->
    done op = true ->
    truthy (uri op) = false ->
    fst (fst (generateVideo w i s)) = Done tt /\
    (exists pre ev, effectsOf w i s = pre ++ [ev] /\ observes ev = Some op) /\
    raised (effectsOf w i s) = [] /\
    stateAfter w i s = last (states (effectsOf w i s)) s /\
    isGenerating (stateAfter w i s) = true /\
    progress (stateAfter w i s) <= 95 /\
    videoUrl (stateAfter w i s) = None /\
    error (stateAfter w i s) = None.
Proof.
  intros w i s op Hin Hdone Hnolink.
  assert (pending : forall op0 lp, Forall notDone (op0 :: observed lp) ->
                                   In op (op0 :: observed lp) -> False).
  { intros op0 lp F I. rewrite Forall_forall in F.
    specialize (F _ I). unfold notDone in F. congruence. }
  assert (linked : forall op0 lp op' link,
             CompletedOn op0 lp op' -> uri op' = Some link ->
             truthy (Some link) = true -> In op (op0 :: observed lp) -> False).
  { intros op0 lp op' link CO Hu Ht I.
    pose proof (CompletedOn_observed _ _ _ CO) as F. rewrite Forall_forall in F.
    destruct (F _ I) as [N | ->]; [unfold notDone in N; congruence|].
    rewrite Hu in Hnolink. congruence. }
  revert Hin. job_shapes w i s; read_log; intro Hin.
  - destruct Hin.
  - destruct Hin.
  - rewrite app_nil_r in Hin. destruct (pending _ _ Hnd Hin).
  - destruct (pending _ _ Hnd Hin).
  - pose proof (CompletedOn_observed _ _ _ CO) as F. rewrite Forall_forall in F.
    destruct (F _ Hin) as [N | ->]; [unfold notDone in N; congruence|].
    destruct (PollingLog_state _ _ PL) as (G1 & G2 & G3 & G4).
    split; [reflexivity|]. split.
    { destruct (CompletedOn_last_effect op0 lp op' (buildRequest i (c :: start)) CO)
        as (pre & ev & E & Hev).
      exists (SetGenState submitted :: pre), ev. now rewrite E. }
    split; [exact Hraised|]. split.
    { rewrite last_cons_default. now destruct PL as (_ & _ & -> & _). }
    now repeat split.
  - rewrite app_nil_r in Hin. destruct (linked _ _ _ _ CO Huri Hlink Hin).
  - rewrite app_nil_r in Hin. destruct (linked _ _ _ _ CO Huri Hlink Hin).
  - destruct Hin.
Qed.

(** Two polls, the second one done with no video: the job stays on the
    third status message at progress 30, generating for ever. *)
Lemma completion_without_link_stalls_witness :
  stateAfter worldWithoutLink sampleInputs initialGenState =
    mkGen true (lit "Applying temporal coherence...") 30 None None /\
  isGenerating (stateAfter worldWithoutLink sampleInputs initialGenState) = true.
Proof.
  split; [reflexivity|].
  exact (proj1 (proj2 (proj2 (proj2 (proj2
           (completion_without_link_stalls
              worldWithoutLink sampleInputs initialGenState finishedWithoutLink
              (or_intror (or_intror (or_introl eq_refl))) eq_refl eq_refl)))))).
Defined.

End GenerationJob.

(** * Further properties *)

(** ** The editor under every sequence of actions *)

Section EditorActions.

Import Editor EditorEvents Save.

Local Open Scope Z_scope.

(** X1. Wherever undo acts, redo takes it back, and wherever redo acts, undo
    takes it back: on a state with something to undo, [redo] after [undo]
    gives the state back, stacks included, and likewise [undo] after [redo]
    on a state with something to redo. *)
Theorem undo_redo_inverse :
  forall st : State,
    (history st <> [] -> redo (undo st) = st) /\
    (future st <> [] -> undo (redo st) = st).
Proof.
  intros [p h f b d]; cbn [history future]. split; intro H.
  - destruct (snoc_cases h) as [-> | (h' & x & ->)]; [now destruct H|].
    now rewrite undo_snoc, redo_cons.
  - destruct f as [|x f]; [now destruct H|].
    now rewrite redo_cons, undo_snoc.
Qed.

Lemma undo_redo_inverse_witness :
  let st := updateParams (sliderUpdate Hue 40) true initialState in
  redo (undo st) = st /\ undo (redo (undo st)) = undo st.
Proof.
  intro st. split.
  - apply (proj1 (undo_redo_inverse st)). discriminate.
  - apply (proj2 (undo_redo_inverse (undo st))). discriminate.
Defined.

Lemma handleKeyDown_cases (e : KeyboardEvent) (st : State) :
  handleKeyDown e st = undo st \/ handleKeyDown e st = redo st \/
  handleKeyDown e st = st.
Proof.
  unfold handleKeyDown.
  destruct ((ctrlKey e || metaKey e) && str_eqb (key e) (lit "z"));
    [destruct (shiftKey e); auto|].
  destruct ((ctrlKey e || metaKey e) && str_eqb (key e) (lit "y")); auto.
Qed.

(** X2. Going back and forth in the history, by the buttons or by any key
    event, never drops, adds or reorders a snapshot: the sequence made of
    the undo stack, the live parameters and the redo stack stays the same,
    and so does the drag bookkeeping. *)
Theorem history_navigation_keeps_timeline :
  forall (st : State) (e : KeyboardEvent),
    (timeline (undo st) = timeline st /\
     timeline (redo st) = timeline st /\
     timeline (handleKeyDown e st) = timeline st) /\
    (dragStartParams (handleKeyDown e st) = dragStartParams st /\
     isDragging (handleKeyDown e st) = isDragging st).
Proof.
  intros st e.
  destruct (undo_drag st) as [U1 U2], (redo_drag st) as [R1 R2].
  destruct (handleKeyDown_cases e st) as [-> | [-> | ->]];
    rewrite ?undo_timeline, ?redo_timeline; auto.
Qed.

(** *** The rotation stays on the quarter turns *)

Lemma quarterTurn_dec_values (r : Z) :
  In r [0; 90; 180; 270] -> In (Z.rem (r + 90) 360) [0; 90; 180; 270].
Proof. simpl. intros [<- | [<- | [<- | [<- | []]]]]; cbn; auto. Qed.

Lemma commit_quarterTurns (st : State) (np : PartialParams) :
  quarterTurns st ->
  quarterTurn (merge (params st) np) ->
  quarterTurns (updateParams np true st).
Proof.
  intros [T D] M. split; [|exact D].
  unfold timeline, updateParams in *; cbn.
  apply Forall_app in T. destruct T as [Th Tp].
  apply Forall_app. split.
  - apply Forall_app. split; [exact Th|].
    constructor; [now inversion Tp | constructor].
  - constructor; [exact M | constructor].
Qed.

Lemma live_quarterTurn (st : State) : quarterTurns st -> quarterTurn (params st).
Proof.
  intros [T _]. unfold timeline in T. apply Forall_app in T.
  destruct T as [_ Tp]. now inversion Tp.
Qed.

Lemma step_quarterTurns (a : Action) (st : State) :
  quarterTurns st -> quarterTurns (step a st).
Proof.
  intro Q. pose proof (live_quarterTurn st Q) as L.
  assert (nav : forall st', timeline st' = timeline st ->
                            dragStartParams st' = dragStartParams st ->
                            quarterTurns st').
  { intros st' Ht Hd. destruct Q as [T D]. split; [now rewrite Ht | now rewrite Hd]. }
  destruct a; cbn [step].
  - apply nav; [apply undo_timeline | apply undo_drag].
  - apply nav; [apply redo_timeline | apply redo_drag].
  - apply nav; apply history_navigation_keeps_timeline.
  - apply commit_quarterTurns; [exact Q|].
    unfold quarterTurn; cbn. now apply quarterTurn_dec_values.
  - apply commit_quarterTurns; [exact Q|].
    unfold quarterTurn; cbn. auto.
  - destruct Q as [T D]. split; [exact T | exact L].
  - destruct Q as [T D]. split; [|exact D].
    unfold timeline, sliderChange, updateParams in *; cbn.
    apply Forall_app in T. destruct T as [Th Tp].
    apply Forall_app. split; [exact Th|].
    inversion Tp as [|x l Hp Hf]; subst.
    constructor; [|exact Hf].
    revert Hp. unfold quarterTurn. now destruct sl.
  - destruct Q as [T D]. destruct st as [p h f b [start|]];
      unfold handleSliderEnd; cbn [dragStartParams params] in *.
    + destruct (negb _); [|now split].
      split; [|exact D].
      unfold timeline in *; cbn in *.
      apply Forall_app in T. destruct T as [Th Tp].
      apply Forall_app. split.
      * apply Forall_app. split; [exact Th | constructor; [exact D | constructor]].
      * constructor; [exact L | constructor].
    + now split.
  - apply commit_quarterTurns; [exact Q | exact L].
  - apply commit_quarterTurns; [exact Q | exact L].
Qed.

Lemma run_quarterTurns (actions : list Action) :
  quarterTurns (run actions initialState).
Proof.
  unfold run.
  assert (Q0 : quarterTurns initialState).
  { split; [|exact I]. repeat constructor. }
  revert Q0. generalize initialState.
  induction actions as [|a actions IH]; intros st Q; cbn; [exact Q|].
  apply IH. now apply step_quarterTurns.
Qed.

(** X3. Whatever the user does, in any order (undo, redo, key events,
    rotating, resetting the view, dragging sliders, toggling filters), the
    planar rotation of the live parameters, of every snapshot on the two
    stacks and of the drag-start snapshot is 0, 90, 180 or 270. *)
Theorem rotation_stays_on_quarter_turns :
  forall actions : list Action,
    quarterTurns (run actions initialState).
Proof. exact run_quarterTurns. Qed.

(** X4. Exporting from any state the user can reach, for a source of
    positive width and height and either aspect ratio: the exported raster
    has no side longer than the matching side of the source as the live
    rotation presents it, and one of its sides is the source's. *)
Theorem export_fits_in_every_reachable_state :
  forall (actions : list Action) (canvas : Canvas) (a : AspectRatio),
    0 < width canvas -> 0 < height canvas ->
    let rot := rotation (params (run actions initialState)) in
    let out := handleSave canvas rot a in
    0 <= width out <= rotatedWidth canvas rot /\
    0 <= height out <= rotatedHeight canvas rot /\
    (width out = rotatedWidth canvas rot \/ height out = rotatedHeight canvas rot).
Proof.
  intros actions canvas a Hw Hh rot out.
  assert (Hr : In rot [0; 90; 180; 270])
    by exact (live_quarterTurn _ (run_quarterTurns actions)).
  unfold out. rewrite (handleSave_whole canvas rot a Hw Hh Hr).
  set (bw := rotatedWidth canvas rot). set (bh := rotatedHeight canvas rot).
  assert (Hbw : 0 < bw) by (unfold bw, rotatedWidth; destruct (_ || _); assumption).
  assert (Hbh : 0 < bh) by (unfold bh, rotatedHeight; destruct (_ || _); assumption).
  destruct (ratio_terms_positive a) as [HwR HhR].
  destruct (Z.ltb_spec (bh * wRatioOf a) (bw * hRatioOf a)) as [L | L];
    cbn [width height].
  - pose proof (Z.mul_div_le (bh * wRatioOf a) (hRatioOf a) ltac:(lia)).
    assert (0 <= bh * wRatioOf a / hRatioOf a) by (apply Z.div_pos; nia).
    repeat split; try lia; nia.
  - pose proof (Z.mul_div_le (bw * hRatioOf a) (wRatioOf a) ltac:(lia)).
    assert (0 <= bw * hRatioOf a / wRatioOf a) by (apply Z.div_pos; nia).
    repeat split; try lia; nia.
Qed.

(** After a quarter turn and a drag of the hue slider, a 1920 by 1080
    source exported at 9:16. *)
Lemma export_fits_in_every_reachable_state_witness :
  let actions := [ClickRotate; PointerDown; Change Hue 120; PointerUp] in
  let canvas := mkCanvas 1920 1080 in
  handleSave canvas (rotation (params (run actions initialState))) Ratio_9_16
    = mkCanvas 1080 1920 /\
  width (handleSave canvas (rotation (params (run actions initialState))) Ratio_9_16)
    <= 1080.
Proof.
  intros actions canvas. split; [reflexivity|].
  exact (proj2 (proj1 (export_fits_in_every_reachable_state
                         actions canvas Ratio_9_16 eq_refl eq_refl))).
Defined.

(** X5. One undo takes back a whole drag.  After a drag session that moved
    the parameters, [undo] restores the parameters and the undo stack the
    drag started from and leaves the dragged values as the one thing to
    redo; [redo] then brings the dragged values back. *)
Theorem undo_reverts_whole_drag :
  forall (st : State) (changes : list PartialParams),
    mergeAll changes (params st) <> params st ->
    let dragged := dragSession changes st in
    params (undo dragged) = params st /\
    history (undo dragged) = history st /\
    future (undo dragged) = [mergeAll changes (params st)] /\
    params (redo (undo dragged)) = mergeAll changes (params st).
Proof.
  intros [p h f b d] changes Hmoved dragged.
  unfold dragged, dragSession. rewrite sliderChanges_state.
  cbn [handleSliderStart setDragStart setIsDragging params history future
       isDragging dragStartParams] in *.
  rewrite handleSliderEnd_started.
  destruct (params_eq_dec p (mergeAll changes p)) as [E | _];
    [now destruct Hmoved|].
  rewrite undo_snoc. now repeat split.
Qed.

Lemma undo_reverts_whole_drag_witness :
  let changes := [sliderUpdate Brightness 120; sliderUpdate Brightness 140;
                  sliderUpdate Brightness 150] in
  params (undo (dragSession changes initialState)) = defaultParams /\
  brightness (params (redo (undo (dragSession changes initialState)))) = 150.
Proof.
  intro changes.
  destruct (undo_reverts_whole_drag initialState changes ltac:(discriminate))
    as (H1 & _ & _ & H2).
  split; [exact H1 | now rewrite H2].
Defined.

(** X6. Four clicks on the rotate button bring the parameters back to what
    they were, in any state the user can reach, and leave four more undo
    steps and nothing to redo. *)
Theorem four_rotations_restore_parameters :
  forall actions : list Action,
    let st := run actions initialState in
    let turned := Nat.iter 4 handleRotateZ st in
    params turned = params st /\
    List.length (history turned) = (List.length (history st) + 4)%nat /\
    future turned = [].
Proof.
  intros actions st turned.
  pose proof (live_quarterTurn _ (run_quarterTurns actions)) as Q. fold st in Q.
  unfold turned. destruct st as [p h f b d]. destruct p.
  unfold quarterTurn in Q; cbn [params Editor.rotation] in Q.
  cbn [Nat.iter]. unfold handleRotateZ, updateParams; cbn.
  rewrite !length_app; cbn.
  destruct Q as [<- | [<- | [<- | [<- | []]]]]; cbn; (split; [reflexivity | split; [lia | reflexivity]]).
Qed.

End EditorActions.

(** ** More on the export and on the camera shake *)

Section ExportAndShake.

Import Save CameraShake.

Local Open Scope Z_scope.

(** X7. A source that is already in the requested ratio (as the rotation
    presents it) is exported at its own size: nothing is cropped. *)
Theorem export_keeps_source_in_ratio :
  forall (canvas : Canvas) (rotation : Z) (a : AspectRatio),
    0 < width canvas -> 0 < height canvas ->
    In rotation [0; 90; 180; 270] ->
    rotatedWidth canvas rotation * hRatioOf a =
      rotatedHeight canvas rotation * wRatioOf a ->
    handleSave canvas rotation a =
      mkCanvas (rotatedWidth canvas rotation) (rotatedHeight canvas rotation).
Proof.
  intros canvas rotation a Hw Hh Hr E.
  rewrite (handleSave_whole canvas rotation a Hw Hh Hr).
  destruct (ratio_terms_positive a) as [HwR HhR].
  destruct (Z.ltb_spec (rotatedHeight canvas rotation * wRatioOf a)
                       (rotatedWidth canvas rotation * hRatioOf a)) as [L | L];
    [lia|].
  f_equal. rewrite E. apply Z.div_mul. lia.
Qed.

Lemma export_keeps_source_in_ratio_witness :
  handleSave (mkCanvas 1080 1920) 270 Ratio_16_9 = mkCanvas 1920 1080.
Proof.
  exact (export_keeps_source_in_ratio (mkCanvas 1080 1920) 270 Ratio_16_9
           eq_refl eq_refl ltac:(simpl; auto) eq_refl).
Defined.

(** X8. A source of at least two pixels each way exports to a raster with
    both sides positive; the bound is sharp, a source one pixel wide
    exporting at 16:9 to a raster of height 0. *)
Theorem export_sides_positive :
  forall (canvas : Canvas) (rotation : Z) (a : AspectRatio),
    2 <= width canvas -> 2 <= height canvas ->
    In rotation [0; 90; 180; 270] ->
    (0 < width (handleSave canvas rotation a) /\
     0 < height (handleSave canvas rotation a)) /\
    (forall h : Z, 0 < h -> handleSave (mkCanvas 1 h) 0 Ratio_16_9 = mkCanvas 1 0).
Proof.
  intros canvas rotation a Hw Hh Hr. split.
  - rewrite (handleSave_whole canvas rotation a ltac:(lia) ltac:(lia) Hr).
    set (bw := rotatedWidth canvas rotation). set (bh := rotatedHeight canvas rotation).
    assert (Hbw : 2 <= bw) by (unfold bw, rotatedWidth; destruct (_ || _); assumption).
    assert (Hbh : 2 <= bh) by (unfold bh, rotatedHeight; destruct (_ || _); assumption).
    destruct (Z.ltb_spec (bh * wRatioOf a) (bw * hRatioOf a)) as [L | L];
      cbn [width height]; (split; [try lia | try lia]);
      apply Z.div_str_pos; destruct a; cbn [wRatioOf hRatioOf] in *; lia.
  - intros h Hpos.
    rewrite (handleSave_whole (mkCanvas 1 h) 0 Ratio_16_9 eq_refl Hpos
               ltac:(simpl; auto)).
    cbn [rotatedWidth rotatedHeight Z.eqb orb width height wRatioOf hRatioOf].
    destruct (Z.ltb_spec (h * 16) (1 * 9)) as [L | L]; [lia | reflexivity].
Qed.

Lemma export_sides_positive_witness :
  0 < width (handleSave (mkCanvas 2 2) 90 Ratio_9_16) /\
  0 < height (handleSave (mkCanvas 2 2) 90 Ratio_9_16).
Proof.
  exact (proj1 (export_sides_positive (mkCanvas 2 2) 90 Ratio_9_16
                  ltac:(cbn; lia) ltac:(cbn; lia) ltac:(simpl; auto))).
Defined.

(** X9. The size of the export depends on the rotation only through its
    parity: a half turn exports like no turn, three quarter turns like one,
    and a quarter turn exports like the source with its sides swapped. *)
Theorem export_size_rotation_symmetry :
  forall (w h : Z) (a : AspectRatio),
    handleSave (mkCanvas w h) 180 a = handleSave (mkCanvas w h) 0 a /\
    handleSave (mkCanvas w h) 270 a = handleSave (mkCanvas w h) 90 a /\
    handleSave (mkCanvas w h) 90 a = handleSave (mkCanvas h w) 0 a.
Proof.
  intros w h a.
  assert (V0 : isVertical 0 = false) by (vm_compute; reflexivity).
  assert (V1 : isVertical 90 = true) by (vm_compute; reflexivity).
  assert (V2 : isVertical 180 = false) by (vm_compute; reflexivity).
  assert (V3 : isVertical 270 = true) by (vm_compute; reflexivity).
  unfold handleSave, finalSize, baseW, baseH.
  rewrite V0, V1, V2, V3. cbn [width height]. now repeat split.
Qed.

(** X10. The jitter of a frame of camera shake is small: with [Math.random]
    in its range [0, 1), each margin is within a fortieth of the shake
    value of zero, that is within 2.5 pixels over the slider's range; with
    a shake of 0 or less the margins are zero and no frame is requested. *)
Theorem shake_offset_bounded :
  forall (cameraShake : Z) (randomX randomY : Q),
    (0 <= randomX)%Q -> (randomX < 1)%Q ->
    (0 <= randomY)%Q -> (randomY < 1)%Q ->
    let m := margins cameraShake randomX randomY in
    (Qabs (fst m) <= inject_Z (Z.max cameraShake 0) / 40)%Q /\
    (Qabs (snd m) <= inject_Z (Z.max cameraShake 0) / 40)%Q /\
    (cameraShake <= 100 -> (Qabs (fst m) <= 2.5)%Q /\ (Qabs (snd m) <= 2.5)%Q) /\
    (cameraShake <= 0 -> m = (0%Q, 0%Q) /\ animates cameraShake = false).
Proof.
  intros c rx ry Hx0 Hx1 Hy0 Hy1 m.
  assert (bound : forall r, (0 <= r)%Q -> (r < 1)%Q -> 0 < c ->
            (Qabs (offset c r) <= inject_Z c / 40)%Q).
  { intros r H0 H1 Hc. unfold offset, intensity.
    apply Qabs_Qle_condition.
    assert (Hq : (0 < inject_Z c)%Q) by (unfold Qlt; simpl; lia).
    split.
    - setoid_replace (- (inject_Z c / 40))%Q with ((0 - 0.5) * (inject_Z c / 20))%Q by field.
      apply Qmult_le_compat_r.
      + unfold Qminus. apply Qplus_le_l. exact H0.
      + apply Qlt_le_weak. apply Qlt_shift_div_l; [reflexivity|].
        now rewrite Qmult_0_l.
    - setoid_replace (inject_Z c / 40)%Q with ((1 - 0.5) * (inject_Z c / 20))%Q by field.
      apply Qmult_le_compat_r.
      + unfold Qminus. apply Qplus_le_l. now apply Qlt_le_weak.
      + apply Qlt_le_weak. apply Qlt_shift_div_l; [reflexivity|].
        now rewrite Qmult_0_l. }
  assert (main : (Qabs (fst m) <= inject_Z (Z.max c 0) / 40)%Q /\
                 (Qabs (snd m) <= inject_Z (Z.max c 0) / 40)%Q).
  { unfold m, margins. destruct (Z.leb_spec c 0) as [L | L]; cbn [fst snd].
    - rewrite Z.max_r by lia. split; vm_compute; discriminate.
    - rewrite Z.max_l by lia. split; now apply bound. }
  destruct main as [M1 M2].
  split; [exact M1 | split; [exact M2 | split]].
  - intro Hc.
    assert (cap : (inject_Z (Z.max c 0) / 40 <= 2.5)%Q).
    { apply Qle_shift_div_r; [reflexivity|].
      unfold Qle; simpl. lia. }
    split; eapply Qle_trans; eauto.
  - intro Hc. unfold m, margins, animates.
    destruct (Z.leb_spec c 0) as [L | L]; [now split | lia].
Qed.

Lemma shake_offset_bounded_witness :
  (Qabs (fst (margins 100 (1 # 4) (9 # 10))) <= 2.5)%Q /\
  margins 0 (1 # 4) (9 # 10) = (0%Q, 0%Q).
Proof.
  destruct (shake_offset_bounded 100 (1 # 4) (9 # 10)
              ltac:(discriminate) ltac:(reflexivity)
              ltac:(discriminate) ltac:(reflexivity))
    as (_ & _ & H & _).
  split; [exact (proj1 (H ltac:(discriminate))) | reflexivity].
Defined.

End ExportAndShake.

(** ** The export leaves no pixel unpainted *)

Section ExportDrawing.

Import Save SaveDraw.

Lemma truncate_below (q : Q) :
  (0 <= q)%Q -> (inject_Z (truncate q) <= q)%Q /\ (0 <= truncate q)%Z.
Proof.
  destruct q as [n d]. unfold Qle, truncate; simpl. intro H.
  assert (Hn : (0 <= n)%Z) by lia.
  rewrite Z.quot_div_nonneg by lia.
  pose proof (Z.mul_div_le n (Z.pos d) ltac:(lia)).
  split; [lia | apply Z.div_pos; lia].
Qed.

(** The numbers of the fitting step lie between zero and the base sides. *)
Lemma finalSize_within (canvas : Canvas) (rotation : Z) (a : AspectRatio) :
  (0 < width canvas)%Z -> (0 < height canvas)%Z ->
  (0 <= fst (finalSize canvas rotation a) <= baseW canvas rotation)%Q /\
  (0 <= snd (finalSize canvas rotation a) <= baseH canvas rotation)%Q.
Proof.
  intros Hw Hh. unfold finalSize.
  assert (Hbw : (0 < Qnum (baseW canvas rotation))%Z /\ Qden (baseW canvas rotation) = 1%positive).
  { unfold baseW. destruct (isVertical rotation); simpl; auto. }
  assert (Hbh : (0 < Qnum (baseH canvas rotation))%Z /\ Qden (baseH canvas rotation) = 1%positive).
  { unfold baseH. destruct (isVertical rotation); simpl; auto. }
  destruct (baseW canvas rotation) as [bw dw], (baseH canvas rotation) as [bh dh].
  simpl in Hbw, Hbh. destruct Hbw as [Hbw ->], Hbh as [Hbh ->].
  destruct a; cbn [ratios];
    destruct (Qlt_le_dec _ _) as [L | L]; cbn [fst snd];
    revert L; unfold Qlt, Qle, Qdiv, Qmult, Qinv; simpl; intro L;
    repeat split; lia.
Qed.

Lemma Q2R_inject_Z (z : Z) : Q2R (inject_Z z) = IZR z.
Proof. unfold Q2R; simpl. field. Qed.

Lemma quarter_angles :
  ((cos (IZR 0 * PI / 180) = 1 /\ sin (IZR 0 * PI / 180) = 0) /\
   (cos (IZR 90 * PI / 180) = 0 /\ sin (IZR 90 * PI / 180) = 1) /\
   (cos (IZR 180 * PI / 180) = -1 /\ sin (IZR 180 * PI / 180) = 0) /\
   (cos (IZR 270 * PI / 180) = 0 /\ sin (IZR 270 * PI / 180) = -1))%R.
Proof.
  replace (IZR 0 * PI / 180)%R with 0%R by field.
  replace (IZR 90 * PI / 180)%R with (PI / 2)%R by field.
  replace (IZR 180 * PI / 180)%R with PI by field.
  replace (IZR 270 * PI / 180)%R with (3 * (PI / 2))%R by field.
  repeat split; auto using cos_0, sin_0, cos_PI2, sin_PI2, cos_PI, sin_PI,
    cos_3PI2, sin_3PI2.
Qed.

(** The sides of the target and of the computed size, as reals, against
    the sides of the source as the rotation presents it. *)
Lemma draw_sizes (canvas : Canvas) (rotation : Z) (a : AspectRatio) :
  (0 < width canvas)%Z -> (0 < height canvas)%Z ->
  In rotation [0; 90; 180; 270]%Z ->
  let fw := Q2R (fst (finalSize canvas rotation a)) in
  let fh := Q2R (snd (finalSize canvas rotation a)) in
  (IZR (width (handleSave canvas rotation a)) <= fw <= IZR (rotatedWidth canvas rotation) /\
   IZR (height (handleSave canvas rotation a)) <= fh <= IZR (rotatedHeight canvas rotation))%R.
Proof.
  intros Hw Hh Hr fw fh.
  destruct (finalSize_within canvas rotation a Hw Hh) as [[W0 W1] [H0 H1]].
  destruct (truncate_below _ W0) as [TW _], (truncate_below _ H0) as [TH _].
  apply Qreals.Qle_Rle in W1, H1, TW, TH.
  rewrite Q2R_inject_Z in TW, TH.
  unfold baseW, baseH in W1, H1. rewrite Q2R_inject_Z in W1, H1.
  rewrite (isVertical_quarter_turns _ Hr) in W1, H1.
  fold (rotatedWidth canvas rotation) in W1. fold (rotatedHeight canvas rotation) in H1.
  assert (E : handleSave canvas rotation a =
              mkCanvas (truncate (fst (finalSize canvas rotation a)))
                       (truncate (snd (finalSize canvas rotation a)))).
  { unfold handleSave. now destruct (finalSize canvas rotation a). }
  rewrite E; cbn [width height]. unfold fw, fh. lra.
Qed.

(** X11. The export leaves no pixel of its raster unpainted: for a source
    of positive width and height and each of the four rotations, every point
    of the exported raster is covered by the rotated, centred source image,
    so the export only ever crops and never shows a transparent margin. *)
Theorem export_paints_every_pixel :
  forall (canvas : Canvas) (rotation : Z) (a : AspectRatio),
    (0 < width canvas)%Z -> (0 < height canvas)%Z ->
    In rotation [0; 90; 180; 270]%Z ->
    forall x y : R,
      (0 <= x <= IZR (width (target (draw canvas rotation a))))%R ->
      (0 <= y <= IZR (height (target (draw canvas rotation a))))%R ->
      painted (draw canvas rotation a) x y.
Proof.
  intros canvas rotation a Hw Hh Hr x y Hx Hy.
  pose proof (draw_sizes canvas rotation a Hw Hh Hr) as S.
  cbv zeta in S. unfold draw in *. cbn [target] in Hx, Hy.
  set (fw := Q2R (fst (finalSize canvas rotation a))) in *.
  set (fh := Q2R (snd (finalSize canvas rotation a))) in *.
  set (W := IZR (width (handleSave canvas rotation a))) in *.
  set (H := IZR (height (handleSave canvas rotation a))) in *.
  destruct S as [[S1 S2] [S3 S4]].
  destruct quarter_angles as ((C0 & N0) & (C1 & N1) & (C2 & N2) & (C3 & N3)).
  unfold painted, toDevice; cbn [transform dx dy source tx ty angle].
  simpl in Hr. destruct Hr as [<- | [<- | [<- | [<- | []]]]];
    cbn [rotatedWidth rotatedHeight Z.eqb Pos.eqb orb] in S2, S4.
  - exists (x - fw / 2)%R, (y - fh / 2)%R. rewrite C0, N0.
    repeat split; try lra. f_equal; lra.
  - exists (y - fh / 2)%R, (fw / 2 - x)%R. rewrite C1, N1.
    repeat split; try lra. f_equal; lra.
  - exists (fw / 2 - x)%R, (fh / 2 - y)%R. rewrite C2, N2.
    repeat split; try lra. f_equal; lra.
  - exists (fh / 2 - y)%R, (x - fw / 2)%R. rewrite C3, N3.
    repeat split; try lra. f_equal; lra.
Qed.

(** The middle of a 1920 by 1080 source, turned a quarter and exported at
    16:9, is painted. *)
Lemma export_paints_every_pixel_witness :
  painted (draw (mkCanvas 1920 1080) 90 Ratio_16_9) 540 300.
Proof.
  apply (export_paints_every_pixel (mkCanvas 1920 1080) 90 Ratio_16_9
           eq_refl eq_refl ltac:(simpl; auto)).
  - change (target (draw (mkCanvas 1920 1080) 90 Ratio_16_9)) with (mkCanvas 1080 607).
    cbn [width]. lra.
  - change (target (draw (mkCanvas 1920 1080) 90 Ratio_16_9)) with (mkCanvas 1080 607).
    cbn [height]. lra.
Defined.

End ExportDrawing.

(** ** More on the live preview *)

Section PreviewExtras.

Import Editor Preview.

(** X12. The vignette reaches over the whole image and is strongest at the
    corners only: every point of the image lies within the outer circle of
    the gradient, the corners lie on it, the inner circle is a point, and
    over the slider's range of the vignette value both colour stops have an
    opacity between 0 and 1. *)
Theorem vignette_covers_image :
  forall (imgWidth imgHeight : Z) (p : EditorParams) (g : RadialGradient),
    overlay (applyChanges imgWidth imgHeight p) = Some g ->
    (0 <= imgWidth)%Z -> (0 <= imgHeight)%Z ->
    ((forall x y : R,
        0 <= x <= IZR imgWidth -> 0 <= y <= IZR imgHeight ->
        sqrt ((x - x1 g) ^ 2 + (y - y1 g) ^ 2) <= r1 g) /\
     sqrt ((0 - x1 g) ^ 2 + (0 - y1 g) ^ 2) = r1 g /\
     sqrt ((IZR imgWidth - x1 g) ^ 2 + (IZR imgHeight - y1 g) ^ 2) = r1 g /\
     r0 g = 0 /\ x0 g = x1 g /\ y0 g = y1 g /\
     ((-100 <= vignette p <= 100)%Z ->
      Forall (fun s => 0 <= opacity s <= 1) (stops g)))%R.
Proof.
  intros w h p g Hg Hw Hh.
  unfold applyChanges in Hg; cbn [overlay] in Hg.
  destruct (negb (vignette p =? 0)%Z); [|discriminate].
  injection Hg as <-. unfold vignetteGradient; cbn [x0 y0 r0 x1 y1 r1 stops].
  apply IZR_le in Hw, Hh.
  repeat split.
  - intros x y Hx Hy. apply sqrt_le_1_alt. nra.
  - f_equal. field.
  - f_equal. field.
  - intros [L U].
    assert (A : (0 <= IZR (Z.abs (vignette p)) <= 100)%R).
    { split; [apply IZR_le, Z.abs_nonneg|].
      apply IZR_le. lia. }
    constructor; [cbn [opacity]; lra|].
    constructor; [cbn [opacity]; lra | constructor].
Qed.

Lemma vignette_covers_image_witness :
  let p := merge defaultParams
             (mkPartial None None None None (Some (-35)%Z) None None None None None None None) in
  exists g, overlay (applyChanges 640 480 p) = Some g /\ r1 g = 400%R.
Proof.
  intro p. eexists. split; [reflexivity|].
  pose proof (vignette_covers_image 640 480 p _ eq_refl
                ltac:(discriminate) ltac:(discriminate)) as (_ & H & _).
  rewrite <- H. cbn [x1 y1 vignetteGradient].
  replace ((0 - 640 / 2) ^ 2 + (0 - 480 / 2) ^ 2)%R with (400 * 400)%R by field.
  apply sqrt_square. lra.
Defined.

Import Text.

Lemma digits_numeric (d : Decimal.uint) :
  Forall numeric (lit (NilEmpty.string_of_uint d)).
Proof.
  induction d; simpl; constructor; try assumption; right; split; discriminate.
Qed.

Lemma Number_toString_numeric (z : Z) : Forall numeric (Number_toString z).
Proof.
  unfold Number_toString.
  assert (U : forall d, Forall numeric (lit (NilZero.string_of_uint d))).
  { intros d. destruct d; try apply digits_numeric.
    constructor; [right; split; discriminate | constructor]. }
  destruct (Z.to_int z); simpl; [apply U|].
  constructor; [now left | apply U].
Qed.

(** A printed number followed by text that starts with a code unit no
    number contains: the number and the rest can be read back. *)
Lemma number_then (c : char16) (t : jsstring) (a b : Z) (r r' : jsstring) :
  ~ numeric c ->
  Number_toString a ++ (c :: t) ++ r = Number_toString b ++ (c :: t) ++ r' ->
  a = b /\ r = r'.
Proof.
  intros Hc E. cbn [app] in E.
  assert (F : forall z, Forall (fun x => x <> c) (Number_toString z)).
  { intro z. generalize (Number_toString_numeric z). apply Forall_impl.
    intros x Hx ->. now apply Hc. }
  apply (split_at_terminator c) in E; try apply F.
  destruct E as [E1 E2]. apply Number_toString_inj in E1.
  apply app_inv_head in E2. now split.
Qed.

Lemma filters_normal_form (p : EditorParams) :
  filters p =
  lit "brightness(" ++ Number_toString (brightness p) ++
  lit "%) contrast(" ++ Number_toString (contrast p) ++
  lit "%) saturate(" ++ Number_toString (saturation p) ++
  lit "%) hue-rotate(" ++ Number_toString (hue p) ++
  lit "deg)" ++ optionalFilters (grayscale p) (sepia p).
Proof.
  unfold filters, optionalFilters.
  generalize (Number_toString (brightness p)) (Number_toString (contrast p))
             (Number_toString (saturation p)) (Number_toString (hue p)).
  intros b c s h.
  destruct (grayscale p), (sepia p);
    repeat rewrite <- app_assoc; rewrite ?app_nil_r; reflexivity.
Qed.

(** X13. The filter string tells the colour settings apart: two snapshots
    drawn with the same filter string have the same brightness, contrast,
    saturation and hue and the same grayscale and sepia flags. *)
Theorem filter_string_determines_colours :
  forall p q : EditorParams,
    filters p = filters q ->
    brightness p = brightness q /\ contrast p = contrast q /\
    saturation p = saturation q /\ hue p = hue q /\
    grayscale p = grayscale q /\ sepia p = sepia q.
Proof.
  intros p q E. rewrite !filters_normal_form in E.
  assert (pc : ~ numeric 37%N) by (intros [H | [H1 H2]]; [discriminate | now apply H1]).
  assert (dc : ~ numeric 100%N) by (intros [H | [H1 H2]]; [discriminate | now apply H2]).
  apply app_inv_head in E.
  apply (number_then 37%N (lit ") contrast(")) in E; [|exact pc].
  destruct E as [Eb E].
  apply (number_then 37%N (lit ") saturate(")) in E; [|exact pc].
  destruct E as [Ec E].
  apply (number_then 37%N (lit ") hue-rotate(")) in E; [|exact pc].
  destruct E as [Es E].
  apply (number_then 100%N (lit "eg)")) in E; [|exact dc].
  destruct E as [Eh E].
  repeat (split; [assumption|]).
  unfold optionalFilters in E.
  destruct (grayscale p), (grayscale q), (sepia p), (sepia q);
    try discriminate E; now split.
Qed.

(** Tilting the view changes the snapshot and not the filter string. *)
Lemma filter_string_determines_colours_witness :
  let p := defaultParams in
  let q := merge defaultParams
             (mkPartial None None None None None None None None (Some 30%Z) None None None) in
  p <> q /\ filters p = filters q /\ hue p = hue q.
Proof.
  intros p q. split; [discriminate|]. split; [reflexivity|].
  destruct (filter_string_determines_colours p q eq_refl) as (_ & _ & _ & H & _).
  exact H.
Defined.

End PreviewExtras.

(** ** More on the prompt composer *)

Section PromptExtras.

Import Dashboard Director.

(** *** What [trim] removes and what it keeps *)

Lemma str_eqb_eq (a b : jsstring) : str_eqb a b = true <-> a = b.
Proof.
  unfold str_eqb. destruct (jsstring_eq_dec a b); split; auto; discriminate.
Qed.

Lemma trimStart_split (s : jsstring) :
  exists pre, s = pre ++ trimStart s /\ blank pre.
Proof.
  induction s as [|c s (pre & E & B)]; [now exists []|].
  simpl. destruct (is_white_space c) eqn:W.
  - exists (c :: pre). split; [simpl; now f_equal|].
    unfold blank in *; simpl. now rewrite W.
  - now exists [].
Qed.

Lemma trimStart_head (s : jsstring) :
  trimStart s = [] \/ is_white_space (hd 0%N (trimStart s)) = false.
Proof.
  induction s as [|c s IH]; [now left|].
  simpl. destruct (is_white_space c) eqn:W; [exact IH | now right].
Qed.

(** [trimStart] stops in front of text that starts with something else than
    white space. *)
Lemma trimStart_keeps (a r : jsstring) :
  is_white_space (hd 32%N r) = false ->
  exists a0 a', a = a0 ++ a' /\ blank a0 /\ trimStart (a ++ r) = a' ++ r.
Proof.
  intro Hr. induction a as [|c a (a0 & a' & E & B & T)].
  - exists [], []. repeat split. destruct r as [|c r]; [reflexivity|].
    simpl in *. now rewrite Hr.
  - simpl. destruct (is_white_space c) eqn:W.
    + exists (c :: a0), a'. repeat split; [simpl; now f_equal | | exact T].
      unfold blank in *; simpl. now rewrite W.
    + exists [], (c :: a). now repeat split.
Qed.

Lemma blank_rev (s : jsstring) : blank s -> blank (rev s).
Proof.
  unfold blank. rewrite !forallb_forall. intros H x Hx. apply H. now apply in_rev.
Qed.

Lemma trimEnd_split (s : jsstring) :
  exists suf, s = trimEnd s ++ suf /\ blank suf.
Proof.
  unfold trimEnd. destruct (trimStart_split (rev s)) as (pre & E & B).
  exists (rev pre). split; [|now apply blank_rev].
  rewrite <- rev_app_distr, <- E. now rewrite rev_involutive.
Qed.

(** [trimEnd] stops behind text that ends with something else than white
    space. *)
Lemma trimEnd_keeps (l b : jsstring) :
  is_white_space (last l 32%N) = false ->
  exists b' b0, b = b' ++ b0 /\ blank b0 /\ trimEnd (l ++ b) = l ++ b'.
Proof.
  intro Hl. unfold trimEnd. rewrite rev_app_distr.
  assert (Hh : is_white_space (hd 32%N (rev l)) = false).
  { destruct (snoc_cases l) as [-> | (l' & x & ->)]; [exact Hl|].
    rewrite last_last in Hl. now rewrite rev_app_distr. }
  destruct (trimStart_keeps (rev b) (rev l) Hh) as (a0 & a' & E & B & T).
  exists (rev a'), (rev a0). repeat split.
  - rewrite <- rev_app_distr, <- E. now rewrite rev_involutive.
  - now apply blank_rev.
  - rewrite T, rev_app_distr. now rewrite rev_involutive.
Qed.

Lemma blank_nil_of_app (a0 a' : jsstring) : [] = a0 ++ a' -> a' = [].
Proof. destruct a0; simpl; [auto | discriminate]. Qed.

(** Text that starts and ends with something else than white space
    survives [trim] where it stands. *)
Lemma trim_keeps (a pat b : jsstring) :
  is_white_space (hd 32%N pat) = false ->
  is_white_space (last pat 32%N) = false ->
  exists a0 a' b' b0,
    a = a0 ++ a' /\ blank a0 /\ b = b' ++ b0 /\ blank b0 /\
    trim (a ++ pat ++ b) = a' ++ pat ++ b'.
Proof.
  intros Hh Hl. unfold trim.
  assert (Hr : is_white_space (hd 32%N (pat ++ b)) = false).
  { destruct pat as [|c pat]; [discriminate Hh | exact Hh]. }
  destruct (trimStart_keeps a (pat ++ b) Hr) as (a0 & a' & Ea & Ba & T).
  rewrite T, app_assoc.
  assert (Hl' : is_white_space (last (a' ++ pat) 32%N) = false).
  { destruct (snoc_cases pat) as [-> | (p' & x & ->)]; [discriminate Hh|].
    rewrite last_last in Hl. now rewrite app_assoc, last_last. }
  destruct (trimEnd_keeps (a' ++ pat) b Hl') as (b' & b0 & Eb & Bb & T').
  exists a0, a', b', b0. rewrite T', <- app_assoc. now repeat split.
Qed.

Lemma includes_app (a pat b : jsstring) : includes (a ++ pat ++ b) pat = true.
Proof.
  assert (S : forall p r, starts_with p (p ++ r) = true).
  { induction p as [|c p IH]; intro r; [now destruct r|].
    simpl. now rewrite N.eqb_refl, IH. }
  assert (U : forall s p, includes s p =
                starts_with p s ||
                match s with [] => false | _ :: s' => includes s' p end).
  { intros s p. now destruct s. }
  induction a as [|c a IH].
  - cbn [app]. now rewrite U, S.
  - rewrite U. cbn [app]. rewrite IH. apply orb_true_r.
Qed.

Lemma last_rev_hd (x : jsstring) (d : char16) : last (rev x) d = hd d x.
Proof.
  destruct x as [|c x]; [reflexivity|]. simpl. apply last_last.
Qed.

(** What [trim] returns is empty or starts and ends with something else
    than white space, is the argument less blank text at both ends, and is
    left alone by a second [trim]. *)
Lemma trim_facts (s : jsstring) :
  (trim s = [] \/
   (is_white_space (hd 0%N (trim s)) = false /\
    is_white_space (last (trim s) 0%N) = false)) /\
  (exists pre suf, s = pre ++ trim s ++ suf /\ blank pre /\ blank suf) /\
  trim (trim s) = trim s.
Proof.
  assert (shape : trim s = [] \/
                  (is_white_space (hd 0%N (trim s)) = false /\
                   is_white_space (last (trim s) 0%N) = false)).
  { unfold trim. destruct (trimStart_head s) as [E | H].
    - left. now rewrite E.
    - destruct (trimStart s) as [|c t] eqn:Et; [now left | right].
      cbn [hd] in H.
      destruct (trimEnd_keeps [c] t H) as (b' & b0 & _ & _ & T).
      cbn [app] in T. split; [now rewrite T|].
      unfold trimEnd in *. rewrite last_rev_hd.
      destruct (trimStart_head (rev (c :: t))) as [E | H'];
        [rewrite E in T; discriminate|].
      destruct (trimStart (rev (c :: t))); [discriminate T | exact H']. }
  split; [exact shape|]. split.
  - unfold trim. destruct (trimStart_split s) as (pre & E & B).
    destruct (trimEnd_split (trimStart s)) as (suf & E' & B').
    exists pre, suf. repeat split; try assumption.
    now rewrite <- E', <- E.
  - destruct shape as [-> | [Hh Hl]]; [reflexivity|].
    destruct (trim s) as [|c t] eqn:Et; [reflexivity|].
    cbn [hd] in Hh.
    assert (Hl' : is_white_space (last (c :: t) 32%N) = false).
    { destruct (snoc_cases (c :: t)) as [E | (l & x & E)]; [discriminate|].
      rewrite E in *. now rewrite last_last in *. }
    unfold trim at 1. simpl trimStart. rewrite Hh.
    destruct (trimEnd_keeps (c :: t) [] Hl') as (b' & b0 & Eb & _ & T).
    rewrite app_nil_r in T. rewrite T.
    destruct b'; [apply app_nil_r | discriminate].
Qed.

(** X14. The prompt sent to the backend neither starts nor ends with white
    space (it may be empty); all that composing it removes from the
    assembled text is white space at the two ends; and trimming it again
    changes nothing. *)
Theorem enginePrompt_is_trimmed :
  forall i : PromptInputs,
    (enginePrompt i = [] \/
     (is_white_space (hd 0%N (enginePrompt i)) = false /\
      is_white_space (last (enginePrompt i) 0%N) = false)) /\
    (exists pre suf,
        untrimmedPrompt i = pre ++ enginePrompt i ++ suf /\ blank pre /\ blank suf) /\
    trim (enginePrompt i) = enginePrompt i.
Proof. intro i. exact (trim_facts (untrimmedPrompt i)). Qed.

(** X15. The prompt ends with the last clause that is switched on: with
    stabilization on it ends with the stabilization sentence (preceded by
    the motion-blur sentence when that is on too), and with stabilization
    off and motion blur on it ends with the motion-blur sentence. *)
Theorem enginePrompt_closing_sentence :
  forall i : PromptInputs,
    (stabilization i = true ->
     exists pre, enginePrompt i = pre ++ stabilizationSentence) /\
    (stabilization i = true -> motionBlur i = true ->
     exists pre,
       enginePrompt i = pre ++ motionBlurSentence ++ lit " " ++ stabilizationSentence) /\
    (stabilization i = false -> motionBlur i = true ->
     exists pre, enginePrompt i = pre ++ motionBlurSentence).
Proof.
  intro i.
  assert (closes : forall a pat,
             is_white_space (hd 32%N pat) = false ->
             is_white_space (last pat 32%N) = false ->
             untrimmedPrompt i = a ++ pat ->
             exists pre, enginePrompt i = pre ++ pat).
  { intros a pat Hh Hl E. unfold enginePrompt. rewrite E.
    replace (a ++ pat) with (a ++ pat ++ []) by (now rewrite app_nil_r).
    destruct (trim_keeps a pat [] Hh Hl) as (a0 & a' & b' & b0 & _ & _ & Eb & _ & T).
    exists a'. etransitivity; [exact T|].
    destruct b'; [now rewrite app_nil_r | discriminate]. }
  pose proof (untrimmedPrompt_parts i) as P. unfold afterSpeed in P.
  repeat split.
  - intro Hs. rewrite Hs in P.
    apply (closes (beforeSpeed i ++ lit " " ++ speedInstruction (speed i) ++
                   (if motionBlur i
                    then lit " Apply realistic cinematic motion blur." else []) ++
                   lit " ")); try reflexivity.
    rewrite P. now rewrite <- !app_assoc.
  - intros Hs Hb. rewrite Hs, Hb in P.
    apply (closes (beforeSpeed i ++ lit " " ++ speedInstruction (speed i) ++ lit " "));
      try reflexivity.
    rewrite P. now rewrite <- !app_assoc.
  - intros Hs Hb. rewrite Hs, Hb in P.
    apply (closes (beforeSpeed i ++ lit " " ++ speedInstruction (speed i) ++ lit " "));
      try reflexivity.
    rewrite P. now rewrite <- !app_assoc.
Qed.

(** The settings the dashboard starts with: the tech preset's place taken
    by a short text, stabilization on. *)
Lemma enginePrompt_closing_sentence_witness :
  enginePrompt (mkPromptInputs (lit "Test") false (lit "wide") (lit "pan") [] 1.0 false true)
    = lit "Test  " ++ stabilizationSentence.
Proof.
  destruct (proj1 (enginePrompt_closing_sentence
                     (mkPromptInputs (lit "Test") false (lit "wide") (lit "pan") []
                                     1.0 false true)) eq_refl) as (pre & E).
  reflexivity.
Defined.

Lemma advancedClause_ends (cam motion : jsstring) (atm : list jsstring) :
  is_white_space (hd 32%N (advancedClause cam motion atm)) = false /\
  is_white_space (last (advancedClause cam motion atm) 32%N) = false.
Proof.
  unfold advancedClause. split; [reflexivity|].
  rewrite !app_assoc. change (lit ".") with [46%N]. now rewrite last_last.
Qed.

(** In advanced mode the composed prompt is the base text (less white space
    in front), the advanced clause as assembled, and what follows. *)
Lemma enginePrompt_advanced (i : PromptInputs) :
  isAdvancedMode i = true ->
  exists a0 a' rest,
    prompt i = a0 ++ a' /\ blank a0 /\
    enginePrompt i =
      a' ++ advancedClause (camAngle i) (motionType i) (atmosphere i) ++ rest.
Proof.
  intro Hadv. unfold enginePrompt. rewrite untrimmedPrompt_parts.
  unfold beforeSpeed. rewrite Hadv, <- app_assoc.
  destruct (advancedClause_ends (camAngle i) (motionType i) (atmosphere i)) as [Hh Hl].
  destruct (trim_keeps (prompt i)
              (advancedClause (camAngle i) (motionType i) (atmosphere i))
              (lit " " ++ speedInstruction (speed i) ++ afterSpeed i) Hh Hl)
    as (a0 & a' & b' & b0 & Ea & Ba & _ & _ & T).
  exists a0, a', b'. repeat split; assumption.
Qed.

(** X16. In advanced mode the composed prompt carries the advanced clause
    word for word, right after the base text: the camera keyword, the
    motion style and the atmosphere list are never cut by the trimming.
    A camera angle that is not in the table is spliced in as the word
    "undefined". *)
Theorem enginePrompt_carries_advanced_clause :
  forall i : PromptInputs,
    isAdvancedMode i = true ->
    (exists a0 a' rest,
        prompt i = a0 ++ a' /\ blank a0 /\
        enginePrompt i =
          a' ++ advancedClause (camAngle i) (motionType i) (atmosphere i) ++ rest) /\
    (find_by_id ADVANCED_CAM_ANGLES (camAngle i) = None ->
     includes (enginePrompt i) (lit ". Scene undefined. The animation uses a ") = true).
Proof.
  intros i Hadv. split; [now apply enginePrompt_advanced|].
  intro Hcam.
  destruct (enginePrompt_advanced i Hadv) as (a0 & a' & rest & _ & _ & E).
  rewrite E. unfold advancedClause. rewrite Hcam. cbn [interpolate].
  set (tail := interpolate (find_by_id ADVANCED_MOTION (motionType i)) ++ _).
  change (lit ". Scene " ++ lit "undefined" ++ lit ". The animation uses a " ++ tail)
    with (lit ". Scene undefined. The animation uses a " ++ tail).
  rewrite <- app_assoc. apply includes_app.
Qed.

Lemma enginePrompt_carries_advanced_clause_witness :
  includes
    (enginePrompt (mkPromptInputs (lit "Test") true (lit "dutch") (lit "pan") []
                                  1.0 false false))
    (lit ". Scene undefined. The animation uses a ") = true.
Proof.
  exact (proj2 (enginePrompt_carries_advanced_clause
                  (mkPromptInputs (lit "Test") true (lit "dutch") (lit "pan") []
                                  1.0 false false) eq_refl) eq_refl).
Defined.

(** *** The atmosphere tags *)

Lemma array_includes_In (xs : list jsstring) (id : jsstring) :
  array_includes xs id = true <-> In id xs.
Proof.
  unfold array_includes. rewrite existsb_exists. split.
  - intros (a & Ha & E). apply str_eqb_eq in E. now subst.
  - intro H. exists id. split; [exact H | now apply str_eqb_eq].
Qed.

Lemma others_filter_id (id : jsstring) (xs : list jsstring) :
  array_includes xs id = false ->
  List.filter (fun a => negb (str_eqb a id)) xs = xs.
Proof.
  unfold array_includes. induction xs as [|x xs IH]; [reflexivity|].
  simpl. intro H. apply orb_false_elim in H. destruct H as [H1 H2].
  now rewrite H1, IH.
Qed.

(** X17. Toggling an atmosphere tag flips whether the tag is selected and
    nothing else: the other tags stay selected or not as they were and keep
    their order, a selection without repeats stays without repeats, and
    toggling twice a tag that was not selected gives the selection back. *)
Theorem toggleAtmosphere_flips_one_tag :
  forall (id : jsstring) (prev : list jsstring),
    array_includes (toggleAtmosphere id prev) id = negb (array_includes prev id) /\
    List.filter (fun a => negb (str_eqb a id)) (toggleAtmosphere id prev) =
      List.filter (fun a => negb (str_eqb a id)) prev /\
    (forall other, other <> id ->
       array_includes (toggleAtmosphere id prev) other = array_includes prev other) /\
    (NoDup prev -> NoDup (toggleAtmosphere id prev)) /\
    (array_includes prev id = false ->
     toggleAtmosphere id (toggleAtmosphere id prev) = prev).
Proof.
  intros id prev.
  assert (self : str_eqb id id = true) by now apply str_eqb_eq.
  assert (removed : array_includes (List.filter (fun a => negb (str_eqb a id)) prev) id
                    = false).
  { destruct (array_includes _ id) eqn:E; [|reflexivity].
    apply array_includes_In, filter_In in E. destruct E as [_ E].
    now rewrite self in E. }
  assert (others : List.filter (fun a => negb (str_eqb a id)) (toggleAtmosphere id prev) =
                   List.filter (fun a => negb (str_eqb a id)) prev).
  { unfold toggleAtmosphere. destruct (array_includes prev id) eqn:E.
    - apply others_filter_id, removed.
    - rewrite filter_app; simpl. rewrite self; simpl. apply app_nil_r. }
  split; [|split; [exact others | split; [|split]]].
  - unfold toggleAtmosphere. destruct (array_includes prev id) eqn:E; simpl.
    + exact removed.
    + apply array_includes_In, in_or_app. right. now left.
  - intros other Hne.
    assert (keep : forall xs, array_includes xs other =
                     array_includes (List.filter (fun a => negb (str_eqb a id)) xs) other).
    { intro xs. unfold array_includes. induction xs as [|x xs IH]; [reflexivity|].
      simpl. destruct (str_eqb x id) eqn:Ex; simpl.
      - apply str_eqb_eq in Ex. subst x.
        destruct (str_eqb id other) eqn:Eo; [|exact IH].
        apply str_eqb_eq in Eo. now destruct Hne.
      - now rewrite IH. }
    now rewrite (keep (toggleAtmosphere id prev)), others, <- keep.
  - intro ND. unfold toggleAtmosphere. destruct (array_includes prev id) eqn:E.
    + now apply NoDup_filter.
    + apply NoDup_app; [exact ND | repeat constructor; intros [] |].
      intros x Hx [<- | []].
      apply array_includes_In in Hx. congruence.
  - intro E. unfold toggleAtmosphere at 2. rewrite E.
    unfold toggleAtmosphere.
    assert (I : array_includes (prev ++ [id]) id = true)
      by (apply array_includes_In, in_or_app; right; now left).
    rewrite I, filter_app; simpl. rewrite self; simpl.
    rewrite app_nil_r. now apply others_filter_id.
Qed.

Lemma toggleAtmosphere_flips_one_tag_witness :
  toggleAtmosphere (lit "fog") (toggleAtmosphere (lit "fog") [lit "neon"; lit "rain"])
    = [lit "neon"; lit "rain"] /\
  NoDup (toggleAtmosphere (lit "rain") [lit "neon"; lit "rain"]).
Proof.
  destruct (toggleAtmosphere_flips_one_tag (lit "fog") [lit "neon"; lit "rain"])
    as (_ & _ & _ & _ & H).
  destruct (toggleAtmosphere_flips_one_tag (lit "rain") [lit "neon"; lit "rain"])
    as (_ & _ & _ & ND & _).
  split; [exact (H eq_refl)|].
  apply ND. repeat constructor; simpl; intuition discriminate.
Defined.

End PromptExtras.

(** ** The AI suggestion *)

Section Suggestions.

Import Dashboard Director.

(** X18. A suggestion that logs an error (the model call throws, the
    parsing of its answer throws, or the answer parses to [null]) leaves
    the prompt text, the camera angle, the motion type, the atmosphere, the
    speed, the two switches, the preset and the audio selections as they
    were; the director's vision is cleared and the busy flag is off again.
    The advanced mode is left as it was too, and the composed prompt with
    it, unless the answer parsed to [null]: then the advanced mode is
    switched on, which was done before the error.  Without a starting image
    nothing happens at all and the model is not called. *)
Theorem failed_suggestion_keeps_settings :
  forall (w : Analyst) (startImage : option jsstring) (s : Suite),
    (forall e : JsError,
        consoleError (suggestParameters w startImage s) = Some e ->
        let r := suite (suggestParameters w startImage s) in
        inputs r =
          withAdvancedMode (if parsedNull w then true else isAdvancedMode (inputs s))
                           (inputs s) /\
        (parsedNull w = false ->
         inputs r = inputs s /\ enginePrompt (inputs r) = enginePrompt (inputs s)) /\
        (parsedNull w = true ->
         isAdvancedMode (inputs r) = true /\ e = engineTypeError) /\
        activePreset r = activePreset s /\
        selectedBgMusicId r = selectedBgMusicId s /\
        selectedSfxId r = selectedSfxId s /\
        directorVision r = None /\
        isSuggesting r = false) /\
    (truthy startImage = false ->
     suggestParameters w startImage s = mkSuggested s false None).
Proof.
  intros w startImage s. split.
  - intros e. unfold suggestParameters, parsedNull.
    destruct (truthy startImage); cbn [negb]; [|discriminate].
    assert (same : withAdvancedMode (isAdvancedMode (inputs s)) (inputs s) = inputs s)
      by now destruct (inputs s).
    destruct (generateContent_reply w) as [text | e0].
    + destruct (JSON_parse w _) as [[|res] | e1]; cbn; [| discriminate |].
      * intros [= <-]. repeat split; discriminate.
      * intros _. rewrite same. repeat split; discriminate.
    + cbn. intros _. rewrite same. repeat split; discriminate.
  - intro H. unfold suggestParameters. now rewrite H.
Qed.

(** The model call fails: nothing but the director's vision changes.  The
    answer is the text "null": the advanced mode is switched on, and the
    preset stays. *)
Lemma failed_suggestion_keeps_settings_witness :
  let w := mkAnalyst (Throws (mkError (Some (lit "quota exceeded"))))
                     (fun _ => Throws (mkError None)) in
  let w0 := mkAnalyst (Returns (Some (lit "null"))) (fun _ => Returns ParsedNull) in
  let s := mkSuite (mkPromptInputs (lit "Test") false (lit "wide") (lit "pan") []
                                   1.0 false true)
                   (lit "tech") (Some (lit "A slow reveal.")) (lit "none") (lit "none")
                   false in
  (directorVision (suite (suggestParameters w (Some (lit "data:,x")) s)) = None /\
   inputs (suite (suggestParameters w (Some (lit "data:,x")) s)) = inputs s) /\
  (isAdvancedMode (inputs (suite (suggestParameters w0 (Some (lit "data:,x")) s))) = true /\
   activePreset (suite (suggestParameters w0 (Some (lit "data:,x")) s)) = lit "tech").
Proof.
  intros w w0 s.
  destruct (proj1 (failed_suggestion_keeps_settings w (Some (lit "data:,x")) s)
              (mkError (Some (lit "quota exceeded"))) eq_refl)
    as (_ & H1 & _ & _ & _ & _ & H2 & _).
  destruct (proj1 (failed_suggestion_keeps_settings w0 (Some (lit "data:,x")) s)
              engineTypeError eq_refl)
    as (_ & _ & H3 & H4 & _).
  split; [split; [exact H2 | exact (proj1 (H1 eq_refl))]|].
  split; [exact (proj1 (H3 eq_refl)) | exact H4].
Defined.

Lemma undefined_angle_in_prompt (i : PromptInputs) :
  isAdvancedMode i = true ->
  find_by_id ADVANCED_CAM_ANGLES (camAngle i) = None ->
  includes (enginePrompt i) (lit ". Scene undefined. The animation uses a ") = true.
Proof.
  intros Hadv Hcam.
  destruct (enginePrompt_advanced i Hadv) as (a0 & a' & rest & _ & _ & E).
  rewrite E. unfold advancedClause. rewrite Hcam. cbn [interpolate].
  set (tail := interpolate (find_by_id ADVANCED_MOTION (motionType i)) ++ _).
  change (lit ". Scene " ++ lit "undefined" ++ lit ". The animation uses a " ++ tail)
    with (lit ". Scene undefined. The animation uses a " ++ tail).
  rewrite <- app_assoc. apply includes_app.
Qed.

(** X19. A suggestion whose answer parses to a value other than [null]
    always switches to advanced mode and to the preset "custom", logs no
    error, turns the busy flag off and leaves the motion-blur and
    stabilization switches alone.  The camera angle it names is taken as it
    comes: when it is none of the five known ones, the prompt composed from
    the new settings reads "Scene undefined." *)
Theorem suggestion_is_applied_unchecked :
  forall (w : Analyst) (startImage : option jsstring) (s : Suite)
         (text : option jsstring) (res : Suggestion),
    truthy startImage = true ->
    generateContent_reply w = Returns text ->
    JSON_parse w (parseSource text) = Returns (ParsedValue res) ->
    let r := suite (suggestParameters w startImage s) in
    consoleError (suggestParameters w startImage s) = None /\
    isAdvancedMode (inputs r) = true /\
    activePreset r = lit "custom" /\
    isSuggesting r = false /\
    motionBlur (inputs r) = motionBlur (inputs s) /\
    stabilization (inputs r) = stabilization (inputs s) /\
    (forall id : jsstring,
        cameraAngle res = Some id -> id <> [] ->
        find_by_id ADVANCED_CAM_ANGLES id = None ->
        camAngle (inputs r) = id /\
        includes (enginePrompt (inputs r))
                 (lit ". Scene undefined. The animation uses a ") = true).
Proof.
  intros w startImage s text res Hstart Hreply Hparse r.
  assert (E : r = setIsSuggesting false
                    (applySuggestion res (setDirectorVision None (setIsSuggesting true s)))).
  { unfold r, suggestParameters. rewrite Hstart, Hreply; cbn [negb].
    now rewrite Hparse. }
  split.
  { unfold suggestParameters. rewrite Hstart, Hreply; cbn [negb].
    now rewrite Hparse. }
  rewrite E.
  cbn [inputs activePreset isSuggesting setIsSuggesting setDirectorVision
       applySuggestion isAdvancedMode motionBlur stabilization camAngle].
  do 5 (split; [reflexivity|]).
  intros id Hid Hne Hfind.
  assert (Hcam : orKeep (cameraAngle res) (camAngle (inputs s)) = id).
  { rewrite Hid. destruct id; [now destruct Hne | reflexivity]. }
  rewrite Hcam. split; [reflexivity|].
  apply undefined_angle_in_prompt; [reflexivity | exact Hfind].
Qed.

Lemma suggestion_is_applied_unchecked_witness :
  let res := mkSuggestion (Some (lit "dutch")) None None None None None None None in
  let w := mkAnalyst (Returns (Some (lit "{...}"))) (fun _ => Returns (ParsedValue res)) in
  let s := mkSuite (mkPromptInputs (lit "Test") false (lit "wide") (lit "pan") []
                                   1.0 false true)
                   (lit "tech") None (lit "none") (lit "none") false in
  includes (enginePrompt (inputs (suite (suggestParameters w (Some (lit "data:,x")) s))))
           (lit ". Scene undefined. The animation uses a ") = true.
Proof.
  intros res w s.
  destruct (suggestion_is_applied_unchecked w (Some (lit "data:,x")) s
              (Some (lit "{...}")) res eq_refl eq_refl eq_refl)
    as (_ & _ & _ & _ & _ & _ & H).
  exact (proj2 (H (lit "dutch") eq_refl ltac:(discriminate) eq_refl)).
Defined.

End Suggestions.

(** ** More on the generation job *)

Section JobExtras.

Import Dashboard Director JobLog.

Local Open Scope Z_scope.

Lemma pollLoop_TickLog (replies : list (reply VideoOperation)) :
  forall (op : VideoOperation) (m : Z) (s : GenerationState),
    TickLog m s (snd (pollLoop replies op m s)).
Proof.
  induction replies as [|[op1|e] replies IH]; intros op m s;
    destruct (done op) eqn:D.
  - rewrite pollLoop_done by assumption. constructor.
  - rewrite pollLoop_unanswered by assumption. cbn [snd].
    rewrite <- (app_nil_r (tickEffects m s None)). repeat constructor.
  - rewrite pollLoop_done by assumption. constructor.
  - rewrite pollLoop_returns by assumption.
    specialize (IH op1 (nextIndex m) (tick (nextIndex m) s)).
    destruct (pollLoop replies op1 (nextIndex m) (tick (nextIndex m) s)) as [[o s2] log2].
    cbn [snd] in *. now constructor.
  - rewrite pollLoop_done by assumption. constructor.
  - rewrite pollLoop_throws by assumption. cbn [snd].
    rewrite <- (app_nil_r (tickEffects m s _)). repeat constructor.
Qed.

Lemma catchEffects_CatchLog (e : JsError) : CatchLog e (catchEffects e).
Proof.
  destruct (catchBlock_cases e submitted)
    as [(R & _ & _ & ->) | (message & found & -> & I & _ & _ & ->)].
  - now constructor.
  - now apply CatchLog_fails.
Qed.

Lemma CatchLog_not_in_flight (e : JsError) (log : list effect) :
  CatchLog e log -> inFlight (states log) = [].
Proof. destruct 1 as [|message [|]]; reflexivity. Qed.

(** The effects of a run that had a starting image: the submitted state,
    the submission, the turns of the poll loop, an epilogue. *)
Lemma generateVideo_effects (w : World) (i : JobInputs) (s : GenerationState)
    (c : char16) (start : jsstring) :
  startImage i = Some (c :: start) ->
  exists polls tail,
    effectsOf w i s =
      SetGenState submitted ::
      GenerateVideos (buildRequest i (c :: start))
                     (generateVideos_reply w (buildRequest i (c :: start))) ::
      polls ++ tail /\
    TickLog 0 submitted polls /\ Epilogue tail.
Proof.
  intro Hstart. unfold effectsOf, generateVideo. rewrite Hstart.
  unfold bind at 1. unfold setGenState at 1. fold submitted.
  unfold try_catch, tryBlock.
  unfold bind at 1. unfold emit at 1.
  destruct (generateVideos_reply w (buildRequest i (c :: start))) as [op0|e] eqn:Hsub.
  2:{ cbn [await raise bind]. rewrite catchBlock_run. cbn [app snd].
      exists [], (catchEffects e).
      split; [reflexivity | split; [constructor|]].
      apply (Epilogue_failed e), catchEffects_CatchLog. }
  unfold bind at 1. cbn [await ret].
  unfold bind at 1.
  pose proof (pollLoop_TickLog (getVideosOperation_replies w) op0 0 submitted) as TL.
  destruct (pollLoop (getVideosOperation_replies w) op0 0 submitted) as [[o sp] lp].
  cbn [snd] in TL.
  destruct o as [op'|e|].
  - destruct (uri op') as [[|c' link]|] eqn:Huri.
    + cbn [ret app snd]. exists lp, [].
      split; [now rewrite !app_nil_r | split; [exact TL | constructor]].
    + unfold bind at 1. unfold emit at 1.
      destruct (fetch_reply w _) as [url|e] eqn:Hfetch.
      * unfold bind at 1. cbn [await ret]. unfold setGenState. fold (succeeded url).
        cbn [app snd]. eexists lp, _.
        split; [reflexivity | split; [exact TL | constructor]].
      * cbn [await raise bind]. rewrite catchBlock_run. cbn [app snd].
        eexists lp, _.
        split; [rewrite <- app_assoc; reflexivity
               | split; [exact TL | apply Epilogue_fetch_failed,
                                          catchEffects_CatchLog]].
    + cbn [ret app snd]. exists lp, [].
      split; [now rewrite !app_nil_r | split; [exact TL | constructor]].
  - rewrite catchBlock_run. cbn [app snd].
    exists lp, (catchEffects e).
    split; [reflexivity | split; [exact TL|]].
    apply (Epilogue_failed e), catchEffects_CatchLog.
  - cbn [app snd]. exists lp, [].
    split; [now rewrite app_nil_r | split; [exact TL | constructor]].
Qed.

Lemma nextIndex_mod (m : Z) :
  0 <= m -> nextIndex m = (m + 1) mod 6 /\ 0 <= nextIndex m < 6.
Proof.
  intro Hm. unfold nextIndex.
  change (Z.of_nat (List.length LOADING_MESSAGES)) with 6.
  rewrite Z.rem_mod_nonneg by lia.
  split; [reflexivity | apply Z.mod_pos_bound; lia].
Qed.

(** The states a poll loop sets, in closed form. *)
Lemma TickLog_states (m : Z) (s : GenerationState) (log : list effect) :
  TickLog m s log -> 0 <= m ->
  forall (j : nat) (g : GenerationState),
    nth_error (states log) j = Some g ->
    progress g = Z.min (progress s + 15 * (Z.of_nat j + 1)) 95 /\
    status g = loadingMessage ((m + Z.of_nat j + 1) mod 6) /\
    isGenerating g = isGenerating s /\
    videoUrl g = videoUrl s /\ error g = error s.
Proof.
  induction 1 as [m s | m s r log TL IH]; intros Hm j g Hj.
  - now destruct j.
  - destruct (nextIndex_mod m Hm) as [En Bn].
    unfold tickEffects in Hj. cbn [app states] in Hj.
    destruct j as [|j]; cbn [nth_error] in Hj.
    + injection Hj as <-. unfold tick; cbn [progress status isGenerating videoUrl error].
      rewrite En. repeat split; try lia.
      f_equal. f_equal. cbn [Z.of_nat]. lia.
    + destruct (IH ltac:(lia) j g Hj) as (P & S & G & V & E).
      unfold tick in P, G, V, E; cbn [progress status isGenerating videoUrl error] in P, G, V, E.
      repeat split; try assumption; try lia.
      rewrite S, En. f_equal.
      replace ((m + 1) mod 6 + Z.of_nat j + 1)
        with ((m + 1) mod 6 + (Z.of_nat j + 1)) by lia.
      rewrite Z.add_mod_idemp_l by lia. f_equal. lia.
Qed.

Lemma Epilogue_not_in_flight (tail : list effect) :
  Epilogue tail -> inFlight (states tail) = [].
Proof.
  destruct 1 as [|e log C| |url e log C]; try reflexivity.
  - exact (CatchLog_not_in_flight e log C).
  - cbn [states]. exact (CatchLog_not_in_flight e log C).
Qed.

Lemma TickLog_in_flight (m : Z) (s : GenerationState) (log : list effect) :
  TickLog m s log -> isGenerating s = true -> inFlight (states log) = states log.
Proof.
  induction 1 as [m s | m s r log TL IH]; intro G; [reflexivity|].
  unfold tickEffects. cbn [app states inFlight List.filter].
  assert (G' : isGenerating (tick (nextIndex m) s) = true) by exact G.
  rewrite G'. f_equal. now apply IH.
Qed.

(** X20. The synthetic progress is a function of the number of ticks and of
    nothing else: in any run, whatever the backend answers, the state number
    [j] of the job while it is generating (counting the submitted state as
    number 0) has progress [min (15 * j) 95] and shows the loading message
    number [j mod 6], with neither a video nor an error. *)
Theorem progress_after_j_ticks :
  forall (w : World) (i : JobInputs) (s : GenerationState)
         (j : nat) (g : GenerationState),
    nth_error (inFlight (states (effectsOf w i s))) j = Some g ->
    progress g = Z.min (15 * Z.of_nat j) 95 /\
    status g = loadingMessage (Z.of_nat j mod 6) /\
    isGenerating g = true /\ videoUrl g = None /\ error g = None.
Proof.
  intros w i s j g Hj.
  destruct (startImage i) as [[|c start]|] eqn:Hstart;
    try (unfold effectsOf, generateVideo in Hj; rewrite Hstart in Hj;
         now destruct j).
  destruct (generateVideo_effects w i s c start Hstart) as (polls & tail & E & TL & Ep).
  rewrite E in Hj. cbn [states] in Hj. rewrite states_app in Hj.
  change (submitted :: states polls ++ states tail)
    with ([submitted] ++ states polls ++ states tail) in Hj.
  rewrite !inFlight_app, (Epilogue_not_in_flight _ Ep), app_nil_r in Hj.
  rewrite (TickLog_in_flight _ _ _ TL eq_refl) in Hj.
  destruct j as [|j]; cbn [app inFlight List.filter submitted isGenerating nth_error] in Hj.
  - injection Hj as <-. now repeat split.
  - destruct (TickLog_states 0 submitted polls TL ltac:(lia) j g Hj)
      as (P & S & G & V & Er).
    cbn [progress submitted isGenerating videoUrl error] in *.
    repeat split; try assumption.
    + rewrite P. f_equal. lia.
    + rewrite S. f_equal. f_equal. lia.
Qed.

Lemma progress_after_j_ticks_witness :
  exists g,
    nth_error (inFlight (states (effectsOf worldSuccess sampleInputs initialGenState))) 2
      = Some g /\
    progress g = 30 /\ status g = lit "Applying temporal coherence...".
Proof.
  eexists. split; [reflexivity|].
  destruct (progress_after_j_ticks worldSuccess sampleInputs initialGenState 2 _ eq_refl)
    as (P & S & _).
  split; [exact P | exact S].
Defined.

(** X21. What a run with a starting image does, in order: it sets the
    submitted state, submits once, then turn after turn waits ten seconds,
    ticks the job state and polls, and ends with nothing more, with one
    fetch followed by the final state, or with the [catch] block (after the
    fetch when the fetch failed).  The [catch] block logs the thrown value
    and stops there when reading its message throws; otherwise it goes on to
    reset the key, if it finds the signature, and to set the failed state.
    So no poll comes without its ten seconds of waiting, and nothing is
    fetched before the last poll. *)
Theorem job_effects_in_order :
  forall (w : World) (i : JobInputs) (s : GenerationState),
    truthy (startImage i) = true ->
    exists (start : jsstring) (polls tail : list effect),
      startImage i = Some start /\
      effectsOf w i s =
        SetGenState submitted ::
        GenerateVideos (buildRequest i start)
                       (generateVideos_reply w (buildRequest i start)) ::
        polls ++ tail /\
      TickLog 0 submitted polls /\ Epilogue tail.
Proof.
  intros w i s H.
  destruct (startImage i) as [[|c start]|] eqn:Hstart; try discriminate.
  destruct (generateVideo_effects w i s c start Hstart) as (polls & tail & E & TL & Ep).
  exists (c :: start), polls, tail. now repeat split.
Qed.

Lemma job_effects_in_order_witness :
  (exists polls tail,
     effectsOf worldCredentialError sampleInputs initialGenState =
       SetGenState submitted ::
       GenerateVideos (buildRequest sampleInputs (lit "data:image/png;base64,AAAA"))
                      (Returns pendingOp) :: polls ++ tail /\
     Epilogue tail) /\
  (exists polls tail,
     effectsOf worldNullRejection sampleInputs initialGenState =
       SetGenState submitted ::
       GenerateVideos (buildRequest sampleInputs (lit "data:image/png;base64,AAAA"))
                      (Throws ThrownNullish) :: polls ++ tail /\
     Epilogue tail).
Proof.
  split.
  - destruct (job_effects_in_order worldCredentialError sampleInputs initialGenState
                eq_refl)
      as (start & polls & tail & Hs & E & _ & Ep).
    injection Hs as <-. now exists polls, tail.
  - destruct (job_effects_in_order worldNullRejection sampleInputs initialGenState
                eq_refl)
      as (start & polls & tail & Hs & E & _ & Ep).
    injection Hs as <-. now exists polls, tail.
Defined.

(** X28. The [catch] block reads the message of what was thrown without a
    guard.  When a run raises [null] or [undefined], or a value whose
    message is neither a string nor absent and has no [includes] method, the
    block logs the value and throws in its turn: logging is the last thing
    the run does, the function ends with that [TypeError] instead of
    returning, the key is not reset, and the job is left as the run had it,
    generating and without an error. *)
Theorem unreadable_error_leaves_job_generating :
  forall (w : World) (i : JobInputs) (s : GenerationState) (e : JsError),
    In e (raised (effectsOf w i s)) ->
    e = ThrownNullish \/ e = Thrown (ForeignMessage None) ->
    fst (fst (generateVideo w i s)) = Raised engineTypeError /\
    (exists pre, effectsOf w i s = pre ++ [ConsoleError e]) /\
    isGenerating (stateAfter w i s) = true /\
    error (stateAfter w i s) = None /\
    resets (effectsOf w i s) = 0%nat.
Proof.
  intros w i s e Hin He.
  destruct (generateVideo_raised w i s)
    as [[Hr _] | (e' & sp & Hr & G & Er & Ho & Hs & Hk & pre & Hlog)];
    rewrite Hr in Hin; [destruct Hin|].
  destruct Hin as [<- | []].
  rewrite Ho, Hs, Hk, Hlog.
  destruct He as [-> | ->]; cbn; (split; [reflexivity|]);
    (split; [now exists pre|]); now repeat split.
Qed.

Lemma unreadable_error_leaves_job_generating_witness :
  stateAfter worldNullRejection sampleInputs initialGenState = submitted /\
  isGenerating (stateAfter worldNumericMessage sampleInputs initialGenState) = true /\
  fst (fst (generateVideo worldNumericMessage sampleInputs initialGenState))
    = Raised engineTypeError.
Proof.
  split; [reflexivity|].
  destruct (unreadable_error_leaves_job_generating
              worldNumericMessage sampleInputs initialGenState numericMessageError
              (or_introl eq_refl) (or_intror eq_refl))
    as (Ho & _ & G & _).
  split; [exact G | exact Ho].
Defined.

Ltac job_cases w i s :=
  let R := fresh "R" in
  let c := fresh "c" in
  let start := fresh "start" in
  let Hstart := fresh "Hstart" in
  let Heq := fresh "Heq" in
  unfold effectsOf, stateAfter in *;
  destruct (startImage i) as [[|c start]|] eqn:Hstart;
  [ unfold generateVideo in *; rewrite Hstart in *
  | pose proof (generateVideo_run w i s c start Hstart) as R;
    destruct (generateVideo w i s) as [[? ?] ?];
    inversion R as
      [ e Hsub Heq
      | op0 lp sp e Hsub PL Hraised Hnd Heq
      | op0 lp sp Hsub PL Hraised Hnd Heq
      | op0 lp sp op' Hsub PL Hraised CO Hnolink Heq
      | op0 lp sp op' link e Hsub PL Hraised CO Huri Hlink Hfetch Heq
      | op0 lp sp op' link url Hsub PL Hraised CO Huri Hlink Hfetch Heq ];
    subst; clear R
  | unfold generateVideo in *; rewrite Hstart in * ];
  cbn [fst snd] in *.

Ltac log_read_step :=
  cbn [states observed raised resets observes raises app];
  rewrite ?states_app, ?observed_app, ?raised_app, ?resets_app,
          ?catchEffects_observed, ?catchEffects_raised, ?catchEffects_resets.

Ltac log_read :=
  log_read_step; log_read_step;
  cbn [states observed raised resets observes raises app].

Lemma CompletedOn_done_is_last (op0 : VideoOperation) (lp : list effect)
    (op' op : VideoOperation) :
  CompletedOn op0 lp op' -> In op (op0 :: observed lp) -> done op = true -> op = op'.
Proof.
  intros CO I D.
  pose proof (CompletedOn_observed _ _ _ CO) as F. rewrite Forall_forall in F.
  destruct (F _ I) as [N | E]; [unfold notDone in N; congruence | exact E].
Qed.

Lemma CompletedOn_in (op0 : VideoOperation) (lp : list effect) (op' : VideoOperation) :
  CompletedOn op0 lp op' -> In op' (op0 :: observed lp).
Proof.
  intros (_ & [[-> ->] | (_ & pre & -> & _)]); [now left | right].
  rewrite observed_app. apply in_or_app. right. now left.
Qed.

Lemma notDone_contradiction (op0 : VideoOperation) (lp : list effect) (op : VideoOperation) :
  Forall notDone (op0 :: observed lp) -> In op (op0 :: observed lp) ->
  done op = true -> False.
Proof.
  intros F I D. rewrite Forall_forall in F. specialize (F _ I).
  unfold notDone in F. congruence.
Qed.

(** X22. When a run is shown a handle that reports completion and carries a
    link, and the fetch of that link (with the key appended) succeeds, the
    function returns and the job is left succeeded: not generating, status
    "Generation complete!", progress 100, the fetched video as its video and
    no error; no error was raised and the key is not reset. *)
Theorem completion_with_link_succeeds :
  forall (w : World) (i : JobInputs) (s : GenerationState)
         (op : VideoOperation) (link videoUrl' : jsstring),
    In op (observed (effectsOf w i s)) ->
    done op = true -> uri op = Some link -> link <> [] ->
    fetch_reply w (link ++ lit "&key=" ++ API_KEY i) = Returns videoUrl' ->
    fst (fst (generateVideo w i s)) = Done tt /\
    stateAfter w i s =
      mkGen false (lit "Generation complete!") 100 (Some videoUrl') None /\
    raised (effectsOf w i s) = [] /\
    resets (effectsOf w i s) = 0%nat.
Proof.
  intros w i s op dl vid Hin Hdone Huri' Hne Hfetch'.
  fold (assetUrl i dl) in Hfetch'.
  revert Hin. job_cases w i s; log_read; intro Hin.
  - destruct Hin.
  - destruct Hin.
  - rewrite app_nil_r in Hin. destruct (notDone_contradiction _ _ _ Hnd Hin Hdone).
  - destruct (notDone_contradiction _ _ _ Hnd Hin Hdone).
  - rewrite (CompletedOn_done_is_last _ _ _ _ CO Hin Hdone) in Huri'.
    rewrite Huri' in Hnolink. destruct dl; [now destruct Hne | discriminate].
  - rewrite app_nil_r in Hin.
    rewrite (CompletedOn_done_is_last _ _ _ _ CO Hin Hdone) in Huri'.
    rewrite Huri in Huri'. injection Huri' as ->. congruence.
  - rewrite app_nil_r in Hin.
    rewrite (CompletedOn_done_is_last _ _ _ _ CO Hin Hdone) in Huri'.
    rewrite Huri in Huri'. injection Huri' as ->.
    rewrite Hfetch in Hfetch'. injection Hfetch' as ->.
    destruct PL as (_ & _ & _ & R0). rewrite Hraised, R0.
    now repeat split.
  - destruct Hin.
Qed.

Lemma completion_with_link_succeeds_witness :
  stateAfter worldSuccess sampleInputs initialGenState =
    mkGen false (lit "Generation complete!") 100 (Some (lit "blob:video")) None.
Proof.
  exact (proj1 (proj2 (completion_with_link_succeeds
           worldSuccess sampleInputs initialGenState finishedOp
           (lit "https://v/1?alt=media") (lit "blob:video")
           (or_intror (or_intror (or_introl eq_refl))) eq_refl eq_refl
           ltac:(discriminate) eq_refl))).
Defined.

(** X23. Once a run with a starting image has returned, the Generate
    button is disabled exactly when the run was shown a completed handle
    without a link: after a failure or a success the user can submit again,
    after such a completion never (the job stays marked as generating). *)
Theorem generate_button_after_run :
  forall (w : World) (i : JobInputs) (s : GenerationState),
    truthy (startImage i) = true ->
    fst (fst (generateVideo w i s)) = Done tt ->
    (generateDisabled (stateAfter w i s) (startImage i) = true <->
     exists op, In op (observed (effectsOf w i s)) /\
                done op = true /\ truthy (uri op) = false).
Proof.
  intros w i s Ht. unfold generateDisabled. rewrite Ht; cbn [negb]. rewrite orb_false_r.
  revert Ht. job_cases w i s; log_read; intros Ht Hret; try discriminate.
  - rewrite (catchBlock_returns _ _ Hret).
    split; [discriminate | now intros (op & [] & _)].
  - rewrite (catchBlock_returns _ _ Hret).
    rewrite app_nil_r. split; [discriminate|].
    intros (op & I & D & _). destruct (notDone_contradiction _ _ _ Hnd I D).
  - destruct (PollingLog_state _ _ PL) as (G & _). rewrite G.
    split; [|reflexivity]. intros _. exists op'.
    split; [now apply CompletedOn_in|]. split; [apply CO | exact Hnolink].
  - rewrite (catchBlock_returns _ _ Hret).
    rewrite app_nil_r. split; [discriminate|].
    intros (op & I & D & U).
    rewrite (CompletedOn_done_is_last _ _ _ _ CO I D), Huri in U. congruence.
  - rewrite app_nil_r. split; [discriminate|].
    intros (op & I & D & U).
    rewrite (CompletedOn_done_is_last _ _ _ _ CO I D), Huri in U. congruence.
Qed.

Lemma generate_button_after_run_witness :
  generateDisabled (stateAfter worldWithoutLink sampleInputs initialGenState)
                   (startImage sampleInputs) = true /\
  generateDisabled (stateAfter worldCredentialError sampleInputs initialGenState)
                   (startImage sampleInputs) = false.
Proof.
  split; [|reflexivity].
  apply (generate_button_after_run worldWithoutLink sampleInputs initialGenState
           eq_refl eq_refl).
  exists finishedWithoutLink. split; [|now split].
  right. right. now left.
Defined.

Lemma until_comma_app (payload rest : jsstring) :
  commaFree payload -> until_comma (payload ++ 44%N :: rest) = payload.
Proof.
  unfold commaFree. induction payload as [|c payload IH]; intro H; [reflexivity|].
  simpl. destruct (N.eqb_spec c 44) as [-> | _]; [destruct H; now left|].
  f_equal. apply IH. intro I. apply H. now right.
Qed.

Lemma until_comma_free (payload : jsstring) :
  commaFree payload -> until_comma payload = payload.
Proof.
  unfold commaFree. induction payload as [|c payload IH]; intro H; [reflexivity|].
  simpl. destruct (N.eqb_spec c 44) as [-> | _]; [destruct H; now left|].
  f_equal. apply IH. intro I. apply H. now right.
Qed.

Lemma split_comma_1_app (header tail : jsstring) :
  commaFree header ->
  split_comma_1 (header ++ 44%N :: tail) = Some (until_comma tail).
Proof.
  unfold commaFree. induction header as [|c header IH]; intro H; [reflexivity|].
  simpl. destruct (N.eqb_spec c 44) as [-> | _]; [destruct H; now left|].
  apply IH. intro I. apply H. now right.
Qed.

(** X24. The image sent to the backend is the payload of the data URL: for
    a data URL made of a header, a comma and a payload, neither holding a
    comma, the request carries exactly the payload, labelled as PNG; what
    would follow a second comma is dropped; and a text with no comma at all
    gives no image bytes. *)
Theorem request_carries_data_url_payload :
  forall (i : JobInputs) (header payload : jsstring),
    commaFree header -> commaFree payload ->
    image (buildRequest i (dataUrl header payload)) =
      mkImage (Some payload) (lit "image/png") /\
    (forall more : jsstring,
        split_comma_1 (dataUrl header payload ++ lit "," ++ more) = Some payload) /\
    split_comma_1 header = None.
Proof.
  intros i header payload Hh Hp. unfold dataUrl, buildRequest, pngPayload; cbn [image].
  change (lit ",") with [44%N]. cbn [app].
  split; [|split].
  - now rewrite split_comma_1_app, until_comma_free.
  - intro more. rewrite <- app_assoc. cbn [app].
    now rewrite split_comma_1_app, until_comma_app.
  - clear Hp. unfold commaFree in Hh.
    induction header as [|c header IH]; [reflexivity|].
    simpl. destruct (N.eqb_spec c 44) as [-> | _]; [destruct Hh; now left|].
    apply IH. intro I. apply Hh. now right.
Qed.

Lemma request_carries_data_url_payload_witness :
  imageBytes (image (buildRequest sampleInputs (lit "data:image/png;base64,AAAA")))
    = Some (lit "AAAA").
Proof.
  pose proof (proj1 (request_carries_data_url_payload sampleInputs
                       (lit "data:image/png;base64") (lit "AAAA")
                       ltac:(unfold commaFree; simpl; intuition discriminate)
                       ltac:(unfold commaFree; simpl; intuition discriminate))) as H.
  change (dataUrl (lit "data:image/png;base64") (lit "AAAA"))
    with (lit "data:image/png;base64,AAAA") in H.
  now rewrite H.
Defined.

End JobExtras.

(** ** The application shell and the job *)

Section Shell.

Import Dashboard App.

Lemma afterJob_resets (log : list effect) (st : KeyState) :
  afterJob log st = if (resets log =? 0)%nat then st else Some false.
Proof.
  unfold afterJob. revert st. induction log as [|ev log IH]; intro st; [reflexivity|].
  cbn [fold_left]. rewrite IH.
  destruct ev; cbn [resets]; try reflexivity.
  unfold handleResetKey. now destruct (resets log =? 0)%nat.
Qed.

(** The errors a run raises and the resets of the key it asks for. *)
Lemma run_raised_resets (w : World) (i : JobInputs) (s : GenerationState) :
  (raised (effectsOf w i s) = [] /\ resets (effectsOf w i s) = 0%nat) \/
  (exists e, raised (effectsOf w i s) = [e] /\
             resets (effectsOf w i s) = if isCredentialError e then 1%nat else 0%nat).
Proof.
  unfold effectsOf.
  destruct (startImage i) as [[|c start]|] eqn:Hstart;
    try (unfold generateVideo; rewrite Hstart; now left).
  pose proof (generateVideo_run w i s c start Hstart) as R.
  destruct (generateVideo w i s) as [[o s'] log].
  inversion R as
    [ e Hsub Heq
    | op0 lp sp e Hsub PL Hraised Hnd Heq
    | op0 lp sp Hsub PL Hraised Hnd Heq
    | op0 lp sp op' Hsub PL Hraised CO Hnolink Heq
    | op0 lp sp op' link e Hsub PL Hraised CO Huri Hlink Hfetch Heq
    | op0 lp sp op' link url Hsub PL Hraised CO Huri Hlink Hfetch Heq ];
    subst; clear R; cbn [snd];
    try (destruct PL as (_ & _ & _ & R0));
    cbn [raised raises resets app];
    rewrite ?raised_app, ?resets_app, ?catchEffects_raised, ?catchEffects_resets;
    cbn [raised raises resets app];
    rewrite ?raised_app, ?resets_app, ?catchEffects_raised, ?catchEffects_resets;
    rewrite ?Hraised, ?R0; cbn [app Nat.add];
    try (now left); right; exists e; now split.
Qed.

(** X25. The job and the shell together.  When a run of the job raises an
    error whose message carries the credential signature, the shell shows the
    API-key dialog; where the host offers its key selection and that
    resolves, one click on the dialog's button hides the dialog again
    (whether or not a key was picked), and where the host offers none no
    number of clicks does.  A run that raises no such error leaves the shell
    as it was. *)
Theorem credential_failure_opens_key_dialog :
  forall (w : World) (i : JobInputs) (s : GenerationState) (st : KeyState),
    let log := effectsOf w i s in
    ((exists e, In e (raised log) /\ isCredentialError e = true) ->
     render (afterJob log st) = DashboardView true /\
     (forall host,
         openSelectKey_resolves host = true ->
         render (handleOpenSelect (Some host) (afterJob log st))
         = DashboardView false) /\
     (forall n : nat,
         render (Nat.iter n (handleOpenSelect None) (afterJob log st))
         = DashboardView true)) /\
    ((forall e, In e (raised log) -> isCredentialError e = false) ->
     afterJob log st = st).
Proof.
  intros w i s st log. unfold log. rewrite afterJob_resets.
  destruct (run_raised_resets w i s) as [[Hr Hk] | (e & Hr & Hk)];
    rewrite Hr, Hk; split.
  - now intros (e & [] & _).
  - reflexivity.
  - intros (e' & [<- | []] & Hc). rewrite Hc. cbn.
    split; [reflexivity|]. split.
    + intros host Hres. now rewrite Hres.
    + intro n. now induction n.
  - intro H. now rewrite (H e (or_introl eq_refl)).
Qed.

Lemma credential_failure_opens_key_dialog_witness :
  render (afterJob (effectsOf worldCredentialError sampleInputs initialGenState)
                   (checkApiKey None None)) = DashboardView true /\
  afterJob (effectsOf worldSuccess sampleInputs initialGenState) (checkApiKey None None)
    = Some true.
Proof.
  destruct (credential_failure_opens_key_dialog
              worldCredentialError sampleInputs initialGenState (checkApiKey None None))
    as [H _].
  destruct (credential_failure_opens_key_dialog
              worldSuccess sampleInputs initialGenState (checkApiKey None None))
    as [_ H'].
  split.
  - apply H. exists credentialError. split; [now left | reflexivity].
  - apply H'. intros e [].
Defined.

End Shell.

(** ** The history buttons and redundant commits *)

Section HistoryButtons.

Import Editor EditorEvents EditorButtons.

(** X26. The undo button is disabled exactly when undo would change
    nothing, and the redo button exactly when redo would change nothing. *)
Theorem history_buttons_disabled_iff_noop :
  forall st : State,
    (undoDisabled st = true <-> undo st = st) /\
    (redoDisabled st = true <-> redo st = st).
Proof.
  intros [p h f b d]. unfold undoDisabled, redoDisabled; cbn [history future].
  split; split.
  - destruct h; [reflexivity | discriminate].
  - destruct (snoc_cases h) as [-> | (h' & x & ->)]; [reflexivity|].
    rewrite undo_snoc. intros [= _ E _].
    apply (f_equal (@List.length _)) in E. rewrite length_app in E. simpl in E. lia.
  - destruct f; [reflexivity | discriminate].
  - destruct f as [|x f]; [reflexivity|].
    rewrite redo_cons. intros [= _ E _].
    apply (f_equal (@List.length _)) in E. rewrite length_app in E. simpl in E. lia.
Qed.

(** X27. Reset View commits even when there is nothing to reset: a second
    click changes no parameter yet adds an undo step, so the undo that
    follows it shows no change. *)
Theorem redundant_reset_adds_empty_undo_step :
  forall st : State,
    let once := resetTransforms st in
    let twice := resetTransforms once in
    params twice = params once /\
    List.length (history twice) = S (List.length (history once)) /\
    params (undo twice) = params once /\
    undo twice <> twice.
Proof.
  intros [p h f b d] once twice.
  assert (E : twice = mkState (params once) (history once ++ [params once]) [] b d)
    by (now destruct p).
  rewrite E, undo_snoc. cbn [params history].
  repeat split.
  - rewrite length_app; simpl. lia.
  - intro H. apply (f_equal future) in H. discriminate H.
Qed.

End HistoryButtons.
